(** * trilogy: lifecycle hooks and the embedded (sql.js) backend

    A shallow embedding of
      - [src/hooks.ts]   the hook registry ([Hooks]) and [_callHook],
      - [src/util.ts]    [TrilogyError] and [invariant],
      - the compiled [Trilogy] class (constructor, [_init], [_write], [run],
        [exec], [decrement], [count], [_errorHandler], [_isValidWhere],
        [_sanitizeWhere], [_parseTablePath]),
    followed by the properties proved about them. *)

From stdpp Require Import base list strings gmap.
From Stdlib Require Import ZArith Lia Ascii DecimalString.
From Stdlib Require SpecFloat DecimalPos.

Local Open Scope string_scope.
Local Open Scope Z_scope.
Local Open Scope list_scope.

(** ** JavaScript values *)

(** Functions are compared by reference: a function value is its identity. *)
Definition FnId := nat.

(** The JavaScript values the modelled code inspects.  [VObject] is a plain
    object (what [_.isPlainObject] accepts), [VInstance] any other object
    (a [Date], a [Map], an instance of a class), [VError] an instance of
    [Error] with its [name] and [message].  Numbers are the integers: no
    fraction is ever computed with. *)
#[warnings="-register-all"]
Inductive Value : Type :=
| VUndefined
| VNull
| VBool (b : bool)
| VNumber (n : Z)
| VString (s : string)
| VSymbol (id : nat)
| VFunction (fn : FnId)
| VArray (items : list Value)
| VObject (props : list (string * Value))
| VInstance (cls : string) (props : list (string * Value))
| VError (name message : string).

(** [typeof v] *)
Definition typeof (v : Value) : string :=
  match v with
  | VUndefined => "undefined"
  | VBool _ => "boolean"
  | VNumber _ => "number"
  | VString _ => "string"
  | VSymbol _ => "symbol"
  | VFunction _ => "function"
  | VNull | VArray _ | VObject _ | VInstance _ _ | VError _ _ => "object"
  end.

(** ToBoolean *)
Definition truthy (v : Value) : bool :=
  match v with
  | VUndefined | VNull => false
  | VBool b => b
  | VNumber n => negb (n =? 0)
  | VString s => negb (String.eqb s "")
  | _ => true
  end.

(** Own-property lookup in an object literal; a later write to a key
    replaces the earlier one, so the first binding found is the live one. *)
Fixpoint get_prop (k : string) (props : list (string * Value)) : option Value :=
  match props with
  | [] => None
  | (k', v) :: rest => if String.eqb k k' then Some v else get_prop k rest
  end.

(** ** util.ts *)

(** [new TrilogyError (message)]; [framesToPop] plays no part here. *)
Definition TrilogyError (message : string) : Value :=
  VError "TrilogyError" message.

(** [message || 'Invariant Violation'] *)
Definition message_or_default (message : option string) : string :=
  match message with
  | Some m => if truthy (VString m) then m else "Invariant Violation"
  | None => "Invariant Violation"
  end.

(** [invariant (condition, message)]: throws ([inl]) or returns the
    condition ([inr]). *)
Definition invariant (condition : Value) (message : option string)
  : Value + Value :=
  if negb (truthy condition)
  then inl (TrilogyError (message_or_default message))
  else inr condition.

(** ** hooks.ts *)

Module HookRegistry.

(** *** Set<callback>

    A JavaScript [Set] iterates in insertion order and stays live while it is
    iterated: [delete] empties the entry in place, [add] appends unless the
    value is already present, and an iterator walks the entries by index,
    skipping the emptied ones. *)
Definition JSSet := list (option FnId).

Definition set_has (fn : FnId) (s : JSSet) : bool :=
  bool_decide (Some fn ∈ s).

Definition set_add (fn : FnId) (s : JSSet) : JSSet :=
  if set_has fn s then s else s ++ [Some fn].

Definition set_delete (fn : FnId) (s : JSSet) : JSSet * bool :=
  ((λ e, if decide (e = Some fn) then None else e) <$> s, set_has fn s).

(** The members, in iteration order. *)
Definition set_values (s : JSSet) : list FnId := omap id s.

(** No callback is stored twice. *)
Definition set_wf (s : JSSet) : Prop := NoDup (set_values s).

Record Hooks := mkHooks {
  _onQuery : JSSet;
  _onQueryAll : JSSet;
  _beforeCreate : JSSet;
  _afterCreate : JSSet;
  _beforeUpdate : JSSet;
  _afterUpdate : JSSet;
  _beforeRemove : JSSet;
  _afterRemove : JSSet
}.

(** [new Hooks ()] *)
Definition new_Hooks : Hooks := mkHooks [] [] [] [] [] [] [] [].

Definition with_onQuery (s : JSSet) (h : Hooks) : Hooks :=
  mkHooks s (_onQueryAll h) (_beforeCreate h) (_afterCreate h)
          (_beforeUpdate h) (_afterUpdate h) (_beforeRemove h) (_afterRemove h).
Definition with_onQueryAll (s : JSSet) (h : Hooks) : Hooks :=
  mkHooks (_onQuery h) s (_beforeCreate h) (_afterCreate h)
          (_beforeUpdate h) (_afterUpdate h) (_beforeRemove h) (_afterRemove h).
Definition with_beforeCreate (s : JSSet) (h : Hooks) : Hooks :=
  mkHooks (_onQuery h) (_onQueryAll h) s (_afterCreate h)
          (_beforeUpdate h) (_afterUpdate h) (_beforeRemove h) (_afterRemove h).
Definition with_afterCreate (s : JSSet) (h : Hooks) : Hooks :=
  mkHooks (_onQuery h) (_onQueryAll h) (_beforeCreate h) s
          (_beforeUpdate h) (_afterUpdate h) (_beforeRemove h) (_afterRemove h).
Definition with_beforeUpdate (s : JSSet) (h : Hooks) : Hooks :=
  mkHooks (_onQuery h) (_onQueryAll h) (_beforeCreate h) (_afterCreate h)
          s (_afterUpdate h) (_beforeRemove h) (_afterRemove h).
Definition with_afterUpdate (s : JSSet) (h : Hooks) : Hooks :=
  mkHooks (_onQuery h) (_onQueryAll h) (_beforeCreate h) (_afterCreate h)
          (_beforeUpdate h) s (_beforeRemove h) (_afterRemove h).
Definition with_beforeRemove (s : JSSet) (h : Hooks) : Hooks :=
  mkHooks (_onQuery h) (_onQueryAll h) (_beforeCreate h) (_afterCreate h)
          (_beforeUpdate h) (_afterUpdate h) s (_afterRemove h).
Definition with_afterRemove (s : JSSet) (h : Hooks) : Hooks :=
  mkHooks (_onQuery h) (_onQueryAll h) (_beforeCreate h) (_afterCreate h)
          (_beforeUpdate h) (_afterUpdate h) (_beforeRemove h) s.

(** The removal capability a registration returns: a closure over the
    registry that reports what [Set.delete] reported. *)
Definition Removal := Hooks → Hooks * bool.

(** A registration either throws ([inl]) or returns its removal capability;
    the registry it leaves behind comes with either. *)
Definition Registration : Type := Hooks * (Value + Removal).

Definition hook_type_message : string :=
  "hook callbacks must be of type function".

(** [typeof fn === 'function'] *)
Definition is_function_type (fn : Value) : Value :=
  VBool (String.eqb (typeof fn) "function").

(** The callback behind a value that passed the [typeof] test (no other
    value reaches a listener set). *)
Definition callback_of (fn : Value) : FnId :=
  match fn with VFunction f => f | _ => 0%nat end.

Record OnQueryOptions := { includeInternal : option bool }.

(** [options.includeInternal] as a condition; [{}] leaves it undefined. *)
Definition wants_internal (options : OnQueryOptions) : bool :=
  match includeInternal options with
  | Some b => b
  | None => false
  end.

(** [() => this._set.delete(fn)] *)
Definition delete_from (get : Hooks → JSSet) (put : JSSet → Hooks → Hooks)
    (f : FnId) : Removal :=
  λ h, let (s, deleted) := set_delete f (get h) in (put s h, deleted).

(** [() => this._onQueryAll.delete(fn) && this._onQuery.delete(fn)]: the
    second [delete] runs only when the first one returned [true]. *)
Definition delete_from_both (f : FnId) : Removal :=
  λ h, let (h', deleted) := delete_from _onQueryAll with_onQueryAll f h in
       if deleted then delete_from _onQuery with_onQuery f h'
       else (h', false).

Definition onQuery (fn : Value) (options : OnQueryOptions) (h : Hooks)
  : Registration :=
  match invariant (is_function_type fn) (Some hook_type_message) with
  | inl err => (h, inl err)
  | inr _ =>
      let f := callback_of fn in
      if wants_internal options then
        let h1 := with_onQuery (set_add f (_onQuery h)) h in
        let h2 := with_onQueryAll (set_add f (_onQueryAll h1)) h1 in
        (h2, inr (delete_from_both f))
      else
        let h1 := with_onQuery (set_add f (_onQuery h)) h in
        (h1, inr (delete_from _onQuery with_onQuery f))
  end.

(** The six remaining registration methods differ only in the set they
    use: [this._set.add(fn); return () => this._set.delete(fn)]. *)
Definition register_in (get : Hooks → JSSet) (put : JSSet → Hooks → Hooks)
    (fn : Value) (h : Hooks) : Registration :=
  match invariant (is_function_type fn) (Some hook_type_message) with
  | inl err => (h, inl err)
  | inr _ =>
      let f := callback_of fn in
      (put (set_add f (get h)) h, inr (delete_from get put f))
  end.

Definition beforeCreate := register_in _beforeCreate with_beforeCreate.
Definition afterCreate := register_in _afterCreate with_afterCreate.
Definition beforeUpdate := register_in _beforeUpdate with_beforeUpdate.
Definition afterUpdate := register_in _afterUpdate with_afterUpdate.
Definition beforeRemove := register_in _beforeRemove with_beforeRemove.
Definition afterRemove := register_in _afterRemove with_afterRemove.

(** *** Firing *)

Inductive Hook :=
| OnQuery | BeforeCreate | AfterCreate | BeforeUpdate | AfterUpdate
| BeforeRemove | AfterRemove.

(** [Symbol('trilogy.EventCancellation')]: the one symbol the module
    creates. *)
Definition EventCancellation : Value := VSymbol 0.

(** [v === EventCancellation]: symbols are equal when they are the same
    symbol. *)
Definition is_cancellation (v : Value) : bool :=
  match v with
  | VSymbol id => (id =? 0)%nat
  | _ => false
  end.

Record HookResult := { prevented : bool }.

(** The overloads of [_callHook]: the hook with the payload it takes. *)
Inductive HookCall :=
| CallOnQuery (query : string) (internal : bool)
| CallBeforeCreate (arg : Value) (options : option Value)
| CallAfterCreate (arg : Value) (options : option Value)
| CallBeforeUpdate (data criteria : Value) (options : option Value)
| CallAfterUpdate (arg : Value) (options : option Value)
| CallBeforeRemove (criteria : Value) (options : option Value)
| CallAfterRemove (arg : Value) (options : option Value).

Definition hook_of (c : HookCall) : Hook :=
  match c with
  | CallOnQuery _ _ => OnQuery
  | CallBeforeCreate _ _ => BeforeCreate
  | CallAfterCreate _ _ => AfterCreate
  | CallBeforeUpdate _ _ _ => BeforeUpdate
  | CallAfterUpdate _ _ => AfterUpdate
  | CallBeforeRemove _ _ => BeforeRemove
  | CallAfterRemove _ _ => AfterRemove
  end.

(** [options || {}] *)
Definition options_or_empty (options : option Value) : Value :=
  match options with
  | Some o => if truthy o then o else VObject []
  | None => VObject []
  end.

(** What one awaited callback did: returned a value (the value its promise
    resolved to) or threw (or rejected). *)
Inductive Outcome :=
| Returned (v : Value)
| Threw (e : Value).

Section Firing.

(** Everything the callbacks can read and write besides the registry. *)
Variable Store : Type.

Record World := mkWorld { hooks : Hooks; store : Store }.

(** The callbacks: what the function with a given identity does when it is
    called and awaited.  A callback holds a reference to the registry as to
    everything else, so it may register and unregister hooks. *)
Variable behaviour : FnId → list Value → World → Outcome * World.

(** [normalizeCriteria] of helpers.ts, which throws on criteria it does
    not accept. *)
Variable normalizeCriteria : Value → Value + Value.

(** One callback invocation as it happened. *)
Record CallRecord := mkCall {
  cr_fn : FnId;
  cr_args : list Value;
  cr_before : World;
  cr_outcome : Outcome;
  cr_after : World
}.

(** The state of a firing in progress: the world, [result], and the
    invocations made so far. *)
Record Firing := mkFiring {
  f_world : World;
  f_result : HookResult;
  f_calls : list CallRecord
}.

(** [for (const fn of fns) body]: the iterator reads the live set at its
    index, skips emptied entries and stops at the end of the entries; an
    exception in the body leaves the loop.  [None] when the fuel runs out
    (the body may keep adding members). *)
Fixpoint for_of (fuel : nat) (fns : Hooks → JSSet)
    (body : FnId → Firing → Firing * option Value)
    (i : nat) (st : Firing) : option (Firing * option Value) :=
  match fuel with
  | O => None
  | S fuel' =>
      match fns (hooks (f_world st)) !! i with
      | None => Some (st, None)
      | Some None => for_of fuel' fns body (S i) st
      | Some (Some fn) =>
          match body fn st with
          | (st', Some e) => Some (st', Some e)
          | (st', None) => for_of fuel' fns body (S i) st'
          end
      end
  end.

(** [await fn (...args)] followed by
    [if (thisResult === EventCancellation) result.prevented = true]. *)
Definition call_and_check (fn : FnId) (args : list Value) (st : Firing)
  : Firing * option Value :=
  let (outcome, w') := behaviour fn args (f_world st) in
  let calls := f_calls st ++ [mkCall fn args (f_world st) outcome w'] in
  match outcome with
  | Threw e => (mkFiring w' (f_result st) calls, Some e)
  | Returned v =>
      (mkFiring w'
         (if is_cancellation v then {| prevented := true |} else f_result st)
         calls, None)
  end.

(** The listener set each hook name stands for (the [Record<Hook, Set>]
    of [_callHook]); the on-query sets are chosen by the query's flag. *)
Definition fns_of (c : HookCall) : Hooks → JSSet :=
  match c with
  | CallOnQuery _ internal => if internal then _onQueryAll else _onQuery
  | CallBeforeCreate _ _ => _beforeCreate
  | CallAfterCreate _ _ => _afterCreate
  | CallBeforeUpdate _ _ _ => _beforeUpdate
  | CallAfterUpdate _ _ => _afterUpdate
  | CallBeforeRemove _ _ => _beforeRemove
  | CallAfterRemove _ _ => _afterRemove
  end.

(** The body of the second loop of [_callHook], by hook. *)
Definition hook_body (c : HookCall) (fn : FnId) (st : Firing)
  : Firing * option Value :=
  match c with
  | CallOnQuery query _ => call_and_check fn [VString query] st
  | CallBeforeUpdate data criteria options =>
      match normalizeCriteria criteria with
      | inl e => (st, Some e)
      | inr normalized =>
          call_and_check fn [data; normalized; options_or_empty options] st
      end
  | CallBeforeRemove criteria options =>
      match normalizeCriteria criteria with
      | inl e => (st, Some e)
      | inr normalized =>
          call_and_check fn [normalized; options_or_empty options] st
      end
  | CallBeforeCreate arg options | CallAfterCreate arg options
  | CallAfterUpdate arg options | CallAfterRemove arg options =>
      call_and_check fn [arg; options_or_empty options] st
  end.

(** How the async function settles once a loop is over. *)
Definition settle (r : option (Firing * option Value))
  : option (World * (Value + HookResult) * list CallRecord) :=
  match r with
  | None => None
  | Some (st, Some e) => Some (f_world st, inl e, f_calls st)
  | Some (st, None) => Some (f_world st, inr (f_result st), f_calls st)
  end.

(** [_callHook]: the promise it returns rejects ([inl]) or resolves to the
    result ([inr]); the invocations made are returned along. *)
Definition _callHook (fuel : nat) (c : HookCall) (w : World)
  : option (World * (Value + HookResult) * list CallRecord) :=
  let st := mkFiring w {| prevented := false |} [] in
  match c with
  | CallOnQuery query internal =>
      let fns := if internal then _onQueryAll else _onQuery in
      settle (for_of fuel fns (λ fn, call_and_check fn [VString query]) 0 st)
  | _ => settle (for_of fuel (fns_of c) (hook_body c) 0 st)
  end.

(** The arguments every callback of a firing receives, or what
    [normalizeCriteria] threw. *)
Definition hook_args (c : HookCall) : Value + list Value :=
  match c with
  | CallOnQuery query _ => inr [VString query]
  | CallBeforeUpdate data criteria options =>
      match normalizeCriteria criteria with
      | inl e => inl e
      | inr normalized => inr [data; normalized; options_or_empty options]
      end
  | CallBeforeRemove criteria options =>
      match normalizeCriteria criteria with
      | inl e => inl e
      | inr normalized => inr [normalized; options_or_empty options]
      end
  | CallBeforeCreate arg options | CallAfterCreate arg options
  | CallAfterUpdate arg options | CallAfterRemove arg options =>
      inr [arg; options_or_empty options]
  end.

(** A callback that, called with [args], returns normally and leaves the
    set being fired as it found it. *)
Definition well_behaved (c : HookCall) (args : list Value) (fn : FnId) : Prop :=
  ∀ w, (∃ v, (behaviour fn args w).1 = Returned v) ∧
       fns_of c (hooks (behaviour fn args w).2) = fns_of c (hooks w).

(** Each invocation starts in the world the previous one left. *)
Fixpoint chained (w : World) (calls : list CallRecord) (w' : World) : Prop :=
  match calls with
  | [] => w' = w
  | r :: rest =>
      cr_before r = w ∧
      behaviour (cr_fn r) (cr_args r) w = (cr_outcome r, cr_after r) ∧
      chained (cr_after r) rest w'
  end.

End Firing.

(** The seven registration methods of [Hooks]. *)
Inductive Method :=
| MOnQuery (options : OnQueryOptions)
| MBeforeCreate | MAfterCreate | MBeforeUpdate | MAfterUpdate
| MBeforeRemove | MAfterRemove.

Definition register (m : Method) (fn : Value) (h : Hooks) : Registration :=
  match m with
  | MOnQuery options => onQuery fn options h
  | MBeforeCreate => beforeCreate fn h
  | MAfterCreate => afterCreate fn h
  | MBeforeUpdate => beforeUpdate fn h
  | MAfterUpdate => afterUpdate fn h
  | MBeforeRemove => beforeRemove fn h
  | MAfterRemove => afterRemove fn h
  end.

(** Whether the method registers for the set that the firing [c] iterates. *)
Definition fires_for (m : Method) (c : HookCall) : bool :=
  match m, c with
  | MOnQuery options, CallOnQuery _ internal =>
      if internal then wants_internal options else true
  | MBeforeCreate, CallBeforeCreate _ _
  | MAfterCreate, CallAfterCreate _ _
  | MBeforeUpdate, CallBeforeUpdate _ _ _
  | MAfterUpdate, CallAfterUpdate _ _
  | MBeforeRemove, CallBeforeRemove _ _
  | MAfterRemove, CallAfterRemove _ _ => true
  | _, _ => false
  end.

(** The callback is in every set the method registers it in. *)
Definition still_registered (m : Method) (f : FnId) (h : Hooks) : Prop :=
  ∀ c, fires_for m c = true → f ∈ set_values (fns_of c h).

Arguments mkWorld {Store}.
Arguments hooks {Store}.
Arguments store {Store}.
Arguments mkCall {Store}.
Arguments cr_fn {Store}.
Arguments cr_args {Store}.
Arguments cr_before {Store}.
Arguments cr_outcome {Store}.
Arguments cr_after {Store}.
Arguments mkFiring {Store}.
Arguments f_world {Store}.
Arguments f_result {Store}.
Arguments f_calls {Store}.
Arguments for_of {Store}.
Arguments call_and_check {Store}.
Arguments hook_body {Store}.
Arguments settle {Store}.
Arguments _callHook {Store}.
Arguments well_behaved {Store}.
Arguments chained {Store}.

End HookRegistry.

(** ** JavaScript strings *)

Module JSString.

Definition chars (s : string) : list ascii := String.list_ascii_of_string s.
Definition of_chars (l : list ascii) : string := String.string_of_list_ascii l.

(** [s.length] *)
Definition js_length (s : string) : Z := Z.of_nat (length (chars s)).

(** A relative index: negative counts from the end, and the result is
    clamped to the string. *)
Definition relative_index (len i : Z) : Z :=
  if i <? 0 then Z.max (len + i) 0 else Z.min i len.

(** [s.slice(start, stop)]; [s.slice(start)] when [stop] is [None]. *)
Definition js_slice (s : string) (start : Z) (stop : option Z) : string :=
  let len := js_length s in
  let from := relative_index len start in
  let to := match stop with
            | None => len
            | Some e => relative_index len e
            end in
  of_chars (take (Z.to_nat (to - from)) (drop (Z.to_nat from) (chars s))).

(** [s.substr(start, length)] *)
Definition js_substr (s : string) (start length : Z) : string :=
  let len := js_length s in
  let from := relative_index len start in
  let size := Z.min (Z.max length 0) (len - from) in
  of_chars (take (Z.to_nat size) (drop (Z.to_nat from) (chars s))).

(** Position of the first [c] in [l]. *)
Fixpoint find_char (c : ascii) (l : list ascii) : option nat :=
  match l with
  | [] => None
  | x :: rest => if Ascii.eqb x c then Some O else S <$> find_char c rest
  end.

(** [s.indexOf(c, from)] for a one-character search string. *)
Definition js_indexOf (s : string) (c : ascii) (from : Z) : Z :=
  let start := Z.min (Z.max from 0) (js_length s) in
  match find_char c (drop (Z.to_nat start) (chars s)) with
  | Some k => start + Z.of_nat k
  | None => -1
  end.

(** [s.includes(c)] *)
Definition js_includes (s : string) (c : ascii) : bool :=
  negb (js_indexOf s c 0 =? -1).

(** [s.split(c)]: the first piece and the pieces after it (there is always
    a first piece). *)
Fixpoint split_chars (c : ascii) (l : list ascii)
  : list ascii * list (list ascii) :=
  match l with
  | [] => ([], [])
  | x :: rest =>
      let (piece, pieces) := split_chars c rest in
      if Ascii.eqb x c then ([], piece :: pieces) else (x :: piece, pieces)
  end.

Definition js_split (s : string) (c : ascii) : string * list string :=
  let (piece, pieces) := split_chars c (chars s) in
  (of_chars piece, of_chars <$> pieces).

(** [Number.MAX_SAFE_INTEGER] and [Number.isSafeInteger]: the numbers of
    JavaScript are doubles, and the integers up to 2^53 - 1 in size are
    those that are doubles one and all. *)
Definition MAX_SAFE_INTEGER : Z := 2 ^ 53 - 1.

Definition isSafeInteger (n : Z) : bool := Z.abs n <=? MAX_SAFE_INTEGER.

(** [String(n)] for a safe integer [n], which prints as its digits.  (The
    larger integers that are numbers print in other ways: rounded to the
    digits that tell them apart, and as powers of ten from 10^21 on.) *)
Definition js_number_toString (n : Z) : string :=
  NilZero.string_of_int (Z.to_int n).

End JSString.

(** ** The Trilogy class (sql.js backend) *)

Module Embedded.

Import JSString.

(** *** lodash and Array predicates *)

Definition isPlainObject (v : Value) : bool :=
  match v with VObject _ => true | _ => false end.
Definition isArray (v : Value) : bool :=
  match v with VArray _ => true | _ => false end.
Definition isFunction (v : Value) : bool :=
  match v with VFunction _ => true | _ => false end.

(** [where.length] of an array *)
Definition array_length (v : Value) : nat :=
  match v with VArray items => length items | _ => 0%nat end.

(** *** Static helpers *)

Definition _isValidWhere (criteria : Value) : bool :=
  if isPlainObject criteria then true
  else if isArray criteria then
    let len := array_length criteria in
    (len =? 2)%nat || (len =? 3)%nat
  else isFunction criteria.

(** [_parseTablePath (table, column, row)]; [None] stands for a recursion
    that has not come to an end within [fuel] calls. *)
Fixpoint _parseTablePath_rec (fuel : nat) (table : string)
    (column row : option string)
  : option (string * option string * option string) :=
  match fuel with
  | O => None
  | S fuel' =>
      if js_includes table "." then
        let (top, rest) := js_split table "." in
        _parseTablePath_rec fuel' top (rest !! 0%nat) (rest !! 1%nat)
      else if js_includes table "[" then
        let opener := js_indexOf table "[" 0 in
        let closer := js_indexOf table "]" opener in
        let _top := js_substr table 0 opener in
        let _inner := js_slice table (opener + 1) (Some closer) in
        let rowIndex := js_length _top + js_length _inner + 2 in
        let _nested :=
          if rowIndex <? js_length table then
            let extra := js_slice table (rowIndex + 1) None in
            let rowCloser := js_indexOf extra "]" 0 in
            Some (js_substr extra 0 rowCloser)
          else None in
        _parseTablePath_rec fuel' _top (Some _inner) _nested
      else Some (table, column, row)
  end.

(** Three calls are all a path ever takes (see [_parseTablePath_total]). *)
Definition _parseTablePath (table : string) (column row : option string)
  : option (string * option string * option string) :=
  _parseTablePath_rec 3 table column row.

(** *** knex query chains *)

(** A [where] clause as it was handed to knex. *)
Inductive WhereClause :=
| WhereSpread (args : list Value)   (* partial.where(...where) *)
| WhereBound (fn : Value)           (* partial.where(where.bind(partial)) *)
| WhereObject (criteria : Value).   (* partial.where(where) *)

Inductive Statement :=
| Update (column : string) (raw : string)  (* update({[column]: knex.raw(raw)}) *)
| Count (column : string)                  (* count(column) *)
| CountDistinct (column : string).         (* countDistinct(column) *)

Record QueryBuilder := mkQuery {
  qb_table : string;
  qb_statement : option Statement;
  qb_where : list WhereClause
}.

(** [knex.table(name)] *)
Definition knex_table (name : string) : QueryBuilder := mkQuery name None [].

Definition qb_update (column raw : string) (q : QueryBuilder) : QueryBuilder :=
  mkQuery (qb_table q) (Some (Update column raw)) (qb_where q).
Definition qb_count (column : string) (q : QueryBuilder) : QueryBuilder :=
  mkQuery (qb_table q) (Some (Count column)) (qb_where q).
Definition qb_countDistinct (column : string) (q : QueryBuilder) : QueryBuilder :=
  mkQuery (qb_table q) (Some (CountDistinct column)) (qb_where q).
Definition qb_add_where (w : WhereClause) (q : QueryBuilder) : QueryBuilder :=
  mkQuery (qb_table q) (qb_statement q) (qb_where q ++ [w]).

Definition _sanitizeWhere (criteria : Value) (partial : QueryBuilder)
  : QueryBuilder :=
  match criteria with
  | VArray items => qb_add_where (WhereSpread items) partial
  | _ =>
      if isFunction criteria then qb_add_where (WhereBound criteria) partial
      else qb_add_where (WhereObject criteria) partial
  end.

(** *** The expression a decrement assigns

    [decrement] hands knex a raw SQL expression as a string, which knex
    splices into the statement as it is and SQLite then reads.  What follows
    is SQLite's side of it, for the part of its language those expressions
    are written in: how it cuts a text into tokens, the expression it reads
    from the tokens, and the value of that expression on a row. *)

(** **** Tokens *)

Inductive Token :=
| TInt (n : Z)
| TId (name : string)
| TMinus
| TLParen
| TRParen
| TComma.

Definition is_digit (c : ascii) : bool :=
  let n := nat_of_ascii c in ((48 <=? n) && (n <=? 57))%nat.

(** The characters a name starts with. *)
Definition is_letter (c : ascii) : bool :=
  let n := nat_of_ascii c in
  ((65 <=? n) && (n <=? 90) || (97 <=? n) && (n <=? 122) || (n =? 95))%nat.

Definition is_space (c : ascii) : bool :=
  let n := nat_of_ascii c in
  ((n =? 32) || (n =? 9) || (n =? 10) || (n =? 12) || (n =? 13))%nat.

(** Keywords are recognised whatever the case of their letters. *)
Definition ascii_lower (c : ascii) : ascii :=
  let n := nat_of_ascii c in
  if ((65 <=? n) && (n <=? 90))%nat then ascii_of_nat (n + 32) else c.

(** The words that are not taken for names here: SQLite's keywords (a
    number of which it would still read as names where no keyword can
    stand), and [true] and [false], which it may read as literals. *)
Definition sql_keywords : list string :=
  ["abort"; "action"; "add"; "after"; "all"; "alter"; "always"; "analyze";
   "and"; "as"; "asc"; "attach"; "autoincrement"; "before"; "begin";
   "between"; "by"; "cascade"; "case"; "cast"; "check"; "collate"; "column";
   "commit"; "conflict"; "constraint"; "create"; "cross"; "current";
   "current_date"; "current_time"; "current_timestamp"; "database";
   "default"; "deferrable"; "deferred"; "delete"; "desc"; "detach";
   "distinct"; "do"; "drop"; "each"; "else"; "end"; "escape"; "except";
   "exclude"; "exclusive"; "exists"; "explain"; "fail"; "filter"; "first";
   "following"; "for"; "foreign"; "from"; "full"; "generated"; "glob";
   "group"; "groups"; "having"; "if"; "ignore"; "immediate"; "in"; "index";
   "indexed"; "initially"; "inner"; "insert"; "instead"; "intersect"; "into";
   "is"; "isnull"; "join"; "key"; "last"; "left"; "like"; "limit"; "match";
   "materialized"; "natural"; "no"; "not"; "nothing"; "notnull"; "null";
   "nulls"; "of"; "offset"; "on"; "or"; "order"; "others"; "outer"; "over";
   "partition"; "plan"; "pragma"; "preceding"; "primary"; "query"; "raise";
   "range"; "recursive"; "references"; "regexp"; "reindex"; "release";
   "rename"; "replace"; "restrict"; "returning"; "right"; "rollback"; "row";
   "rows"; "savepoint"; "select"; "set"; "table"; "temp"; "temporary";
   "then"; "ties"; "to"; "transaction"; "trigger"; "unbounded"; "union";
   "unique"; "update"; "using"; "vacuum"; "values"; "view"; "virtual";
   "when"; "where"; "window"; "with"; "within"; "without";
   "true"; "false"].

Definition is_keyword (word : list ascii) : bool :=
  bool_decide (of_chars (ascii_lower <$> word) ∈ sql_keywords).

(** A name written without quotes: letters, digits and underscores, the
    first of them not a digit, and not a keyword. *)
Definition sql_identifier (name : string) : bool :=
  match chars name with
  | [] => false
  | c :: rest =>
      is_letter c && forallb (λ x, is_letter x || is_digit x) rest
      && negb (is_keyword (c :: rest))
  end.

(** The largest and the smallest of SQLite's integers. *)
Definition int64 (n : Z) : bool := (- 2 ^ 63 <=? n) && (n <=? 2 ^ 63 - 1).

(** The token being read. *)
Inductive Pending :=
| NoToken
| Word (read : list ascii)
| Digits (read : list ascii).

(** The token a run of characters makes once it is over.  A run of digits
    is an integer as long as it fits 64 bits; beyond that SQLite reads a
    REAL, which is outside the part described. *)
Definition emit (p : Pending) : option (list Token) :=
  match p with
  | NoToken => Some []
  | Word read => if is_keyword read then None else Some [TId (of_chars read)]
  | Digits read =>
      match NilZero.uint_of_string (of_chars read) with
      | Some d => if int64 (Z.of_uint d) then Some [TInt (Z.of_uint d)] else None
      | None => None
      end
  end.

Definition join (before : option (list Token)) (here : list Token)
    (after : option (list Token)) : option (list Token) :=
  match before, after with
  | Some a, Some b => Some (a ++ here ++ b)
  | _, _ => None
  end.

(** SQLite's tokenizer on names, integers, minus signs, parentheses,
    commas and white space.  [None] is a text with anything else in it
    (quotes, dots, other operators, a comment, a number such as [1e5] or
    [0x1F], a character outside ASCII), or with a keyword. *)
Fixpoint tokenize (p : Pending) (l : list ascii) : option (list Token) :=
  match l with
  | [] => emit p
  | c :: rest =>
      if is_digit c then
        match p with
        | NoToken => tokenize (Digits [c]) rest
        | Word read => tokenize (Word (read ++ [c])) rest
        | Digits read => tokenize (Digits (read ++ [c])) rest
        end
      else if is_letter c then
        match p with
        | NoToken => tokenize (Word [c]) rest
        | Word read => tokenize (Word (read ++ [c])) rest
        | Digits _ => None
        end
      else if is_space c then join (emit p) [] (tokenize NoToken rest)
      else if Ascii.eqb c "(" then join (emit p) [TLParen] (tokenize NoToken rest)
      else if Ascii.eqb c ")" then join (emit p) [TRParen] (tokenize NoToken rest)
      else if Ascii.eqb c "," then join (emit p) [TComma] (tokenize NoToken rest)
      else if Ascii.eqb c "-" then
        match rest with
        | "-"%char :: _ => None          (* a comment *)
        | _ => join (emit p) [TMinus] (tokenize NoToken rest)
        end
      else None
  end.

Definition sql_tokens (text : string) : option (list Token) :=
  tokenize NoToken (chars text).

(** The text is at an end, or goes on with a character that ends a name
    and a number. *)
Definition flushes (rest : list ascii) : Prop :=
  match rest with
  | [] => True
  | c :: _ => is_digit c = false ∧ is_letter c = false
  end.

(** The tokens of an amount: a minus sign comes apart from the digits. *)
Definition amount_tokens (amount : Z) : list Token :=
  match amount with
  | Z.neg p => [TMinus; TInt (Z.pos p)]
  | _ => [TInt amount]
  end.

(** **** Expressions *)

Inductive SqlExpr :=
| SqlInt (n : Z)              (* an integer literal, with its sign *)
| SqlColumn (name : string)
| SqlSub (a b : SqlExpr)
| SqlMax (a b : SqlExpr).     (* the scalar function of two arguments *)

(** The name of a function is read whatever the case of its letters. *)
Definition is_max (name : string) : bool :=
  String.eqb (of_chars (ascii_lower <$> chars name)) "max".

(** SQLite's grammar on those tokens: subtraction associates to the left,
    a minus sign before an integer is its sign, a name followed by a
    parenthesis is a function call, of which only the [max] of two
    arguments is described.  Each function returns what it read and the
    tokens that are left. *)
Fixpoint parse_term (fuel : nat) (ts : list Token) {struct fuel}
  : option (SqlExpr * list Token) :=
  match fuel with
  | O => None
  | S fuel' =>
      match ts with
      | TInt n :: rest => Some (SqlInt n, rest)
      | TMinus :: TInt n :: rest => Some (SqlInt (- n), rest)
      | TId f :: TLParen :: rest =>
          if is_max f then
            match parse_sum fuel' rest with
            | Some (a, TComma :: rest1) =>
                match parse_sum fuel' rest1 with
                | Some (b, TRParen :: rest2) => Some (SqlMax a b, rest2)
                | _ => None
                end
            | _ => None
            end
          else None
      | TId name :: rest => Some (SqlColumn name, rest)
      | TLParen :: rest =>
          match parse_sum fuel' rest with
          | Some (e, TRParen :: rest1) => Some (e, rest1)
          | _ => None
          end
      | _ => None
      end
  end
with parse_sum (fuel : nat) (ts : list Token) {struct fuel}
  : option (SqlExpr * list Token) :=
  match fuel with
  | O => None
  | S fuel' =>
      match parse_term fuel' ts with
      | Some (a, rest) => parse_more fuel' a rest
      | None => None
      end
  end
with parse_more (fuel : nat) (a : SqlExpr) (ts : list Token) {struct fuel}
  : option (SqlExpr * list Token) :=
  match fuel with
  | O => None
  | S fuel' =>
      match ts with
      | TMinus :: rest =>
          match parse_term fuel' rest with
          | Some (b, rest') => parse_more fuel' (SqlSub a b) rest'
          | None => None
          end
      | _ => Some (a, ts)
      end
  end.

(** The expression a text is read as; every call of the parser uses up
    fuel, and three units for each token are more than it takes. *)
Definition sql_parse (text : string) : option SqlExpr :=
  match sql_tokens text with
  | Some ts =>
      match parse_sum (3 * length ts + 3) ts with
      | Some (e, []) => Some e
      | _ => None
      end
  | None => None
  end.

(** **** Values

    The values of the storage classes NULL, INTEGER and REAL.  An INTEGER
    has 64 bits and a REAL is a double that is not a NaN, which SQLite turns
    into NULL. *)
Inductive SqlValue :=
| SqlNull
| SqlInteger (n : Z)
| SqlReal (f : SpecFloat.spec_float).

(** The double an integer is converted to. *)
Definition to_real (n : Z) : SpecFloat.spec_float :=
  SpecFloat.binary_normalize 53 1024 n 0 false.

Definition sql_real (f : SpecFloat.spec_float) : SqlValue :=
  match f with
  | SpecFloat.S754_nan => SqlNull
  | _ => SqlReal f
  end.

(** [a - b]: NULL when an operand is NULL; the difference of two integers
    when it fits 64 bits; otherwise the difference of the operands as
    doubles. *)
Definition sql_sub (a b : SqlValue) : SqlValue :=
  match a, b with
  | SqlNull, _ | _, SqlNull => SqlNull
  | SqlInteger x, SqlInteger y =>
      if int64 (x - y) then SqlInteger (x - y)
      else sql_real (SpecFloat.SFsub 53 1024 (to_real x) (to_real y))
  | SqlInteger x, SqlReal g => sql_real (SpecFloat.SFsub 53 1024 (to_real x) g)
  | SqlReal f, SqlInteger y => sql_real (SpecFloat.SFsub 53 1024 f (to_real y))
  | SqlReal f, SqlReal g => sql_real (SpecFloat.SFsub 53 1024 f g)
  end.

(** A double against an integer, compared as the numbers they are. *)
Definition real_compare_int (f : SpecFloat.spec_float) (n : Z) : comparison :=
  match f with
  | SpecFloat.S754_zero _ => 0 ?= n
  | SpecFloat.S754_infinity negative => if negative then Lt else Gt
  | SpecFloat.S754_nan => Eq
  | SpecFloat.S754_finite negative m e =>
      let v := if negative then Z.neg m else Z.pos m in
      if 0 <=? e then v * 2 ^ e ?= n else v ?= n * 2 ^ (- e)
  end.

(** The order of two values that are not NULL. *)
Definition sql_compare (a b : SqlValue) : comparison :=
  match a, b with
  | SqlInteger x, SqlInteger y => x ?= y
  | SqlInteger x, SqlReal g => CompOpp (real_compare_int g x)
  | SqlReal f, SqlInteger y => real_compare_int f y
  | SqlReal f, SqlReal g => default Eq (SpecFloat.SFcompare f g)
  | _, _ => Eq
  end.

(** [MAX(a, b)]: NULL when an argument is NULL, otherwise the second
    argument when the first is below it, and the first when it is not. *)
Definition sql_max (a b : SqlValue) : SqlValue :=
  match a, b with
  | SqlNull, _ | _, SqlNull => SqlNull
  | _, _ => if bool_decide (sql_compare a b = Lt) then b else a
  end.

(** The value of an expression on a row, which gives each column its
    value. *)
Fixpoint sql_eval (row : string → SqlValue) (e : SqlExpr) : SqlValue :=
  match e with
  | SqlInt n => SqlInteger n
  | SqlColumn name => row name
  | SqlSub a b => sql_sub (sql_eval row a) (sql_eval row b)
  | SqlMax a b => sql_max (sql_eval row a) (sql_eval row b)
  end.

(** The value of a text on a row. *)
Definition sql_value (row : string → SqlValue) (text : string)
  : option SqlValue :=
  sql_eval row <$> sql_parse text.

(** A value below zero. *)
Definition sql_negative (v : SqlValue) : bool :=
  match v with
  | SqlNull => false
  | _ => bool_decide (sql_compare v (SqlInteger 0) = Lt)
  end.

(** The expression behind [rawStr]. *)
Definition decrement_expr (allowNegative : bool) (col : string) (amount : Z)
  : SqlExpr :=
  if allowNegative then SqlSub (SqlColumn col) (SqlInt amount)
  else SqlMax (SqlInt 0) (SqlSub (SqlColumn col) (SqlInt amount)).

(** *** The collaborators: sql.js, fs-jetpack, knex *)

Definition bytes := list Byte.byte.

(** sql.js.  A statement may throw after it has changed the database, so
    the calls return the database they leave with what they threw. *)
Class Engine (DB : Type) := {
  (* new SQL.Database(data) *)
  sql_open : option bytes → DB;
  (* db.run(sql) *)
  sql_run : DB → string → DB * option Value;
  (* db.exec(sql) *)
  sql_exec : DB → string → DB * (Value + Value);
  (* db.export() *)
  sql_export : DB → Value + bytes;
  (* db.prepare(sql).getAsObject({}) *)
  sql_getAsObject : DB → string → DB * (Value + Value)
}.

(** fs-jetpack. *)
Class FileSystem (FS : Type) := {
  (* jetpack.exists(path) *)
  jetpack_exists : FS → string → bool;
  (* jetpack.read(path, 'buffer'): undefined when there is no file *)
  jetpack_read : FS → string → option bytes;
  (* jetpack.file(path, { content, mode }) *)
  jetpack_file : FS → string → bytes → FS * option Value
}.

(** knex renders a query chain. *)
Class Knex := { knex_toString : QueryBuilder → string }.

(** What [run] and [exec] accept: a string, or an object with [toString]. *)
Inductive Query :=
| QueryText (sql : string)
| QueryChain (q : QueryBuilder).

(** [constants] *)
Definition constants_ERR_UNKNOWN : string :=
  "an unknown error occurred. Check the stacktrace or report an
     issue if there is a problem with trilogy itself.".
Definition constants_ERR_COL_MISSING : string :=
  "column name is required. Pass it as an independent argument
     or as dot-notation along with the table argument.".
Definition constants_ERR_NO_DATABASE : string :=
  "Could not write - no database initialized.".

(** How a promise settles. *)
Inductive Settled (A : Type) :=
| Resolved (a : A)
| Rejected (e : Value).
Arguments Resolved {A}.
Arguments Rejected {A}.

(** What the functions the user passed in were handed: [verbose] every
    query, [errorListener] every error.  Both are observers whose return
    value is not used. *)
Inductive Observed :=
| Verbose (query : string)
| ErrorListener (e : Value).

Section Instance.

Context {DB FS : Type} `{Engine DB} `{FileSystem FS} `{Knex}.

(** A [Trilogy] instance with the disk it works on.  Its [knex] and [sb]
    fields are the [Knex] collaborator; [verbose] is always a function (the
    constructor puts an empty one in its place otherwise) and is represented
    by what it was handed, in [observed]. *)
Record Trilogy := mkTrilogy {
  fileName : string;
  db : option DB;
  errorListener : bool;      (* whether opts.errorListener is a function *)
  disk : FS;
  observed : list Observed
}.

Definition set_db (d : option DB) (t : Trilogy) : Trilogy :=
  mkTrilogy (fileName t) d (errorListener t) (disk t) (observed t).
Definition set_disk (fs : FS) (t : Trilogy) : Trilogy :=
  mkTrilogy (fileName t) (db t) (errorListener t) fs (observed t).
Definition observe (o : Observed) (t : Trilogy) : Trilogy :=
  mkTrilogy (fileName t) (db t) (errorListener t) (disk t) (observed t ++ [o]).

(** [_errorHandler (err, msg)]; [msg = None] is the call with one
    argument.  It throws ([inl]) when [err] is neither an [Error] nor a
    string, and otherwise returns a promise rejected with the error
    ([inr]). *)
Definition _errorHandler (err : Value) (msg : option string) (t : Trilogy)
  : Trilogy * (Value + Value) :=
  let e :=
    match err with
    | VError _ _ => Some err
    | VString path =>
        Some (match msg with
              | None => VError "Error" ("Trilogy :: " +:+ path)
              | Some m => VError "Error" ("Trilogy" +:+ path +:+ " :: " +:+ m)
              end)
    | _ => None
    end in
  match e with
  | Some (VError _ message) =>
      let e' := VError "TrilogyError" message in
      (if errorListener t then observe (ErrorListener e') t else t, inr e')
  | _ => (t, inl (VError "TypeError"
                    "Cannot set property 'name' of undefined"))
  end.

(** The promise an async function returns for [return this._errorHandler
    (...)]: rejected either way. *)
Definition rejected_by {A} (r : Trilogy * (Value + Value))
  : Trilogy * Settled A :=
  match r with
  | (t, inl e) | (t, inr e) => (t, Rejected e)
  end.

(** [_write ()]; what it returns is what it threw, if anything. *)
Definition _write (t : Trilogy) : Trilogy * option Value :=
  let t1 := match db t with
            | Some _ => t
            | None => (_errorHandler (VString constants_ERR_NO_DATABASE) None t).1
            end in
  let caught (e : Value) (t' : Trilogy) : Trilogy * option Value :=
    match _errorHandler e None t' with
    | (t'', inl thrown) => (t'', Some thrown)
    | (t'', inr _) => (t'', None)
    end in
  match db t1 with
  | None => caught (VError "TypeError" "Cannot read property 'export' of null") t1
  | Some d =>
      match sql_export d with
      | inl e => caught e t1
      | inr data =>
          match jetpack_file (disk t1) (fileName t1) data with
          | (fs, Some e) => caught e (set_disk fs t1)
          | (fs, None) => (set_disk fs t1, None)
          end
      end
  end.

(** [if (!_.isString(query)) query = query.toString()] *)
Definition query_text (query : Query) : string :=
  match query with
  | QueryText sql => sql
  | QueryChain q => knex_toString q
  end.

Definition run (query : Query) (t : Trilogy) : Trilogy * Settled unit :=
  match db t with
  | None => rejected_by (_errorHandler (VString constants_ERR_NO_DATABASE) None t)
  | Some d =>
      let query := query_text query in
      let t := observe (Verbose query) t in
      match sql_run d query with
      | (d', Some e) => (set_db (Some d') t, Rejected e)
      | (d', None) =>
          match _write (set_db (Some d') t) with
          | (t', Some e) => (t', Rejected e)
          | (t', None) => (t', Resolved tt)
          end
      end
  end.

Definition exec (query : Query) (t : Trilogy) : Trilogy * Settled Value :=
  match db t with
  | None => rejected_by (_errorHandler (VString constants_ERR_NO_DATABASE) None t)
  | Some d =>
      let query := query_text query in
      let t := observe (Verbose query) t in
      match sql_exec d query with
      | (d', inl e) => (set_db (Some d') t, Rejected e)
      | (d', inr val) => (set_db (Some d') t, Resolved val)
      end
  end.

(** [_init ()] *)
Definition _init (t : Trilogy) : Trilogy * option Value :=
  if jetpack_exists (disk t) (fileName t) then
    let file := jetpack_read (disk t) (fileName t) in
    (set_db (Some (sql_open file)) t, None)
  else
    _write (set_db (Some (sql_open None)) t).

(** [new Trilogy (fileName, opts)] on a disk: throws or returns the
    instance. *)
Definition new_Trilogy (name : string) (listener : bool) (fs : FS)
  : Value + Trilogy :=
  if negb (truthy (VString name))
  then inl (VError "Error" "Trilogy constructor must be provided a file path.")
  else
    match _init (mkTrilogy name None listener fs []) with
    | (_, Some e) => inl e
    | (t, None) => inr t
    end.

(** Modelled from the spec: the validation arify (a dependency that is
    not among the sources) runs on the [where] argument before the handler
    is entered.  Left out, the argument takes its default
    [['1', '=', '1']]; given, it has to pass the parameter's [test], which
    is [_isValidWhere], and a value that fails it is a validation failure
    ([InvalidCriteriaKind]) reported to the caller. *)
Definition arify_where (criteria : option Value) : Value + Value :=
  match criteria with
  | None => inr (VArray [VString "1"; VString "="; VString "1"])
  | Some v =>
      if _isValidWhere v then inr v
      else inl (VError "InvalidCriteriaKind"
                  "where must be an object, array, or function")
  end.

(** The arguments of [decrement] as arify names them; [None] is an
    argument left out. *)
Record DecrementArgs := mkDecrement {
  dec_table : string;
  dec_column : option string;
  dec_amount : option Z;
  dec_where : option Value;
  dec_allowNegative : option bool
}.

(** [args.allowNegative ? col + ' - ' + args.amount
                        : 'MAX(0, ' + col + ' - ' + args.amount + ')'] *)
Definition decrement_rawStr (allowNegative : bool) (col : string) (amount : Z)
  : string :=
  if allowNegative then col +:+ " - " +:+ js_number_toString amount
  else "MAX(0, " +:+ col +:+ " - " +:+ js_number_toString amount +:+ ")".

(** How far [decrement] gets before it has a statement to run. *)
Inductive DecrementPlan :=
| Refused (e : Value)             (* arify rejected the arguments *)
| Unfinished                      (* the path parser did not return *)
| MissingColumn                   (* [if (!col)] *)
| Planned (query : QueryBuilder). (* the query handed to [run] *)

Definition decrement_plan (args : DecrementArgs) : DecrementPlan :=
  match arify_where (dec_where args) with
  | inl e => Refused e
  | inr criteria =>
      let amount := default 1 (dec_amount args) in
      let allowNegative := default false (dec_allowNegative args) in
      match _parseTablePath (dec_table args) (dec_column args) None with
      | None => Unfinished
      | Some (tbl, col, _) =>
          if negb (truthy (from_option VString VUndefined col))
          then MissingColumn
          else
            let col := default "" col in
            let partial := knex_table tbl in
            let rawStr := decrement_rawStr allowNegative col amount in
            let updated := qb_update col rawStr partial in
            Planned (_sanitizeWhere criteria updated)
      end
  end.

Definition decrement (args : DecrementArgs) (t : Trilogy)
  : Trilogy * Settled unit :=
  match decrement_plan args with
  | Refused e => (t, Rejected e)
  | Unfinished =>
      (t, Rejected (VError "RangeError" "Maximum call stack size exceeded"))
  | MissingColumn =>
      rejected_by (_errorHandler (VString constants_ERR_COL_MISSING) None t)
  | Planned query =>
      match run (QueryChain query) t with
      | (t', Resolved _) => (t', Resolved tt)
      | (t', Rejected e) => rejected_by (_errorHandler e None t')
      end
  end.

Record CountArgs := mkCount {
  cnt_table : option string;
  cnt_column : option string;
  cnt_where : option Value;
  cnt_options : option (list (string * Value))
}.

(** ['count' in res] and [res.count] *)
Definition has_property (k : string) (v : Value) : bool :=
  match v with
  | VObject props | VInstance _ props => bool_decide (is_Some (get_prop k props))
  | _ => false
  end.
Definition property (k : string) (v : Value) : Value :=
  match v with
  | VObject props | VInstance _ props => default VUndefined (get_prop k props)
  | _ => VUndefined
  end.

(** What [count] resolves to for the row object [res] of its statement. *)
Definition count_result (res : Value) : Value :=
  if isPlainObject res && has_property "count" res
  then property "count" res
  else VNumber 0.

(** The statement [count] prepares. *)
Definition count_query (args : CountArgs) (criteria : Value) : string :=
  let table := default "sqlite_master" (cnt_table args) in
  let column := default "*" (cnt_column args) in
  let options := default [("distinct", VBool false)] (cnt_options args) in
  let partial :=
    if truthy (default VUndefined (get_prop "distinct" options))
    then qb_countDistinct (column +:+ " as count") (knex_table table)
    else qb_count (column +:+ " as count") (knex_table table) in
  knex_toString (_sanitizeWhere criteria partial).

(** [count] is not an async function: it throws ([inl]) what arify or
    [_errorHandler] throw, and otherwise returns a promise. *)
Definition count (args : CountArgs) (t : Trilogy)
  : Trilogy * (Value + Settled Value) :=
  match arify_where (cnt_where args) with
  | inl e => (t, inl e)
  | inr criteria =>
      let query := count_query args criteria in
      let attempt : Trilogy * (Value + Value) :=
        match db t with
        | None => (t, inl (VError "TypeError"
                             "Cannot read property 'prepare' of null"))
        | Some d =>
            let (d', res) := sql_getAsObject d query in
            (set_db (Some d') t, res)
        end in
      match attempt with
      | (t', inr res) => (t', inr (Resolved (count_result res)))
      | (t', inl e) =>
          match _errorHandler e None t' with
          | (t'', inl thrown) => (t'', inl thrown)
          | (t'', inr e') => (t'', inr (Rejected e'))
          end
      end
  end.

End Instance.

Arguments Trilogy : clear implicits.
Arguments mkTrilogy {DB FS}.

(** An error is tagged with a text when its message or its name contains
    it. *)
Definition contains (text s : string) : bool :=
  bool_decide (is_Some (String.index 0 text s)).
Definition tagged_with (text : string) (e : Value) : bool :=
  match e with
  | VError name message => contains text message || contains text name
  | _ => false
  end.

(** The rejection of a failed statement carries the statement text. *)
Definition rejection_tagged_with_statement : Prop :=
  ∀ (DB FS : Type) (engine : Engine DB) (fs : FileSystem FS) (knex : Knex)
    (query : Query) (t : Trilogy DB FS) (d d' : DB) (e : Value),
    db t = Some d →
    sql_run d (query_text query) = (d', Some e) →
    ∃ t' e', run query t = (t', Rejected e') ∧
             tagged_with (query_text query) e' = true.

(** What a disk owes its users: a file that was written is there, with the
    bytes that were written. *)
Class FileSystemLaws (FS : Type) `{FileSystem FS} : Prop := {
  written_exists : ∀ fs path data fs',
    jetpack_file fs path data = (fs', None) → jetpack_exists fs' path = true;
  written_read : ∀ fs path data fs',
    jetpack_file fs path data = (fs', None) → jetpack_read fs' path = Some data
}.

End Embedded.

(** ** A small engine, disks and a renderer

    Stand-ins for sql.js, fs-jetpack and knex to run the class on. *)
Module Bench.

Import Embedded.

(** The database is the list of the statements it took; its image is their
    text.  A statement that does not start with a known verb is a syntax
    error. *)
Definition Db := list string.

Definition image (d : Db) : bytes :=
  String.list_byte_of_string (String.concat ";" d).

Definition known (sql : string) : bool :=
  String.prefix "create " sql || String.prefix "insert " sql ||
  String.prefix "update " sql || String.prefix "delete " sql.

#[export] Instance bench_engine : Engine Db := {
  sql_open data :=
    match data with
    | None | Some [] => []
    | Some b => [String.string_of_list_byte b]
    end;
  sql_run d sql :=
    if known sql then (d ++ [sql], None)
    else (d, Some (VError "Error" "near line 1: syntax error"));
  sql_exec d sql :=
    if known sql || String.prefix "select " sql then (d, inr (VArray []))
    else (d, inl (VError "Error" "near line 1: syntax error"));
  sql_export d := inr (image d);
  sql_getAsObject d sql :=
    if String.prefix "select " sql
    then (d, inr (VObject [("count", VNumber (Z.of_nat (length d)))]))
    else (d, inl (VError "Error" "near line 1: syntax error"))
}.

(** A disk that takes every write. *)
#[export] Instance bench_disk : FileSystem (gmap string bytes) := {
  jetpack_exists fs path := bool_decide (is_Some (fs !! path));
  jetpack_read fs path := fs !! path;
  jetpack_file fs path data := (<[path := data]> fs, None)
}.

(** A disk that refuses every write. *)
Record ReadOnly := mkReadOnly { ro_files : gmap string bytes }.

#[export] Instance bench_read_only : FileSystem ReadOnly := {
  jetpack_exists fs path := bool_decide (is_Some (ro_files fs !! path));
  jetpack_read fs path := ro_files fs !! path;
  jetpack_file fs path data :=
    (fs, Some (VError "Error" "EROFS: read-only file system"))
}.

Definition render_where (w : list WhereClause) : string :=
  match w with
  | [] => ""
  | _ => " where ?"
  end.

#[export] Instance bench_knex : Knex := {
  knex_toString q :=
    match qb_statement q with
    | Some (Update column raw) =>
        "update " +:+ qb_table q +:+ " set " +:+ column +:+ " = " +:+ raw
        +:+ render_where (qb_where q)
    | Some (Count column) =>
        "select count(" +:+ column +:+ ") from " +:+ qb_table q
        +:+ render_where (qb_where q)
    | Some (CountDistinct column) =>
        "select count(distinct " +:+ column +:+ ") from " +:+ qb_table q
        +:+ render_where (qb_where q)
    | None => "select * from " +:+ qb_table q +:+ render_where (qb_where q)
    end
}.

(** An open database at [storage.db] with one statement in it. *)
Definition opened : Trilogy Db (gmap string bytes) :=
  mkTrilogy "storage.db" (Some ["create table people"]) true
    {["storage.db" := image ["create table people"]]} [].

Definition opened_read_only : Trilogy Db ReadOnly :=
  mkTrilogy "storage.db" (Some ["create table people"]) true
    (mkReadOnly {["storage.db" := image ["create table people"]]}) [].

End Bench.

(** ** A registry in use

    Callbacks and a store to run the registry on. *)
Module Demo.

Import HookRegistry.

(** The store is the journal the callbacks write: who was called. *)
Definition Journal := list FnId.

Definition audit : FnId := 1%nat.   (* notes the call, returns undefined *)
Definition veto : FnId := 2%nat.    (* notes the call, returns the sentinel *)
Definition faulty : FnId := 3%nat.  (* notes the call, throws *)
Definition meddler : FnId := 4%nat. (* unregisters [audit] from before-remove *)

Definition behaviour (fn : FnId) (args : list Value) (w : World Journal)
  : Outcome * World Journal :=
  let noted := store w ++ [fn] in
  if (fn =? veto)%nat then (Returned EventCancellation, mkWorld (hooks w) noted)
  else if (fn =? faulty)%nat then (Threw (VError "Error" "boom"), mkWorld (hooks w) noted)
  else if (fn =? meddler)%nat then
    (Returned VUndefined,
     mkWorld (delete_from _beforeRemove with_beforeRemove audit (hooks w)).1 noted)
  else (Returned VUndefined, mkWorld (hooks w) noted).

(** Modelled from the spec: [normalizeCriteria] of helpers.ts, which is not
    among the sources.  A mapping, a triple and a function stand as they
    are, the pair [[column, value]] is sugar for equality, and anything else
    fails with [InvalidCriteriaKind]. *)
Definition normalizeCriteria (criteria : Value) : Value + Value :=
  match criteria with
  | VObject _ | VFunction _ => inr criteria
  | VArray [column; value] => inr (VArray [column; VString "="; value])
  | VArray [_; _; _] => inr criteria
  | _ => inl (VError "InvalidCriteriaKind" "invalid criteria")
  end.

Definition bob : Value := VObject [("name", VString "Bob")].

(** [beforeRemove(audit); beforeRemove(veto); beforeRemove(audit)] on a
    new registry. *)
Definition guarded : Hooks :=
  (beforeRemove (VFunction audit)
     (beforeRemove (VFunction veto)
        (beforeRemove (VFunction audit) new_Hooks).1).1).1.

End Demo.

(** ** Registries in use *)

Module Registry.

Import HookRegistry.

(** The registries a program can come to hold: a new one, and what the
    registration methods and the removal capabilities they returned make
    of one. *)
Inductive reachable : Hooks → Prop :=
| reach_new : reachable new_Hooks
| reach_register (m : Method) (fn : Value) (h : Hooks) :
    reachable h → reachable (register m fn h).1
| reach_remove (m : Method) (fn : Value) (h0 h : Hooks) (cap : Removal) :
    (register m fn h0).2 = inr cap → reachable h → reachable (cap h).1.

End Registry.

(** ** More of the class: insert, raw and the reading of results *)

Module Operations.

Import JSString Embedded.

(** [_.isString] *)
Definition isString (v : Value) : bool :=
  match v with VString _ => true | _ => false end.

(** [s.toLowerCase()], a string being its code units, all of them below
    256: the capital letters of ASCII and of Latin-1 (U+00C0 to U+00DE but
    for the multiplication sign) are 32 below their small letters. *)
Definition lower_unit (c : ascii) : ascii :=
  let n := nat_of_ascii c in
  if ((65 <=? n) && (n <=? 90)
      || (192 <=? n) && (n <=? 222) && negb (n =? 215))%nat
  then ascii_of_nat (n + 32) else c.

Definition js_toLowerCase (s : string) : string :=
  of_chars (lower_unit <$> chars s).

(** [l] without its prefix [p], when it starts with it. *)
Fixpoint strip_prefix (p l : list ascii) : option (list ascii) :=
  match p, l with
  | [], _ => Some l
  | x :: p', y :: l' => if Ascii.eqb x y then strip_prefix p' l' else None
  | _ :: _, [] => None
  end.

Fixpoint replace_first (p r l : list ascii) : list ascii :=
  match strip_prefix p l with
  | Some rest => r ++ rest
  | None =>
      match l with
      | [] => []
      | x :: l' => x :: replace_first p r l'
      end
  end.

(** [s.replace(pattern, replacement)] for a pattern that is a string and a
    replacement without a dollar sign: the first occurrence is replaced. *)
Definition js_replace (s pattern replacement : string) : string :=
  of_chars (replace_first (chars pattern) (chars replacement) (chars s)).

Definition _getConflictString (conflict : string) : string :=
  let lowered := js_toLowerCase conflict in
  if String.eqb lowered "fail" then " or fail "
  else if String.eqb lowered "abort" then " or abort "
  else if String.eqb lowered "ignore" then " or ignore "
  else if String.eqb lowered "replace" then " or replace "
  else if String.eqb lowered "rollback" then " or rollback "
  else " ".

(** *** sql.js results *)

(** One element of what [db.exec] returns: the columns of a statement's
    result and its rows. *)
Record ResultSet := mkResultSet {
  columns : list string;
  values : list (list Value)
}.

(** Writing an own property: a key that is there keeps its place. *)
Fixpoint write_prop (k : string) (v : Value) (props : list (string * Value))
  : list (string * Value) :=
  match props with
  | [] => [(k, v)]
  | (k', v') :: rest =>
      if String.eqb k k' then (k', v) :: rest
      else (k', v') :: write_prop k v rest
  end.

(** [line[key] = value] on an object made by a literal.  The key
    [__proto__] is the accessor of [Object.prototype]: assigning to it makes
    no own property. *)
Definition set_prop (k : string) (v : Value) (props : list (string * Value))
  : list (string * Value) :=
  if String.eqb k "__proto__" then props else write_prop k v props.

(** The inner loop of [_parseResponse], from column [j] on; a row that is
    too short reads as [undefined]. *)
Fixpoint fill_line (cols : list string) (j : nat) (row : list Value)
    (line : list (string * Value)) : list (string * Value) :=
  match cols with
  | [] => line
  | c :: rest =>
      fill_line rest (S j) row (set_prop c (default VUndefined (row !! j)) line)
  end.

Definition _parseResponse (contents : list ResultSet) : list Value :=
  match contents with
  | [] => []
  | first :: _ =>
      (λ row, VObject (fill_line (columns first) 0 row [])) <$> values first
  end.

(** *** insert and raw *)

(** [knex.table(tableName).insert(values).toString()] *)
Class KnexInsert := { knex_insert_toString : string → Value → string }.

(** [db.getRowsModified()] *)
Class RowsModified (DB : Type) := { sql_getRowsModified : DB → Z }.

(** [a > b], with the coercions of the language: it throws ([inl]) or
    gives a boolean. *)
Class Relational := { js_gt : Value → Value → Value + bool }.

Section Instance.

Context {DB FS : Type} `{Engine DB} `{FileSystem FS} `{Knex}
        `{KnexInsert} `{RowsModified DB} `{Relational}.

(** The statement [insert] hands to [run]: the text knex renders, with the
    conflict clause spliced in when [options.conflict] is given.  Without
    one it is the query chain that is handed to [run], which asks it for its
    text first thing: the text stands for it here.  A conflict that is not a
    string has no [toLowerCase], which throws ([inl]). *)
Definition insert_query (tableName : string) (values conflict : Value)
  : Value + string :=
  let query := knex_insert_toString tableName values in
  if truthy conflict then
    match conflict with
    | VString c =>
        let str := _getConflictString c in
        inr (js_replace query "insert into" ("insert" +:+ str +:+ "into"))
    | _ => inl (VError "TypeError" "conflict.toLowerCase is not a function")
    end
  else inr query.

(** [insert (tableName, values, options)]; [conflict] is
    [options.conflict], [undefined] when there is none. *)
Definition insert (tableName values conflict : Value) (t : Trilogy DB FS)
  : Trilogy DB FS * Settled Value :=
  if negb (truthy tableName) || negb (isString tableName) then
    rejected_by (_errorHandler (VString "#insert")
                   (Some "'tableName' must be a string") t)
  else
    let name := match tableName with VString s => s | _ => "" end in
    match insert_query name values conflict with
    | inl e => (t, Rejected e)
    | inr query =>
        match run (QueryText query) t with
        | (t', Resolved _) =>
            match db t' with
            | Some d => (t', Resolved (VNumber (sql_getRowsModified d)))
            | None =>
                rejected_by
                  (_errorHandler
                     (VError "TypeError"
                        "Cannot read property 'getRowsModified' of null")
                     None t')
            end
        | (t', Rejected e) => rejected_by (_errorHandler e None t')
        end
    end.

(** [raw (query, ret)]; [ret] is [undefined] when left out, which is as
    good as [false]. *)
Definition raw (query : Query) (ret : Value) (t : Trilogy DB FS)
  : Trilogy DB FS * Settled Value :=
  if truthy ret then
    match exec query t with
    | (t', Resolved done) => (t', Resolved done)
    | (t', Rejected e) => rejected_by (_errorHandler e None t')
    end
  else
    match run query t with
    | (t', Resolved _) => (t', Resolved VUndefined)
    | (t', Rejected e) => rejected_by (_errorHandler e None t')
    end.

(** [hasTable (tableName)]: the arguments of [count] are
    ['sqlite_master'], ['name'] and [{ name: tableName }].  What [count]
    throws, what its promise is rejected with and what the comparison throws
    all end in the one [catch]. *)
Definition hasTable (tableName : Value) (t : Trilogy DB FS)
  : Trilogy DB FS * Settled Value :=
  let args := mkCount (Some "sqlite_master") (Some "name")
                (Some (VObject [("name", tableName)])) None in
  match count args t with
  | (t', inl thrown) => rejected_by (_errorHandler thrown None t')
  | (t', inr (Rejected e)) => rejected_by (_errorHandler e None t')
  | (t', inr (Resolved res)) =>
      match js_gt res (VNumber 0) with
      | inl thrown => rejected_by (_errorHandler thrown None t')
      | inr b => (t', Resolved (VBool b))
      end
  end.

(** A call a program makes on an instance, and the instance it leaves. *)
Inductive Call :=
| CallRun (query : Query)
| CallExec (query : Query)
| CallRaw (query : Query) (ret : Value)
| CallInsert (tableName values conflict : Value)
| CallDecrement (args : DecrementArgs)
| CallCount (args : CountArgs).

Definition after (c : Call) (t : Trilogy DB FS) : Trilogy DB FS :=
  match c with
  | CallRun query => (run query t).1
  | CallExec query => (exec query t).1
  | CallRaw query ret => (raw query ret t).1
  | CallInsert tableName values conflict => (insert tableName values conflict t).1
  | CallDecrement args => (decrement args t).1
  | CallCount args => (count args t).1
  end.

Definition after_all (calls : list Call) (t : Trilogy DB FS) : Trilogy DB FS :=
  foldl (λ t c, after c t) t calls.

End Instance.

End Operations.

(** ** More stand-ins: knex's insert and the engine's row count *)

Module Fixtures.

Import Embedded Operations Bench.

#[export] Instance bench_insert : KnexInsert := {
  knex_insert_toString name values :=
    "insert into " +:+ name +:+ " default values"
}.

(** An insert changes one row, any other statement none. *)
#[export] Instance bench_rows : RowsModified Db := {
  sql_getRowsModified d :=
    match last d with
    | Some sql => if String.prefix "insert " sql then 1 else 0
    | None => 0
    end
}.

(** The comparison, on numbers. *)
#[export] Instance bench_relational : Relational := {
  js_gt a b :=
    match a, b with
    | VNumber x, VNumber y => inr (y <? x)
    | _, _ => inr false
    end
}.

(** An engine that is locked: whatever it is asked, it throws. *)
Record Locked := mkLocked { locked_db : Db }.

#[export] Instance locked_engine : Engine Locked := {
  sql_open data := mkLocked (sql_open data);
  sql_run d sql := (d, Some (VError "Error" "database is locked"));
  sql_exec d sql := (d, inl (VError "Error" "database is locked"));
  sql_export d := sql_export (locked_db d);
  sql_getAsObject d sql := (d, inl (VError "Error" "database is locked"))
}.

Definition opened_locked : Trilogy Locked (gmap string bytes) :=
  mkTrilogy "storage.db" (Some (mkLocked ["create table people"])) true
    {["storage.db" := image ["create table people"]]} [].

(** A new database at [storage.db], as the constructor leaves it on an
    empty disk. *)
Definition created : Trilogy Db (gmap string bytes) :=
  mkTrilogy "storage.db" (Some []) true (<["storage.db" := image []]> ∅) [].

End Fixtures.

(** ** util.ts: walking an object *)

Module Util.

Import Operations.

(** [Object.keys (collection)]: an object is the list of its own enumerable
    properties in the order [Object.keys] gives them, no key twice. *)
Definition Object_keys (collection : list (string * Value)) : list string :=
  collection.*1.

(** [r === false] *)
Definition is_false (r : Value) : bool :=
  match r with VBool false => true | _ => false end.

Section Walk.

Context {S : Type}.

(** A callback is handed the value, the key and the collection; it may
    change the collection and a state of its own, and returns a value. *)
Definition Callback : Type :=
  Value → string → list (string * Value) → S →
  Value * (list (string * Value) * S).

(** The loop of [eachObj] over the keys that are left. *)
Fixpoint each_key (fn : Callback) (keys : list string)
    (collection : list (string * Value)) (s : S)
  : list (string * Value) * S :=
  match keys with
  | [] => (collection, s)
  | key :: rest =>
      let value := default VUndefined (get_prop key collection) in
      let '(r, (collection', s')) := fn value key collection s in
      if is_false r then (collection', s')
      else each_key fn rest collection' s'
  end.

Definition eachObj (fn : Callback) (collection : list (string * Value)) (s : S)
  : list (string * Value) * S :=
  each_key fn (Object_keys collection) collection s.

End Walk.

(** [mapObj (collection, fn)]: the result, and what [fn] left of the
    collection and of its state.  The callback it hands to [eachObj] writes
    [result[key]] and returns nothing. *)
Definition mapObj {S : Type} (fn : Callback (S := S))
    (collection : list (string * Value)) (s : S)
  : list (string * Value) * (list (string * Value) * S) :=
  let '(collection', (result, s')) :=
    eachObj (S := list (string * Value) * S)
      (λ value key collection '(result, s),
         let '(r, (collection', s')) := fn value key collection s in
         (VUndefined, (collection', (set_prop key r result, s'))))
      collection ([], s) in
  (result, (collection', s')).

(** A callback without effects, as [mapObj] and [eachObj] take it. *)
Definition stateless (f : Value → string → list (string * Value) → Value)
  : Callback (S := unit) :=
  λ value key collection s, (f value key collection, (collection, s)).

End Util.

(** ** The Trilogy class (models) *)

Module Models.

Import JSString Embedded.

(** What the class asks of knex's schema builder. *)
Inductive SchemaQuery :=
| HasTable (name : string)            (* knex.schema.hasTable(name) *)
| DropTableIfExists (name : string).  (* knex.schema.dropTableIfExists(name) *)

(** [runQuery (instance, query, needResponse)], which works on the
    connection of the instance and leaves its definitions alone. *)
Class Runner (B : Type) := {
  runQuery : B → SchemaQuery → bool → B * Settled Value
}.

(** A call handed on to a model: [target.method (...arguments)]. *)
Record Delegated := mkDelegated {
  target : Value;
  method : string;
  arguments : list Value
}.

(** [const [table, column] = location.split('.', 2)] *)
Definition split_location (location : string) : string * Value :=
  let (table, rest) := js_split location "." in
  (table, from_option VString VUndefined (rest !! 0%nat)).

Section Instance.

Context {B : Type} `{Runner B}.

(** An instance: the map of its definitions, from names to models in the
    order they were defined, and its connection. *)
Record Trilogy := mkTrilogy {
  _definitions : list (string * Value);
  connection : B
}.

(** [this._definitions.has(name)] *)
Definition has (name : string) (t : Trilogy) : bool :=
  bool_decide (is_Some (get_prop name (_definitions t))).

(** [get models ()] *)
Definition models (t : Trilogy) : list string := (_definitions t).*1.

Definition getModel (name : string) (t : Trilogy) : Value + Value :=
  invariant (default VUndefined (get_prop name (_definitions t)))
    (Some ("no model defined by the name '" +:+ name +:+ "'")).

Definition hasModel (name : string) (t : Trilogy) : Trilogy * Settled Value :=
  if negb (has name t) then (t, Resolved (VBool false))
  else
    let (b, r) := runQuery (connection t) (HasTable name) true in
    (mkTrilogy (_definitions t) b, r).

Definition dropModel (name : string) (t : Trilogy) : Trilogy * Settled Value :=
  if negb (has name t) then (t, Resolved (VBool false))
  else
    match runQuery (connection t) (DropTableIfExists name) true with
    | (b, Resolved _) =>
        (mkTrilogy (filter (λ kv, kv.1 ≠ name) (_definitions t)) b,
         Resolved (VBool true))
    | (b, Rejected e) => (mkTrilogy (_definitions t) b, Rejected e)
    end.

(** [find (location, criteria, options)]: throws what [getModel] throws, or
    hands the call on to the model.  [findOne], [get], [set], [getRaw],
    [setRaw], [incr], [decr], [min] and [max] start in the same way. *)
Definition find (location : string) (criteria options : Value) (t : Trilogy)
  : Value + Delegated :=
  let (table, column) := split_location location in
  match getModel table t with
  | inl e => inl e
  | inr model => inr (mkDelegated model "find" [column; criteria; options])
  end.

(** [remove (location, criteria)]: the location is the name of the model
    as it stands. *)
Definition remove (location : string) (criteria : Value) (t : Trilogy)
  : Value + Delegated :=
  match getModel location t with
  | inl e => inl e
  | inr model => inr (mkDelegated model "remove" [criteria])
  end.

End Instance.

Arguments Trilogy : clear implicits.
Arguments mkTrilogy {B}.

End Models.

(** ** A connection and two models *)

Module ModelBench.

Import Embedded Models.

(** A connection that notes the queries it is handed and refuses to drop
    the table [ledger]. *)
#[export] Instance bench_runner : Runner (list SchemaQuery) := {
  runQuery b query needResponse :=
    match query with
    | DropTableIfExists "ledger" =>
        (b ++ [query], Rejected (VError "Error" "database is locked"))
    | _ => (b ++ [query], Resolved (VBool true))
    end
}.

Definition people : Value := VInstance "Model" [("name", VString "people")].
Definition ledger : Value := VInstance "Model" [("name", VString "ledger")].

Definition defined : Trilogy (list SchemaQuery) :=
  mkTrilogy [("people", people); ("ledger", ledger)] [].

End ModelBench.

(** * Properties *)

Import HookRegistry.

(** *** Listener sets *)

Lemma set_has_values fn s : set_has fn s = true ↔ fn ∈ set_values s.
Proof.
  unfold set_has, set_values. rewrite bool_decide_eq_true, list_elem_of_omap.
  split.
  - intros H. exists (Some fn). done.
  - intros ([x|] & H & Hx); simpl in Hx; [|done]. by simplify_eq.
Qed.

Lemma set_has_false fn s : set_has fn s = false ↔ fn ∉ set_values s.
Proof.
  rewrite <- set_has_values. destruct (set_has fn s); naive_solver.
Qed.

Lemma set_values_app s1 s2 :
  set_values (s1 ++ s2) = set_values s1 ++ set_values s2.
Proof. unfold set_values. apply omap_app. Qed.

Lemma set_values_add fn s :
  set_values (set_add fn s) =
  if set_has fn s then set_values s else set_values s ++ [fn].
Proof.
  unfold set_add. destruct (set_has fn s); [done|].
  by rewrite set_values_app.
Qed.

Lemma set_has_add fn s : set_has fn (set_add fn s) = true.
Proof.
  apply set_has_values. rewrite set_values_add.
  destruct (set_has fn s) eqn:E.
  - by apply set_has_values.
  - set_solver.
Qed.

Lemma set_values_delete fn s :
  set_values (set_delete fn s).1 = filter (λ g, g ≠ fn) (set_values s).
Proof.
  unfold set_delete, set_values. simpl.
  induction s as [|[g|] s IH]; simpl; [done| |done].
  destruct (decide (Some g = Some fn)) as [E|E]; simpl.
  - simplify_eq. rewrite filter_cons_False by naive_solver. done.
  - rewrite filter_cons_True by naive_solver. by f_equal.
Qed.

Lemma set_has_delete fn s : set_has fn (set_delete fn s).1 = false.
Proof.
  apply set_has_false. rewrite set_values_delete, list_elem_of_filter.
  by intros [? _].
Qed.

Lemma set_delete_absent fn s :
  set_has fn s = false → (set_delete fn s).1 = s.
Proof.
  unfold set_has, set_delete. rewrite bool_decide_eq_false. simpl.
  induction s as [|e s IH]; intros Hin; csimpl; [done|].
  apply not_elem_of_cons in Hin as [Hne Hin].
  destruct (decide (e = Some fn)); [congruence|]. by rewrite IH.
Qed.

Lemma set_delete_twice fn s :
  set_delete fn (set_delete fn s).1 = ((set_delete fn s).1, false).
Proof.
  pose proof (set_has_delete fn s) as H.
  rewrite (surjective_pairing (set_delete fn (set_delete fn s).1)).
  f_equal; [by apply set_delete_absent|done].
Qed.

Lemma set_wf_add fn s : set_wf s → set_wf (set_add fn s).
Proof.
  unfold set_wf. rewrite set_values_add. intros H.
  destruct (set_has fn s) eqn:E; [done|].
  apply NoDup_app. split_and!; [done| |apply NoDup_singleton].
  intros x Hx Hx'. apply list_elem_of_singleton in Hx'. subst.
  by apply set_has_false in E.
Qed.

Lemma set_wf_delete fn s : set_wf s → set_wf (set_delete fn s).1.
Proof.
  unfold set_wf. rewrite set_values_delete. apply NoDup_filter.
Qed.

(** *** Firing *)

Lemma foldl_pointwise {A B} (f g : A → B → A) (l : list B) (a : A) :
  (∀ a b, f a b = g a b) → foldl f a l = foldl g a l.
Proof.
  intros Hfg. revert a. induction l as [|b l IH]; intros a; simpl; [done|].
  by rewrite Hfg, IH.
Qed.

Lemma is_cancellation_spec v : is_cancellation v = true ↔ v = EventCancellation.
Proof.
  unfold EventCancellation. destruct v; simpl; try (split; [done|congruence]).
  rewrite Nat.eqb_eq. split; congruence.
Qed.

Section FiringFacts.

Context {Store : Type}.
Variable behaviour : FnId → list Value → World Store → Outcome * World Store.
Variable normalizeCriteria : Value → Value + Value.

(** A loop whose body neither throws nor changes the set it runs over
    visits the members of the set, from the iterator's position on, in
    order. *)
Lemma for_of_visits_all (fns : Hooks → JSSet)
    (body : FnId → Firing Store → Firing Store * option Value) (s : JSSet) :
  (∀ fn st, fn ∈ set_values s → fns (hooks (f_world st)) = s →
            (body fn st).2 = None ∧ fns (hooks (f_world (body fn st).1)) = s) →
  ∀ fuel i st,
    fns (hooks (f_world st)) = s →
    (length s - i < fuel)%nat →
    for_of fuel fns body i st =
    Some (foldl (λ st fn, (body fn st).1) st (set_values (drop i s)), None).
Proof.
  intros Hbody. induction fuel as [|fuel IH]; intros i st Hs Hfuel; [lia|].
  simpl. rewrite Hs. destruct (s !! i) as [[fn|]|] eqn:Hi.
  - rewrite (drop_S _ _ _ Hi). simpl.
    assert (fn ∈ set_values s) as Hin.
    { apply list_elem_of_omap. exists (Some fn). split; [|done].
      by eapply list_elem_of_lookup_2. }
    destruct (Hbody fn st Hin Hs) as [Hnone Hkeep].
    destruct (body fn st) as [st' [e|]] eqn:Hb; simpl in *; [done|].
    apply lookup_lt_Some in Hi. apply IH; [done|lia].
  - rewrite (drop_S _ _ _ Hi). simpl.
    apply lookup_lt_Some in Hi. apply IH; [done|lia].
  - apply lookup_ge_None in Hi. by rewrite drop_ge.
Qed.

(** A loop that came to its end does so with any larger fuel. *)
Lemma for_of_more_fuel (fns : Hooks → JSSet)
    (body : FnId → Firing Store → Firing Store * option Value)
    (fuel fuel' i : nat) (st : Firing Store) r :
  for_of fuel fns body i st = Some r → (fuel ≤ fuel')%nat →
  for_of fuel' fns body i st = Some r.
Proof.
  revert fuel' i st. induction fuel as [|fuel IH]; intros fuel' i st; [done|].
  intros Hrun Hle. destruct fuel' as [|fuel']; [lia|].
  simpl in *. destruct (fns (hooks (f_world st)) !! i) as [[fn|]|]; [| |done].
  - destruct (body fn st) as [st' [e|]]; [done|]. apply IH; [done|lia].
  - apply IH; [done|lia].
Qed.

(** What a run of well-behaved callbacks leaves behind. *)
Lemma calls_of_well_behaved (c : HookCall) (args : list Value) (l : list FnId) :
  (∀ fn, fn ∈ l → well_behaved behaviour c args fn) →
  ∀ st,
    let st' := foldl (λ st fn, (call_and_check behaviour fn args st).1) st l in
    ∃ calls,
      f_calls st' = f_calls st ++ calls ∧
      cr_fn <$> calls = l ∧
      Forall (λ r, cr_args r = args) calls ∧
      chained behaviour (f_world st) calls (f_world st') ∧
      (prevented (f_result st') = true ↔
         prevented (f_result st) = true ∨
         ∃ r, r ∈ calls ∧ cr_outcome r = Returned EventCancellation).
Proof.
  induction l as [|fn l IH]; intros Hwell st; simpl.
  - exists []. rewrite app_nil_r. split_and!; try done.
    split; [by left|]. intros [?|(r & Hr & _)]; [done|]. by apply elem_of_nil in Hr.
  - destruct (Hwell fn (list_elem_of_here _ _) (f_world st)) as [[v Hv] _].
    destruct (behaviour fn args (f_world st)) as [outcome w'] eqn:Hb.
    simpl in Hv. subst outcome.
    set (st1 := mkFiring w'
                  (if is_cancellation v then {| prevented := true |}
                   else f_result st)
                  (f_calls st ++ [mkCall fn args (f_world st) (Returned v) w'])).
    assert ((call_and_check behaviour fn args st).1 = st1) as ->.
    { unfold call_and_check. by rewrite Hb. }
    destruct (IH (λ g Hg, Hwell g (list_elem_of_further _ _ _ Hg)) st1)
      as (calls & Hcalls & Hfns & Hargs & Hchain & Hprev).
    exists (mkCall fn args (f_world st) (Returned v) w' :: calls).
    split_and!.
    + rewrite Hcalls. subst st1. simpl. by rewrite <- app_assoc.
    + simpl. by f_equal.
    + by constructor.
    + simpl. split_and!; [done|exact Hb|exact Hchain].
    + rewrite Hprev. subst st1. simpl. split.
      * intros [Hp|(r & Hr & Hout)].
        -- destruct (is_cancellation v) eqn:Hc.
           ++ right. exists (mkCall fn args (f_world st) (Returned v) w').
              split; [apply list_elem_of_here|]. simpl. f_equal.
              by apply is_cancellation_spec.
           ++ by left.
        -- right. exists r. split; [by apply list_elem_of_further|done].
      * intros [Hp|(r & Hr & Hout)].
        -- left. by destruct (is_cancellation v).
        -- apply elem_of_cons in Hr as [->|Hr].
           ++ left. simpl in Hout. injection Hout as ->. done.
           ++ right. by exists r.
Qed.

Lemma callHook_loop (fuel : nat) (c : HookCall) (w : World Store) :
  _callHook behaviour normalizeCriteria fuel c w =
  settle (for_of fuel (fns_of c) (hook_body behaviour normalizeCriteria c) 0
            (mkFiring w {| prevented := false |} [])).
Proof. by destruct c. Qed.

Lemma hook_body_args (c : HookCall) (args : list Value) fn st :
  hook_args normalizeCriteria c = inr args →
  hook_body behaviour normalizeCriteria c fn st =
  call_and_check behaviour fn args st.
Proof.
  destruct c; simpl; try (intros [= <-]; done);
    destruct (normalizeCriteria criteria); intros [= <-]; done.
Qed.

Lemma call_and_check_well_behaved (c : HookCall) (args : list Value) fn st :
  well_behaved behaviour c args fn →
  (call_and_check behaviour fn args st).2 = None ∧
  fns_of c (hooks (f_world (call_and_check behaviour fn args st).1)) =
  fns_of c (hooks (f_world st)).
Proof.
  intros Hwell. destruct (Hwell (f_world st)) as [[v Hv] Hkeep].
  unfold call_and_check.
  destruct (behaviour fn args (f_world st)) as [outcome w'].
  simpl in *. by subst outcome.
Qed.

(** Firing with callbacks that return and leave the fired set alone. *)
Lemma callHook_well_behaved (c : HookCall) (w : World Store)
    (args : list Value) (fuel : nat) :
  hook_args normalizeCriteria c = inr args →
  (∀ fn, fn ∈ set_values (fns_of c (hooks w)) →
         well_behaved behaviour c args fn) →
  (length (fns_of c (hooks w)) < fuel)%nat →
  ∃ w' res calls,
    _callHook behaviour normalizeCriteria fuel c w = Some (w', inr res, calls) ∧
    cr_fn <$> calls = set_values (fns_of c (hooks w)) ∧
    Forall (λ r, cr_args r = args) calls ∧
    chained behaviour w calls w' ∧
    (prevented res = true ↔
       ∃ r, r ∈ calls ∧ cr_outcome r = Returned EventCancellation).
Proof.
  intros Hargs Hwell Hfuel. rewrite callHook_loop.
  set (st0 := mkFiring w {| prevented := false |} []).
  rewrite (for_of_visits_all (fns_of c) _ (fns_of c (hooks w)));
    [|intros fn st Hin Hs; rewrite (hook_body_args c args) by done;
      destruct (call_and_check_well_behaved c args fn st (Hwell fn Hin));
      split; congruence|done|lia].
  rewrite drop_0.
  rewrite (foldl_pointwise _ (λ st fn, (call_and_check behaviour fn args st).1))
    by (intros; by rewrite (hook_body_args c args)).
  destruct (calls_of_well_behaved c args _ Hwell st0)
    as (calls & Hcalls & Hfns & Hall & Hchain & Hprev).
  simpl. eexists _, _, _. split; [done|]. rewrite Hcalls. simpl.
  split_and!; try done.
  rewrite Hprev. simpl. split; [by intros [?|?]|by right].
Qed.

End FiringFacts.

(** *** Registration *)

Lemma typeof_function (fn : Value) :
  typeof fn = "function" ↔ ∃ f, fn = VFunction f.
Proof.
  split; [|by intros [f ->]]. destruct fn; simpl; try discriminate. eauto.
Qed.

Lemma invariant_function (f : FnId) :
  invariant (is_function_type (VFunction f)) (Some hook_type_message)
  = inr (VBool true).
Proof. reflexivity. Qed.

Lemma invariant_not_function (fn : Value) :
  typeof fn ≠ "function" →
  invariant (is_function_type fn) (Some hook_type_message)
  = inl (TrilogyError "hook callbacks must be of type function").
Proof.
  intros Hty. unfold invariant, is_function_type. simpl.
  destruct (String.eqb_spec (typeof fn) "function"); [done|]. reflexivity.
Qed.

(** Every registration method is [invariant] followed by [Set.add]. *)
Ltac unfold_registration :=
  unfold register, onQuery, beforeCreate, afterCreate, beforeUpdate,
         afterUpdate, beforeRemove, afterRemove, register_in.

Lemma delete_from_fst get put f h :
  (delete_from get put f h).1 = put (set_delete f (get h)).1 h.
Proof. reflexivity. Qed.

Lemma delete_from_snd get put f h :
  (delete_from get put f h).2 = set_has f (get h).
Proof. reflexivity. Qed.

Lemma delete_from_both_fst f h :
  (delete_from_both f h).1 =
  let h' := with_onQueryAll (set_delete f (_onQueryAll h)).1 h in
  if set_has f (_onQueryAll h)
  then with_onQuery (set_delete f (_onQuery h')).1 h' else h'.
Proof.
  unfold delete_from_both, delete_from. simpl.
  by destruct (set_has f (_onQueryAll h)).
Qed.

Lemma with_same_onQueryAll h s :
  s = _onQueryAll h → with_onQueryAll s h = h.
Proof. intros ->. by destruct h. Qed.

Lemma with_same_onQuery h s : s = _onQuery h → with_onQuery s h = h.
Proof. intros ->. by destruct h. Qed.

Lemma delete_from_both_twice f h :
  delete_from_both f (delete_from_both f h).1 = ((delete_from_both f h).1, false).
Proof.
  assert (∀ h', set_has f (_onQueryAll h') = false →
                delete_from_both f h' = (h', false)) as Habsent.
  { intros h' Hno. unfold delete_from_both, delete_from. simpl. rewrite Hno.
    f_equal. apply with_same_onQueryAll. by apply set_delete_absent. }
  apply Habsent. rewrite delete_from_both_fst. simpl.
  destruct (set_has f (_onQueryAll h)); simpl; apply set_has_delete.
Qed.

Lemma delete_from_lens_twice get put f h :
  (∀ s h, get (put s h) = s) →
  (∀ s s' h, put s (put s' h) = put s h) →
  delete_from get put f (delete_from get put f h).1
  = ((delete_from get put f h).1, false).
Proof.
  intros Hget Hput.
  rewrite (surjective_pairing (delete_from get put f _)).
  rewrite !delete_from_fst, delete_from_snd, !Hget, Hput.
  by rewrite (set_delete_absent _ _ (set_has_delete f _)), set_has_delete.
Qed.

Lemma delete_from_twice (m : Method) (f : FnId) (h : Hooks) cap :
  (register m (VFunction f) h).2 = inr cap →
  ∀ h', cap (cap h').1 = ((cap h').1, false).
Proof.
  destruct m as [options| | | | | |];
    unfold_registration; rewrite invariant_function.
  1: destruct (wants_internal options).
  1: intros [= <-] h'; apply delete_from_both_twice.
  all: intros [= <-] h'; apply delete_from_lens_twice; by intros.
Qed.

Lemma registration_succeeds (m : Method) (f : FnId) (h : Hooks) :
  ∃ h1 cap, register m (VFunction f) h = (h1, inr cap).
Proof.
  destruct m as [options| | | | | |];
    unfold_registration; rewrite invariant_function; [destruct (wants_internal options)|..]; eauto.
Qed.

(** A registration appends the callback to the sets of its method unless
    it is there already, and leaves the other sets alone. *)
Lemma register_values (m : Method) (f : FnId) (h : Hooks) (c : HookCall) :
  fns_of c (register m (VFunction f) h).1 =
  if fires_for m c then set_add f (fns_of c h) else fns_of c h.
Proof.
  destruct m as [options| | | | | |];
    unfold_registration; rewrite invariant_function; [destruct (wants_internal options) eqn:Hw|..];
    destruct c as [q [|]| | | | | |]; simpl; rewrite ?Hw; reflexivity.
Qed.

(** [fires_for] read off the code: the firings that call a callback
    registered on a new registry. *)
Lemma fires_for_new (m : Method) (f : FnId) (c : HookCall) :
  fires_for m c = true ↔
  f ∈ set_values (fns_of c (register m (VFunction f) new_Hooks).1).
Proof.
  rewrite register_values. destruct (fires_for m c).
  - rewrite <- set_has_values, set_has_add. done.
  - split; [done|]. destruct c as [q [|]| | | | | |]; simpl; by intros ?%elem_of_nil.
Qed.

Lemma new_Hooks_wf (c : HookCall) : set_wf (fns_of c new_Hooks).
Proof. destruct c as [q [|]| | | | | |]; apply NoDup_nil_2. Qed.

(** The removal capability of a registration, at a registry where the
    callback is still registered. *)
Lemma removal_values (m : Method) (f : FnId) (h h' : Hooks) cap (c : HookCall) :
  (register m (VFunction f) h).2 = inr cap →
  still_registered m f h' →
  fns_of c (cap h').1 =
  if fires_for m c then (set_delete f (fns_of c h')).1 else fns_of c h'.
Proof.
  intros Hcap Hreg. revert Hcap.
  destruct m as [options| | | | | |];
    unfold_registration; rewrite invariant_function; [destruct (wants_internal options) eqn:Hw|..];
    intros [= <-].
  1: { rewrite delete_from_both_fst.
       assert (set_has f (_onQueryAll h') = true) as ->.
       { apply set_has_values. apply (Hreg (CallOnQuery "" true)). simpl. done. }
       destruct c as [q [|]| | | | | |]; simpl; rewrite ?Hw; reflexivity. }
  all: rewrite delete_from_fst;
       destruct c as [q [|]| | | | | |]; simpl; rewrite ?Hw; reflexivity.
Qed.

Lemma register_wf (m : Method) (f : FnId) (h : Hooks) (c : HookCall) :
  set_wf (fns_of c h) → set_wf (fns_of c (register m (VFunction f) h).1).
Proof.
  intros Hwf. rewrite register_values.
  destruct (fires_for m c); [by apply set_wf_add|done].
Qed.

Lemma removal_wf (m : Method) (f : FnId) (h h' : Hooks) cap (c : HookCall) :
  (register m (VFunction f) h).2 = inr cap →
  set_wf (fns_of c h') → set_wf (fns_of c (cap h').1).
Proof.
  intros Hcap Hwf. revert Hcap.
  destruct m as [options| | | | | |];
    unfold_registration; rewrite invariant_function; [destruct (wants_internal options) eqn:Hw|..];
    intros [= <-].
  1: { rewrite delete_from_both_fst.
       destruct (set_has f (_onQueryAll h'));
         destruct c as [q [|]| | | | | |]; simpl; try done;
         by apply set_wf_delete. }
  all: rewrite delete_from_fst;
       destruct c as [q [|]| | | | | |]; simpl; try done; by apply set_wf_delete.
Qed.

(** ** Firing, observing and unregistering *)

(** C1.  Firing a lifecycle event on a registry whose callbacks return
    (and do not register or unregister listeners of the event being fired)
    resolves, having invoked every callback registered for the event (for
    on-query: for the kind of query fired, internal or not) exactly once, in
    registration order, each with the firing's arguments and each starting
    in the world its predecessor left; [prevented] is true exactly
    when some callback returned the cancellation sentinel, and the sentinel
    does not stop the later callbacks, which are all invoked whatever the
    earlier ones returned.  Registration order is the order of the first
    registrations: registering appends the callback to the event's set unless
    it is already a member, in which case the set is unchanged. *)
Theorem callHook_invokes_all_in_order {Store : Type}
    (behaviour : FnId → list Value → World Store → Outcome * World Store)
    (normalizeCriteria : Value → Value + Value)
    (c : HookCall) (w : World Store) (args : list Value) (fuel : nat) :
  hook_args normalizeCriteria c = inr args →
  set_wf (fns_of c (hooks w)) →
  (∀ fn, fn ∈ set_values (fns_of c (hooks w)) →
         well_behaved behaviour c args fn) →
  (length (fns_of c (hooks w)) < fuel)%nat →
  (∃ w' res calls,
     _callHook behaviour normalizeCriteria fuel c w = Some (w', inr res, calls) ∧
     cr_fn <$> calls = set_values (fns_of c (hooks w)) ∧
     NoDup (cr_fn <$> calls) ∧
     Forall (λ r, cr_args r = args) calls ∧
     chained behaviour w calls w' ∧
     (prevented res = true ↔
        ∃ r, r ∈ calls ∧ cr_outcome r = Returned EventCancellation)) ∧
  (∀ m f, fires_for m c = true →
     let h' := (register m (VFunction f) (hooks w)).1 in
     set_wf (fns_of c h') ∧
     set_values (fns_of c h') =
       if bool_decide (f ∈ set_values (fns_of c (hooks w)))
       then set_values (fns_of c (hooks w))
       else set_values (fns_of c (hooks w)) ++ [f]).
Proof.
  intros Hargs Hwf Hwell Hfuel. split.
  - destruct (callHook_well_behaved behaviour normalizeCriteria c w args fuel
                Hargs Hwell Hfuel)
      as (w' & res & calls & Hrun & Hfns & Hall & Hchain & Hprev).
    exists w', res, calls. split_and!; try done. by rewrite Hfns.
  - intros m f Hm h'. split; [by apply register_wf|].
    subst h'. rewrite register_values, Hm, set_values_add.
    destruct (set_has f (fns_of c (hooks w))) eqn:Hhas.
    + apply set_has_values in Hhas. by rewrite bool_decide_true.
    + apply set_has_false in Hhas. by rewrite bool_decide_false.
Qed.

Lemma demo_guarded_values :
  set_values (_beforeRemove Demo.guarded) = [Demo.audit; Demo.veto].
Proof. reflexivity. Qed.

Lemma demo_well_behaved (c : HookCall) (args : list Value) (fn : FnId) :
  fn ∈ [Demo.audit; Demo.veto] → well_behaved Demo.behaviour c args fn.
Proof.
  intros Hin w.
  apply elem_of_cons in Hin as [->|Hin];
    [|apply list_elem_of_singleton in Hin as ->];
    (split; [eexists; reflexivity|reflexivity]).
Qed.

Lemma callHook_invokes_all_in_order_witness :
  let c := CallBeforeRemove Demo.bob None in
  let w := mkWorld Demo.guarded ([] : Demo.Journal) in
  let args := [Demo.bob; VObject []] in
  hook_args Demo.normalizeCriteria c = inr args ∧
  set_wf (fns_of c (hooks w)) ∧
  (∀ fn, fn ∈ set_values (fns_of c (hooks w)) →
         well_behaved Demo.behaviour c args fn) ∧
  (length (fns_of c (hooks w)) < 3)%nat ∧
  (∃ w' res calls,
     _callHook Demo.behaviour Demo.normalizeCriteria 3 c w
       = Some (w', inr res, calls) ∧
     cr_fn <$> calls = set_values (fns_of c (hooks w)) ∧
     NoDup (cr_fn <$> calls) ∧
     Forall (λ r, cr_args r = args) calls ∧
     chained Demo.behaviour w calls w' ∧
     (prevented res = true ↔
        ∃ r, r ∈ calls ∧ cr_outcome r = Returned EventCancellation)).
Proof.
  intros c w args.
  assert (hook_args Demo.normalizeCriteria c = inr args) as H1 by reflexivity.
  assert (set_wf (fns_of c (hooks w))) as H2.
  { apply (bool_decide_unpack _). vm_compute. exact I. }
  assert (∀ fn, fn ∈ set_values (fns_of c (hooks w)) →
                well_behaved Demo.behaviour c args fn) as H3.
  { intros fn Hin. by apply demo_well_behaved. }
  assert (length (fns_of c (hooks w)) < 3)%nat as H4 by (vm_compute; lia).
  split_and!; try assumption.
  exact (proj1 (callHook_invokes_all_in_order Demo.behaviour
                  Demo.normalizeCriteria c w args 3 H1 H2 H3 H4)).
Defined.

(** The same firing, computed: both callbacks are called, in the order of
    their first registration, and the veto is recorded. *)
Example demo_fire_before_remove :
  _callHook Demo.behaviour Demo.normalizeCriteria 3
    (CallBeforeRemove Demo.bob None) (mkWorld Demo.guarded [])
  = Some (mkWorld Demo.guarded [Demo.audit; Demo.veto],
          inr {| prevented := true |},
          [mkCall Demo.audit [Demo.bob; VObject []]
             (mkWorld Demo.guarded []) (Returned VUndefined)
             (mkWorld Demo.guarded [Demo.audit]);
           mkCall Demo.veto [Demo.bob; VObject []]
             (mkWorld Demo.guarded [Demo.audit]) (Returned EventCancellation)
             (mkWorld Demo.guarded [Demo.audit; Demo.veto])]).
Proof. reflexivity. Qed.

(** A callback that throws rejects the firing, and the callbacks after it
    are not called. *)
Example demo_throwing_callback_stops_firing :
  let h := (afterCreate (VFunction Demo.audit)
              (afterCreate (VFunction Demo.faulty) new_Hooks).1).1 in
  _callHook Demo.behaviour Demo.normalizeCriteria 3
    (CallAfterCreate Demo.bob None) (mkWorld h [])
  = Some (mkWorld h [Demo.faulty], inl (VError "Error" "boom"),
          [mkCall Demo.faulty [Demo.bob; VObject []]
             (mkWorld h []) (Threw (VError "Error" "boom"))
             (mkWorld h [Demo.faulty])]).
Proof. reflexivity. Qed.

(** A callback that unregisters a later callback of the event being fired
    keeps it from being called. *)
Example demo_unregistering_during_firing :
  let h := (beforeRemove (VFunction Demo.audit)
              (beforeRemove (VFunction Demo.meddler) new_Hooks).1).1 in
  ∃ w' calls,
    _callHook Demo.behaviour Demo.normalizeCriteria 3
      (CallBeforeRemove Demo.bob None) (mkWorld h [])
    = Some (w', inr {| prevented := false |}, calls) ∧
    cr_fn <$> calls = [Demo.meddler] ∧
    set_values (_beforeRemove h) = [Demo.meddler; Demo.audit].
Proof. eexists _, _. split_and!; reflexivity. Qed.

Lemma wants_internal_true (options : OnQueryOptions) :
  wants_internal options = true ↔ includeInternal options = Some true.
Proof.
  unfold wants_internal. destruct (includeInternal options) as [[|]|];
    split; congruence.
Qed.

(** Every invocation a firing records is an application of the callback:
    to the arguments noted, in the world noted, with the outcome and the
    world noted. *)
Lemma chained_applied {Store : Type}
    (behaviour : FnId → list Value → World Store → Outcome * World Store)
    (w w' : World Store) (calls : list (CallRecord Store)) (r : CallRecord Store) :
  chained behaviour w calls w' → r ∈ calls →
  behaviour (cr_fn r) (cr_args r) (cr_before r) = (cr_outcome r, cr_after r).
Proof.
  revert w. induction calls as [|r0 calls IH]; intros w Hchain Hin;
    [by apply elem_of_nil in Hin|].
  destruct Hchain as (Hbefore & Happlied & Hrest).
  apply elem_of_cons in Hin as [->|Hin]; [by rewrite Hbefore|by eapply IH].
Qed.

(** C6.  After [onQuery (fn, options)] for a callback that was not already
    an observer of internal queries, a firing of on-query (with callbacks
    that return and leave the on-query sets alone) invokes [fn] exactly when
    the query is external or the registration said [includeInternal: true]:
    an observer registered with [includeInternal: true] sees internal and
    external queries, one registered without it (the default [{}] included)
    sees the external ones only.  The invocations are those of the set the
    flag of the query selects, in its order; each of them, that of [fn]
    among them, is the callback applied to the query text in the world the
    invocation before it left. *)
Theorem onQuery_observer_sees_internal_only_on_request {Store : Type}
    (behaviour : FnId → list Value → World Store → Outcome * World Store)
    (normalizeCriteria : Value → Value + Value)
    (f : FnId) (options : OnQueryOptions) (h : Hooks) (st : Store)
    (query : string) (internal : bool) (fuel : nat) :
  let h1 := (onQuery (VFunction f) options h).1 in
  let c := CallOnQuery query internal in
  f ∉ set_values (_onQueryAll h) →
  (∀ fn, fn ∈ set_values (fns_of c h1) →
         well_behaved behaviour c [VString query] fn) →
  (length (fns_of c h1) < fuel)%nat →
  ∃ w' res calls,
    _callHook behaviour normalizeCriteria fuel c (mkWorld h1 st)
      = Some (w', inr res, calls) ∧
    cr_fn <$> calls =
      set_values (if internal then _onQueryAll h1 else _onQuery h1) ∧
    chained behaviour (mkWorld h1 st) calls w' ∧
    (f ∈ cr_fn <$> calls ↔
       internal = false ∨ includeInternal options = Some true) ∧
    (∀ r, r ∈ calls → cr_fn r = f →
       cr_args r = [VString query] ∧
       behaviour f [VString query] (cr_before r) = (cr_outcome r, cr_after r)).
Proof.
  intros h1 c Hfresh Hwell Hfuel.
  destruct (callHook_well_behaved behaviour normalizeCriteria c
              (mkWorld h1 st) [VString query] fuel eq_refl Hwell Hfuel)
    as (w' & res & calls & Hrun & Hfns & Hall & Hchain & _).
  exists w', res, calls. split_and!; [done| |done| |].
  - rewrite Hfns. subst c. simpl. by destruct internal.
  - rewrite Hfns. simpl hooks. subst h1.
    change (onQuery (VFunction f) options h)
      with (register (MOnQuery options) (VFunction f) h).
    rewrite register_values, <- wants_internal_true. subst c. simpl.
    destruct internal.
    + destruct (wants_internal options).
      * rewrite <- set_has_values, set_has_add. split; [by right|done].
      * split; [done|]. by intros [?|?].
    + rewrite <- set_has_values, set_has_add. split; [by left|done].
  - intros r Hin Hf.
    pose proof (chained_applied behaviour _ _ _ r Hchain Hin) as Happlied.
    rewrite Forall_forall in Hall. specialize (Hall r Hin).
    rewrite Hf, Hall in Happlied. done.
Qed.

(** Two observers of internal queries: [veto], registered first, and
    [audit].  An internal query reaches both, in that order. *)
Lemma onQuery_observer_sees_internal_only_on_request_witness :
  let h := (onQuery (VFunction Demo.veto) {| includeInternal := Some true |}
              new_Hooks).1 in
  let h1 := (onQuery (VFunction Demo.audit) {| includeInternal := Some true |}
               h).1 in
  let c := CallOnQuery "select 1" true in
  (Demo.audit ∉ set_values (_onQueryAll h)) ∧
  (∀ fn, fn ∈ set_values (fns_of c h1) →
         well_behaved Demo.behaviour c [VString "select 1"] fn) ∧
  (length (fns_of c h1) < 3)%nat ∧
  (∃ w' res calls,
     _callHook Demo.behaviour Demo.normalizeCriteria 3 c
       (mkWorld h1 ([] : Demo.Journal)) = Some (w', inr res, calls) ∧
     cr_fn <$> calls = [Demo.veto; Demo.audit] ∧
     chained Demo.behaviour (mkWorld h1 []) calls w' ∧
     (Demo.audit ∈ cr_fn <$> calls ↔ true = false ∨ Some true = Some true) ∧
     (∀ r, r ∈ calls → cr_fn r = Demo.audit →
        cr_args r = [VString "select 1"] ∧
        Demo.behaviour Demo.audit [VString "select 1"] (cr_before r)
        = (cr_outcome r, cr_after r))).
Proof.
  intros h h1 c.
  assert (Demo.audit ∉ set_values (_onQueryAll h)) as H1.
  { intros Hin. apply list_elem_of_singleton in Hin. discriminate. }
  assert (∀ fn, fn ∈ set_values (fns_of c h1) →
                well_behaved Demo.behaviour c [VString "select 1"] fn) as H2.
  { intros fn Hin. apply demo_well_behaved.
    apply elem_of_cons in Hin as [->|Hin];
      [|apply list_elem_of_singleton in Hin as ->].
    - apply list_elem_of_further, list_elem_of_here.
    - apply list_elem_of_here. }
  assert (length (fns_of c h1) < 3)%nat as H3 by (vm_compute; lia).
  split_and!; try assumption.
  exact (onQuery_observer_sees_internal_only_on_request Demo.behaviour
           Demo.normalizeCriteria Demo.audit {| includeInternal := Some true |}
           h [] "select 1" true 3 H1 H2 H3).
Defined.

(** An observer registered by default is called for a user query and not
    for an internal one; with [includeInternal: true] it is called for
    both. *)
Example demo_on_query :
  let plain := (onQuery (VFunction Demo.audit) {| includeInternal := None |}
                  new_Hooks).1 in
  let opted := (onQuery (VFunction Demo.audit)
                  {| includeInternal := Some true |} new_Hooks).1 in
  let fired h internal :=
    match _callHook Demo.behaviour Demo.normalizeCriteria 2
            (CallOnQuery "select 1" internal) (mkWorld h []) with
    | Some (_, _, calls) => cr_fn <$> calls
    | None => []
    end in
  fired plain false = [Demo.audit] ∧ fired plain true = [] ∧
  fired opted false = [Demo.audit] ∧ fired opted true = [Demo.audit].
Proof. split_and!; reflexivity. Qed.

(** C9.  Every registration returns a removal capability.  Invoked on a
    registry in which the callback is still registered as the method left
    it, the capability removes the callback from every set the method put it
    in (for on-query with [includeInternal: true], from the default and from
    the internal set), keeps the other callbacks of those sets in their
    order, and leaves every other set as it was; invoked a second time it
    changes nothing and reports [false] instead of throwing. *)
Theorem removal_unregisters_exactly_and_is_idempotent
    (m : Method) (f : FnId) (h : Hooks) :
  ∃ h1 cap,
    register m (VFunction f) h = (h1, inr cap) ∧
    still_registered m f h1 ∧
    (∀ h', still_registered m f h' →
       ∀ c, if fires_for m c
            then set_values (fns_of c (cap h').1)
                 = filter (λ g, g ≠ f) (set_values (fns_of c h'))
            else fns_of c (cap h').1 = fns_of c h') ∧
    (∀ h', cap (cap h').1 = ((cap h').1, false)).
Proof.
  destruct (registration_succeeds m f h) as (h1 & cap & Hreg).
  exists h1, cap. split; [done|].
  assert ((register m (VFunction f) h).2 = inr cap) as Hcap by (by rewrite Hreg).
  split_and!.
  - intros c Hc. replace h1 with (register m (VFunction f) h).1 by (by rewrite Hreg).
    rewrite register_values, Hc. apply set_has_values, set_has_add.
  - intros h' Hstill c. rewrite (removal_values m f h h' cap c Hcap Hstill).
    destruct (fires_for m c); [apply set_values_delete|done].
  - by apply (delete_from_twice m f h).
Qed.

Lemma removal_unregisters_exactly_and_is_idempotent_witness :
  ∃ h1 cap,
    register (MOnQuery {| includeInternal := Some true |})
      (VFunction Demo.audit) Demo.guarded = (h1, inr cap) ∧
    set_values (_onQuery h1) = [Demo.audit] ∧
    set_values (_onQueryAll h1) = [Demo.audit] ∧
    set_values (_onQuery (cap h1).1) = [] ∧
    set_values (_onQueryAll (cap h1).1) = [] ∧
    _beforeRemove (cap h1).1 = _beforeRemove h1 ∧
    cap (cap h1).1 = ((cap h1).1, false).
Proof.
  destruct (removal_unregisters_exactly_and_is_idempotent
              (MOnQuery {| includeInternal := Some true |})
              Demo.audit Demo.guarded)
    as (h1 & cap & Hreg & Hstill & Hremove & Htwice).
  exists h1, cap.
  pose proof (Hremove h1 Hstill (CallOnQuery "" false)) as Hq.
  pose proof (Hremove h1 Hstill (CallOnQuery "" true)) as Hall.
  pose proof (Hremove h1 Hstill (CallBeforeRemove VNull None)) as Hother.
  simpl in Hq, Hall, Hother.
  injection Hreg as <- <-.
  split_and!; try done.
Defined.

(** The capability of an [includeInternal] registration deletes from
    [_onQuery] only when its delete from [_onQueryAll] found the callback.
    Invoked once the callback has left the internal set by another
    capability and has been registered again without [includeInternal], it
    leaves that registration in place. *)
Example removal_after_another_removal :
  let opted := MOnQuery {| includeInternal := Some true |} in
  let plain := MOnQuery {| includeInternal := None |} in
  ∃ h1 cap h2 cap' h4 cap'',
    register opted (VFunction Demo.audit) new_Hooks = (h1, inr cap) ∧
    register opted (VFunction Demo.audit) h1 = (h2, inr cap') ∧
    register plain (VFunction Demo.audit) (cap' h2).1 = (h4, inr cap'') ∧
    set_values (_onQuery h4) = [Demo.audit] ∧
    set_values (_onQuery (cap h4).1) = [Demo.audit] ∧
    set_values (_onQuery (cap'' h4).1) = [].
Proof. eexists _, _, _, _, _, _. split_and!; reflexivity. Qed.

(** C10.  Each of the seven registration methods, given a callback that is
    not a function, throws a [TrilogyError] with the message
    ['hook callbacks must be of type function'] and leaves the registry as it
    was. *)
Theorem registration_rejects_non_function (m : Method) (fn : Value) (h : Hooks) :
  typeof fn ≠ "function" →
  register m fn h =
  (h, inl (VError "TrilogyError" "hook callbacks must be of type function")).
Proof.
  intros Hty.
  destruct m; unfold_registration; by rewrite (invariant_not_function fn Hty).
Qed.

Lemma registration_rejects_non_function_witness :
  typeof (VString "log") ≠ "function" ∧
  register MBeforeCreate (VString "log") Demo.guarded =
  (Demo.guarded,
   inl (VError "TrilogyError" "hook callbacks must be of type function")).
Proof.
  assert (typeof (VString "log") ≠ "function") as H by discriminate.
  split; [exact H|].
  exact (registration_rejects_non_function MBeforeCreate (VString "log")
           Demo.guarded H).
Defined.

(** * The Trilogy class *)

Import JSString Embedded.

(** ** Table paths *)

Lemma chars_of_chars (l : list ascii) : chars (of_chars l) = l.
Proof. apply String.list_ascii_of_string_of_list_ascii. Qed.

Lemma chars_app (a b : string) : chars (a +:+ b) = chars a ++ chars b.
Proof.
  induction a as [|x a IH]; [done|].
  change (x :: chars (a +:+ b) = x :: (chars a ++ chars b)). by rewrite IH.
Qed.

Lemma of_chars_chars (s : string) : of_chars (chars s) = s.
Proof. apply String.string_of_list_ascii_of_string. Qed.

Lemma js_length_nonneg (s : string) : 0 ≤ js_length s.
Proof. unfold js_length. lia. Qed.

Lemma js_indexOf_0 (s : string) (c : ascii) :
  js_indexOf s c 0 =
  match find_char c (chars s) with Some k => Z.of_nat k | None => -1 end.
Proof.
  unfold js_indexOf. pose proof (js_length_nonneg s).
  replace (Z.min (Z.max 0 0) (js_length s)) with 0 by lia.
  change (Z.to_nat 0) with 0%nat. rewrite drop_0.
  destruct (find_char c (chars s)); [f_equal; lia|done].
Qed.

Lemma js_includes_false (s : string) (c : ascii) :
  js_includes s c = false ↔ find_char c (chars s) = None.
Proof.
  unfold js_includes. rewrite js_indexOf_0.
  destruct (find_char c (chars s)) as [k|]; simpl.
  - split; [|done]. rewrite negb_false_iff, Z.eqb_eq. lia.
  - done.
Qed.

Lemma find_char_lt (c : ascii) (l : list ascii) (k : nat) :
  find_char c l = Some k → (k < length l)%nat.
Proof.
  revert k. induction l as [|x l IH]; intros k; simpl; [done|].
  destruct (Ascii.eqb x c).
  - intros [= <-]. lia.
  - destruct (find_char c l) as [k'|]; simpl; [|done].
    intros [= <-]. specialize (IH k' eq_refl). lia.
Qed.

Lemma find_char_take_none (c : ascii) (l : list ascii) (n : nat) :
  find_char c l = None → find_char c (take n l) = None.
Proof.
  revert n. induction l as [|x l IH]; intros [|n]; simpl; try done.
  destruct (Ascii.eqb x c); [done|].
  destruct (find_char c l) eqn:E; simpl; [done|]. intros _. by rewrite IH.
Qed.

Lemma find_char_take_before (c : ascii) (l : list ascii) (k : nat) :
  find_char c l = Some k → find_char c (take k l) = None.
Proof.
  revert k. induction l as [|x l IH]; intros k; simpl; [done|].
  destruct (Ascii.eqb x c) eqn:Ex.
  - by intros [= <-].
  - destruct (find_char c l) as [k'|] eqn:E; simpl; [|done].
    intros [= <-]. simpl. rewrite Ex. by rewrite (IH k' eq_refl).
Qed.

Lemma split_chars_first (c : ascii) (l : list ascii) :
  find_char c (split_chars c l).1 = None.
Proof.
  induction l as [|x l IH]; simpl; [done|].
  destruct (split_chars c l) as [piece pieces]. simpl in IH.
  destruct (Ascii.eqb x c) eqn:Ex; simpl; [done|]. by rewrite Ex, IH.
Qed.

Lemma split_chars_first_other (c c' : ascii) (l : list ascii) :
  find_char c' l = None → find_char c' (split_chars c l).1 = None.
Proof.
  induction l as [|x l IH]; simpl; [done|].
  destruct (Ascii.eqb x c') eqn:Ex'; [done|].
  destruct (find_char c' l) eqn:E; simpl; [done|]. intros _.
  destruct (split_chars c l) as [piece pieces]. simpl in IH.
  destruct (Ascii.eqb x c); simpl; [done|]. by rewrite Ex', IH.
Qed.

Lemma js_substr_prefix (s : string) (k : nat) :
  (k ≤ length (chars s))%nat →
  chars (js_substr s 0 (Z.of_nat k)) = take k (chars s).
Proof.
  intros Hk. unfold js_substr, relative_index, js_length.
  rewrite chars_of_chars. change (0 <? 0) with false. cbv iota.
  replace (Z.to_nat (Z.min 0 (Z.of_nat (length (chars s))))) with 0%nat by lia.
  rewrite drop_0. f_equal. lia.
Qed.

Lemma parseTablePath_step (fuel : nat) (table : string) column row :
  _parseTablePath_rec (S fuel) table column row =
  if js_includes table "." then
    let (top, rest) := js_split table "." in
    _parseTablePath_rec fuel top (rest !! 0%nat) (rest !! 1%nat)
  else if js_includes table "[" then
    let opener := js_indexOf table "[" 0 in
    let closer := js_indexOf table "]" opener in
    let _top := js_substr table 0 opener in
    let _inner := js_slice table (opener + 1) (Some closer) in
    let rowIndex := js_length _top + js_length _inner + 2 in
    let _nested :=
      if rowIndex <? js_length table then
        let extra := js_slice table (rowIndex + 1) None in
        let rowCloser := js_indexOf extra "]" 0 in
        Some (js_substr extra 0 rowCloser)
      else None in
    _parseTablePath_rec fuel _top (Some _inner) _nested
  else Some (table, column, row).
Proof. reflexivity. Qed.

(** A table name without a dot or a bracket is returned as it is. *)
Lemma parseTablePath_plain (fuel : nat) (table : string) column row :
  js_includes table "." = false → js_includes table "[" = false →
  _parseTablePath_rec (S fuel) table column row = Some (table, column, row).
Proof. intros Hdot Hbr. by rewrite parseTablePath_step, Hdot, Hbr. Qed.

Lemma parseTablePath_no_dot (fuel : nat) (table : string) column row :
  js_includes table "." = false →
  is_Some (_parseTablePath_rec (S (S fuel)) table column row).
Proof.
  intros Hdot. destruct (js_includes table "[") eqn:Hbr.
  - rewrite parseTablePath_step, Hdot, Hbr. cbv zeta.
    set (_top := js_substr table 0 (js_indexOf table "[" 0)).
    assert (js_includes _top "." = false ∧ js_includes _top "[" = false)
      as [Hdot' Hbr'].
    { subst _top. rewrite !js_includes_false. rewrite js_includes_false in Hdot.
      unfold js_includes in Hbr. rewrite js_indexOf_0 in *.
      destruct (find_char "[" (chars table)) as [k|] eqn:Hk; [|done].
      pose proof (find_char_lt _ _ _ Hk) as Hlt.
      rewrite js_substr_prefix by lia.
      split; [by apply find_char_take_none|by apply find_char_take_before]. }
    rewrite parseTablePath_plain by done. eauto.
  - rewrite parseTablePath_plain by done. eauto.
Qed.

(** [_parseTablePath] returns for every path. *)
Lemma _parseTablePath_total (table : string) column row :
  is_Some (_parseTablePath table column row).
Proof.
  unfold _parseTablePath. destruct (js_includes table ".") eqn:Hdot.
  - rewrite parseTablePath_step, Hdot.
    unfold js_split. destruct (split_chars "." (chars table)) as [piece pieces] eqn:Hs.
    apply parseTablePath_no_dot. apply js_includes_false.
    rewrite chars_of_chars.
    pose proof (split_chars_first "." (chars table)) as Hfirst.
    by rewrite Hs in Hfirst.
  - by apply parseTablePath_no_dot.
Qed.

Example parseTablePath_examples :
  _parseTablePath "people" (Some "age") None = Some ("people", Some "age", None) ∧
  _parseTablePath "people.age" None None = Some ("people", Some "age", None) ∧
  _parseTablePath "people[age]" None None = Some ("people", Some "age", None) ∧
  _parseTablePath "people[age][3]" None None
    = Some ("people", Some "age", Some "3") ∧
  _parseTablePath "people" None None = Some ("people", None, None) ∧
  _parseTablePath "people." None None = Some ("people", Some "", None).
Proof. split_and!; reflexivity. Qed.

(** ** Writing and running *)

Section TrilogyFacts.

Context {DB FS : Type} `{Engine DB} `{FileSystem FS} `{Knex}.

Lemma errorHandler_error (name message : string) (t : Trilogy DB FS) :
  _errorHandler (VError name message) None t =
  (if errorListener t
   then observe (ErrorListener (VError "TrilogyError" message)) t else t,
   inr (VError "TrilogyError" message)).
Proof. reflexivity. Qed.

Lemma errorHandler_disk (err : Value) (msg : option string) (t : Trilogy DB FS) :
  disk (_errorHandler err msg t).1 = disk t ∧
  db (_errorHandler err msg t).1 = db t ∧
  fileName (_errorHandler err msg t).1 = fileName t.
Proof.
  unfold _errorHandler.
  destruct err; try done; destruct msg; simpl; by destruct (errorListener t).
Qed.

(** A write that goes through. *)
Lemma write_succeeds (t : Trilogy DB FS) d data fs' :
  db t = Some d →
  sql_export d = inr data →
  jetpack_file (disk t) (fileName t) data = (fs', None) →
  _write t = (set_disk fs' t, None).
Proof.
  intros Hdb Hexp Hfile. unfold _write. rewrite Hdb. simpl.
  by rewrite Hdb, Hexp, Hfile.
Qed.

Lemma exec_disk (query : Query) (t : Trilogy DB FS) :
  disk (exec query t).1 = disk t ∧ fileName (exec query t).1 = fileName t.
Proof.
  unfold exec. destruct (db t) as [d|].
  - by destruct (sql_exec d (query_text query)) as [d' [e|val]].
  - unfold rejected_by.
    pose proof (errorHandler_disk (VString constants_ERR_NO_DATABASE) None t)
      as (Hdisk & _ & Hname).
    by destruct (_errorHandler (VString constants_ERR_NO_DATABASE) None t)
      as [t' [e|e]].
Qed.

(** ** Persistence and failure *)

(** C2.  When a statement executed through [run] succeeds, and the export
    and the write of the file go through, [run] resolves with the backing
    file overwritten by the image exported from the database the statement
    left; that is the disk on which the file then reads back as that image.
    Whatever [exec] is given and however it ends, it leaves the disk as it
    was. *)
Theorem run_persists_exec_does_not {laws : FileSystemLaws FS}
    (query : Query) (t : Trilogy DB FS) (d d' : DB) (data : bytes) (fs' : FS) :
  db t = Some d →
  sql_run d (query_text query) = (d', None) →
  sql_export d' = inr data →
  jetpack_file (disk t) (fileName t) data = (fs', None) →
  run query t =
    (set_disk fs' (set_db (Some d') (observe (Verbose (query_text query)) t)),
     Resolved tt) ∧
  jetpack_read (disk (run query t).1) (fileName t) = Some data ∧
  (∀ (query' : Query) (t' : Trilogy DB FS), disk (exec query' t').1 = disk t').
Proof.
  intros Hdb Hrun Hexp Hfile.
  assert (run query t =
    (set_disk fs' (set_db (Some d') (observe (Verbose (query_text query)) t)),
     Resolved tt)) as Hres.
  { unfold run. rewrite Hdb, Hrun.
    by rewrite (write_succeeds _ d' data fs'). }
  split_and!; [done| |intros; apply exec_disk].
  rewrite Hres. simpl. by eapply written_read.
Qed.

(** C3, as amended.  When the statement [run] executes fails, nothing is
    exported: the disk is what it was, and [run] rejects with the very error
    the engine threw.  An operation that passes that error through
    [_errorHandler] rejects with the same error renamed ['TrilogyError'],
    its message untouched.  The statement text is handed to [verbose] and
    is not attached to the error. *)
Theorem failed_statement_keeps_disk_and_rejects_with_engine_error
    (query : Query) (t : Trilogy DB FS) (d d' : DB) (e : Value) :
  db t = Some d →
  sql_run d (query_text query) = (d', Some e) →
  run query t =
    (set_db (Some d') (observe (Verbose (query_text query)) t), Rejected e) ∧
  disk (run query t).1 = disk t ∧
  (∀ name message (t' : Trilogy DB FS), e = VError name message →
     (_errorHandler e None t').2 = inr (VError "TrilogyError" message) ∧
     disk (_errorHandler e None t').1 = disk t').
Proof.
  intros Hdb Hrun.
  assert (run query t =
    (set_db (Some d') (observe (Verbose (query_text query)) t), Rejected e))
    as Hres by (unfold run; by rewrite Hdb, Hrun).
  split_and!; [done|by rewrite Hres|].
  intros name message t' ->. split; [done|apply errorHandler_disk].
Qed.

(** ** Decrement *)

Lemma append_assoc (a b c : string) : (a +:+ b) +:+ c = a +:+ (b +:+ c).
Proof.
  induction a as [|x a IH]; [done|]. exact (f_equal (String x) IH).
Qed.

(** *** How SQLite reads the text of a decrement *)

Lemma letter_not_digit (c : ascii) : is_letter c = true → is_digit c = false.
Proof. by destruct c as [[] [] [] [] [] [] [] []]. Qed.

Lemma join_here (here : list Token) (after : option (list Token)) :
  join (Some []) here after = (here ++.) <$> after.
Proof. by destruct after. Qed.

Lemma tokenize_flush (p : Pending) (rest : list ascii) (ts : list Token) :
  flushes rest → emit p = Some ts →
  tokenize p rest = (ts ++.) <$> tokenize NoToken rest.
Proof.
  intros Hrest Hemit. destruct rest as [|c rest]; simpl.
  - by rewrite Hemit, app_nil_r.
  - destruct Hrest as [-> ->]. rewrite Hemit.
    destruct (is_space c); [by destruct (tokenize NoToken rest)|].
    destruct (Ascii.eqb c "("); [by destruct (tokenize NoToken rest)|].
    destruct (Ascii.eqb c ")"); [by destruct (tokenize NoToken rest)|].
    destruct (Ascii.eqb c ","); [by destruct (tokenize NoToken rest)|].
    destruct (Ascii.eqb c "-"); [|done].
    destruct rest as [|c' rest]; [done|].
    destruct (Ascii.eqb_spec c' "-") as [->|Hc']; [done|].
    assert (∀ X : option (list Token),
              match c' with "-"%char => None | _ => X end = X) as Hnot.
    { intros X. by destruct c' as [[] [] [] [] [] [] [] []]. }
    rewrite !Hnot. by destruct (tokenize NoToken (c' :: rest)).
Qed.

Lemma tokenize_word (read l rest : list ascii) :
  forallb (λ x, is_letter x || is_digit x) l = true →
  tokenize (Word read) (l ++ rest) = tokenize (Word (read ++ l)) rest.
Proof.
  revert read. induction l as [|c l IH]; intros read Hl; simpl.
  - by rewrite app_nil_r.
  - apply andb_true_iff in Hl as [Hc Hl].
    replace (read ++ c :: l) with ((read ++ [c]) ++ l)
      by (by rewrite <- app_assoc).
    destruct (is_digit c) eqn:Hd; [by apply IH|].
    rewrite orb_false_r in Hc. rewrite Hc. by apply IH.
Qed.

Lemma tokenize_digits (read l rest : list ascii) :
  forallb is_digit l = true →
  tokenize (Digits read) (l ++ rest) = tokenize (Digits (read ++ l)) rest.
Proof.
  revert read. induction l as [|c l IH]; intros read Hl; simpl.
  - by rewrite app_nil_r.
  - apply andb_true_iff in Hl as [Hc Hl]. rewrite Hc.
    replace (read ++ c :: l) with ((read ++ [c]) ++ l)
      by (by rewrite <- app_assoc).
    by apply IH.
Qed.

(** A name is read as one identifier. *)
Lemma tokens_identifier (name : string) (rest : list ascii) :
  sql_identifier name = true → flushes rest →
  tokenize NoToken (chars name ++ rest) = (TId name ::.) <$> tokenize NoToken rest.
Proof.
  unfold sql_identifier. intros Hname Hrest.
  destruct (chars name) as [|c l] eqn:Hchars; [done|].
  apply andb_true_iff in Hname as [Hname Hkeyword].
  apply andb_true_iff in Hname as [Hc Hl].
  apply negb_true_iff in Hkeyword.
  change ((c :: l) ++ rest) with (c :: (l ++ rest)).
  cbn [tokenize]. rewrite (letter_not_digit c Hc), Hc.
  rewrite tokenize_word by done.
  rewrite (tokenize_flush _ rest [TId name] Hrest); [done|].
  cbn [emit app]. rewrite Hkeyword, <- Hchars. by rewrite of_chars_chars.
Qed.

Lemma uint_digits (d : Decimal.uint) :
  forallb is_digit (chars (NilEmpty.string_of_uint d)) = true.
Proof. induction d; [done|exact IHd..]. Qed.

(** The text of a safe integer that is not negative is read as that
    integer. *)
Lemma tokens_integer (n : Z) (rest : list ascii) :
  0 ≤ n → int64 n = true → flushes rest →
  tokenize NoToken (chars (js_number_toString n) ++ rest)
  = (TInt n ::.) <$> tokenize NoToken rest.
Proof.
  intros Hn H64 Hrest.
  assert (∃ u, js_number_toString n = NilEmpty.string_of_uint u ∧
               u ≠ Decimal.Nil ∧
               NilZero.uint_of_string (js_number_toString n) = Some u ∧
               Z.of_uint u = n) as (u & Htext & Hu & Hread & Hvalue).
  { destruct n as [|p|p]; [by exists (Decimal.D0 Decimal.Nil)| |lia].
    exists (Pos.to_uint p).
    pose proof (DecimalPos.Unsigned.to_uint_nonnil p) as Hnil.
    unfold js_number_toString. cbn [Z.to_int NilZero.string_of_int].
    split_and!.
    - by destruct (Pos.to_uint p).
    - done.
    - by apply NilZero.usu.
    - unfold Z.of_uint. by rewrite DecimalPos.Unsigned.of_to. }
  pose proof (uint_digits u) as Hdigits. rewrite <- Htext in Hdigits.
  destruct (chars (js_number_toString n)) as [|c l] eqn:Hchars.
  { exfalso. apply Hu. rewrite Htext in Hchars. by destruct u. }
  apply andb_true_iff in Hdigits as [Hc Hl].
  change ((c :: l) ++ rest) with (c :: (l ++ rest)).
  cbn [tokenize]. rewrite Hc. rewrite tokenize_digits by done.
  rewrite (tokenize_flush _ rest [TInt n] Hrest); [done|].
  cbn [emit app]. rewrite <- Hchars, of_chars_chars, Hread, Hvalue.
  by rewrite H64.
Qed.

Lemma safe_is_int64 (n : Z) : isSafeInteger n = true → int64 n = true.
Proof.
  unfold isSafeInteger, MAX_SAFE_INTEGER, int64. intros Hn.
  apply Z.leb_le in Hn. apply andb_true_iff. split; apply Z.leb_le; lia.
Qed.

Lemma tokens_amount (amount : Z) (rest : list ascii) :
  isSafeInteger amount = true → flushes rest →
  tokenize NoToken (chars (js_number_toString amount) ++ rest)
  = (amount_tokens amount ++.) <$> tokenize NoToken rest.
Proof.
  intros Hsafe Hrest. destruct amount as [|p|p].
  - by rewrite tokens_integer.
  - rewrite tokens_integer; [done|lia|by apply safe_is_int64|done].
  - assert (js_number_toString (Z.neg p)
            = "-" +:+ js_number_toString (Z.pos p)) as -> by done.
    change (chars ("-" +:+ js_number_toString (Z.pos p)))
      with ("-"%char :: chars (js_number_toString (Z.pos p))).
    assert (∃ c l, chars (js_number_toString (Z.pos p)) = c :: l ∧
                   is_digit c = true) as (c & l & Hchars & Hc).
    { pose proof (uint_digits (Pos.to_uint p)) as Hd.
      pose proof (DecimalPos.Unsigned.to_uint_nonnil p) as Hnil.
      unfold js_number_toString. cbn [Z.to_int NilZero.string_of_int].
      destruct (Pos.to_uint p) eqn:Hu; [done|..];
        apply andb_true_iff in Hd as [Hd _]; eauto. }
    assert (tokenize NoToken
              (("-"%char :: chars (js_number_toString (Z.pos p))) ++ rest)
            = (TMinus ::.) <$>
              tokenize NoToken (chars (js_number_toString (Z.pos p)) ++ rest))
      as ->.
    { rewrite Hchars. change (("-"%char :: c :: l) ++ rest)
        with ("-"%char :: c :: (l ++ rest)).
      change ((c :: l) ++ rest) with (c :: (l ++ rest)).
      cbn [tokenize]. change (is_digit "-") with false.
      change (is_letter "-") with false. change (is_space "-") with false.
      change (Ascii.eqb "-" "(") with false.
      change (Ascii.eqb "-" ")") with false.
      change (Ascii.eqb "-" ",") with false.
      change (Ascii.eqb "-" "-") with true. cbv iota.
      assert (∀ X : option (list Token),
                match c with "-"%char => None | _ => X end = X) as Hnot.
      { intros X. by destruct c as [[] [] [] [] [] [] [] []]. }
      rewrite Hnot. cbn [emit]. rewrite Hc. by rewrite join_here. }
    rewrite tokens_integer;
      [|lia|apply safe_is_int64; by rewrite <- Hsafe|done].
    by destruct (tokenize NoToken rest).
Qed.

Lemma tokens_space (rest : list ascii) :
  tokenize NoToken (" "%char :: rest) = tokenize NoToken rest.
Proof. cbn. by destruct (tokenize NoToken rest). Qed.

(** [col - amount] *)
Lemma tokens_difference (col : string) (amount : Z) (rest : list ascii) :
  sql_identifier col = true → isSafeInteger amount = true → flushes rest →
  tokenize NoToken
    (chars (col +:+ " - " +:+ js_number_toString amount) ++ rest)
  = (([TId col; TMinus] ++ amount_tokens amount) ++.) <$> tokenize NoToken rest.
Proof.
  intros Hcol Hsafe Hrest. rewrite chars_app.
  change (chars (" - " +:+ js_number_toString amount))
    with (" "%char :: "-"%char :: " "%char :: chars (js_number_toString amount)).
  rewrite <- app_assoc.
  rewrite tokens_identifier; [|done|by split].
  change ((" "%char :: "-"%char :: " "%char
             :: chars (js_number_toString amount)) ++ rest)
    with (" "%char :: "-"%char :: " "%char
            :: (chars (js_number_toString amount) ++ rest)).
  rewrite tokens_space.
  assert (∀ l, tokenize NoToken ("-"%char :: " "%char :: l)
               = (TMinus ::.) <$> tokenize NoToken l) as ->.
  { intros l. cbn. by destruct (tokenize NoToken l). }
  rewrite tokens_amount by done.
  by destruct (tokenize NoToken rest).
Qed.

(** The text [decrement] hands to [knex.raw] is read by SQLite as the
    expression [decrement_expr]. *)
Lemma decrement_rawStr_parsed (allowNegative : bool) (col : string) (amount : Z) :
  sql_identifier col = true → isSafeInteger amount = true →
  sql_parse (decrement_rawStr allowNegative col amount)
  = Some (decrement_expr allowNegative col amount).
Proof.
  intros Hcol Hsafe. unfold sql_parse, sql_tokens, decrement_rawStr, decrement_expr.
  destruct allowNegative.
  - pose proof (tokens_difference col amount [] Hcol Hsafe I) as Htokens.
    rewrite app_nil_r in Htokens. rewrite Htokens.
    by destruct amount.
  - assert (chars ("MAX(0, " +:+ col +:+ " - " +:+ js_number_toString amount +:+ ")")
            = chars "MAX" ++ "("%char :: (chars (js_number_toString 0) ++
                ","%char :: " "%char ::
                  (chars (col +:+ " - " +:+ js_number_toString amount)
                     ++ [")"%char]))) as ->.
    { change ("MAX(0, " +:+ col +:+ " - " +:+ js_number_toString amount +:+ ")")
        with ("MAX(0, " +:+ (col +:+ (" - " +:+ (js_number_toString amount +:+ ")")))).
      rewrite <- (append_assoc " - "), <- (append_assoc col).
      by rewrite (chars_app "MAX(0, "), (chars_app _ ")"). }
    rewrite tokens_identifier; [|done|by split].
    assert (∀ l, tokenize NoToken ("("%char :: l)
                 = (TLParen ::.) <$> tokenize NoToken l) as ->.
    { intros l. cbn. by destruct (tokenize NoToken l). }
    rewrite tokens_integer; [|done|done|by split].
    assert (∀ l, tokenize NoToken (","%char :: l)
                 = (TComma ::.) <$> tokenize NoToken l) as ->.
    { intros l. cbn. by destruct (tokenize NoToken l). }
    rewrite tokens_space.
    rewrite tokens_difference; [|done|done|by split].
    assert (tokenize NoToken [")"%char] = Some [TRParen]) as -> by done.
    by destruct amount.
Qed.

(** *** The value of the expression *)

Lemma sql_max_zero_not_negative (v : SqlValue) :
  sql_negative (sql_max (SqlInteger 0) v) = false.
Proof.
  destruct v as [|n|f]; [done|..]; unfold sql_max;
    case_bool_decide as Hlt; unfold sql_negative; try done;
    apply bool_decide_eq_false; cbn [sql_compare] in *.
  - intros Hneg. rewrite Z.compare_lt_iff in Hlt, Hneg. lia.
  - by destruct (real_compare_int f 0).
Qed.

Lemma sql_max_zero_integer (n : Z) :
  sql_max (SqlInteger 0) (SqlInteger n) = SqlInteger (Z.max 0 n).
Proof.
  unfold sql_max. cbn [sql_compare].
  case_bool_decide as Hlt; rewrite Z.compare_lt_iff in Hlt; f_equal; lia.
Qed.

(** C4.  A decrement whose arguments are accepted and name a column, by an
    amount that is a safe integer (1 when left out), runs an update that
    assigns the column one raw expression, which SQLite reads, for a column
    name that is an identifier, as follows.  With [allowNegative] left out
    or false the text is [MAX(0, column - amount)], read as the larger of 0
    and the difference: whatever the row holds in the column, its value is
    not below 0, and on a row with an integer in the column it is the larger
    of 0 and the difference.  With [allowNegative] true the text is
    [column - amount], read as the difference, which is below 0 as soon as
    the amount exceeds the integer in the column.  (The values are SQLite's:
    the integers of 64 bits, where a difference that does not fit becomes a
    REAL; the exact values are stated for the differences that fit.) *)
Theorem decrement_clamps_at_zero_unless_allowed
    (args : DecrementArgs) (t : Trilogy DB FS) (criteria : Value)
    (tbl col : string) (r : option string) :
  arify_where (dec_where args) = inr criteria →
  _parseTablePath (dec_table args) (dec_column args) None = Some (tbl, Some col, r) →
  sql_identifier col = true →
  isSafeInteger (default 1 (dec_amount args)) = true →
  let amount := default 1 (dec_amount args) in
  let allowNegative := default false (dec_allowNegative args) in
  let rawStr := decrement_rawStr allowNegative col amount in
  let query := _sanitizeWhere criteria (qb_update col rawStr (knex_table tbl)) in
  decrement_plan args = Planned query ∧
  qb_statement query = Some (Update col rawStr) ∧
  decrement args t =
    match run (QueryChain query) t with
    | (t', Resolved _) => (t', Resolved tt)
    | (t', Rejected err) => rejected_by (_errorHandler err None t')
    end ∧
  (allowNegative = false →
     rawStr = "MAX(0, " +:+ col +:+ " - " +:+ js_number_toString amount +:+ ")" ∧
     sql_parse rawStr
       = Some (SqlMax (SqlInt 0) (SqlSub (SqlColumn col) (SqlInt amount))) ∧
     (∀ row, ∃ v, sql_value row rawStr = Some v ∧ sql_negative v = false) ∧
     (∀ row x, row col = SqlInteger x → int64 x = true →
               int64 (x - amount) = true →
               sql_value row rawStr = Some (SqlInteger (Z.max 0 (x - amount))))) ∧
  (allowNegative = true →
     rawStr = col +:+ " - " +:+ js_number_toString amount ∧
     sql_parse rawStr = Some (SqlSub (SqlColumn col) (SqlInt amount)) ∧
     (∀ row x, row col = SqlInteger x → int64 x = true →
               int64 (x - amount) = true →
               sql_value row rawStr = Some (SqlInteger (x - amount)) ∧
               (x < amount → sql_negative (SqlInteger (x - amount)) = true))).
Proof.
  intros Hwhere Hpath Hcol Hsafe amount allowNegative rawStr query.
  assert (truthy (VString col) = true) as Htruthy.
  { simpl. destruct (String.eqb_spec col "") as [->|]; [done|reflexivity]. }
  assert (decrement_plan args = Planned query) as Hplan.
  { unfold decrement_plan. rewrite Hwhere, Hpath. simpl from_option.
    by rewrite Htruthy. }
  pose proof (decrement_rawStr_parsed allowNegative col amount Hcol Hsafe)
    as Hparsed. fold rawStr in Hparsed.
  split_and!.
  - done.
  - subst query. unfold _sanitizeWhere.
    destruct criteria; try done; by destruct (isFunction _).
  - unfold decrement. by rewrite Hplan.
  - intros Hflag. subst rawStr. rewrite Hflag in *.
    unfold sql_value. rewrite Hparsed. split_and!; [done|done| |].
    + intros row. eexists. split; [done|]. apply sql_max_zero_not_negative.
    + intros row x Hx _ Hfits.
      change (Some (sql_max (SqlInteger 0)
                      (sql_sub (row col) (SqlInteger amount)))
              = Some (SqlInteger (Z.max 0 (x - amount)))).
      rewrite Hx. cbn [sql_sub]. rewrite Hfits.
      by rewrite sql_max_zero_integer.
  - intros Hflag. subst rawStr. rewrite Hflag in *.
    unfold sql_value. rewrite Hparsed. split_and!; [done|done|].
    intros row x Hx _ Hfits.
    change (Some (sql_sub (row col) (SqlInteger amount))
            = Some (SqlInteger (x - amount)) ∧
            (x < amount → sql_negative (SqlInteger (x - amount)) = true)).
    rewrite Hx. cbn [sql_sub]. rewrite Hfits.
    split; [done|]. intros Hlt. apply bool_decide_eq_true.
    cbn [sql_compare]. rewrite Z.compare_lt_iff. lia.
Qed.

(** ** Criteria *)

Lemma isValidWhere_shapes (v : Value) :
  _isValidWhere v = true ↔
  (∃ props, v = VObject props) ∨
  (∃ a b, v = VArray [a; b]) ∨
  (∃ a b c, v = VArray [a; b; c]) ∨
  (∃ f, v = VFunction f).
Proof.
  split.
  - destruct v as [| | | | | | |items| | |]; simpl; try discriminate; eauto 6.
    destruct items as [|a [|b [|c [|? ?]]]]; simpl; try discriminate;
      naive_solver.
  - intros [[? ->]|[(? & ? & ->)|[(? & ? & ? & ->)|[? ->]]]]; reflexivity.
Qed.

(** C5.  [_isValidWhere] accepts exactly a plain object, an array of
    length 2, an array of length 3 and a function.  Given any other value as
    criteria, [decrement] and [count] report the validation failure
    [InvalidCriteriaKind] to the caller and leave the instance, its database
    and the disk untouched: nothing was run, prepared or shown to
    [verbose]. *)
Theorem criteria_validation_accepts_four_shapes (v : Value) :
  (_isValidWhere v = true ↔
     (∃ props, v = VObject props) ∨
     (∃ a b, v = VArray [a; b]) ∨
     (∃ a b c, v = VArray [a; b; c]) ∨
     (∃ f, v = VFunction f)) ∧
  (_isValidWhere v = false →
     ∃ message,
       (∀ (args : DecrementArgs) (t : Trilogy DB FS),
          dec_where args = Some v →
          decrement args t = (t, Rejected (VError "InvalidCriteriaKind" message))) ∧
       (∀ (args : CountArgs) (t : Trilogy DB FS),
          cnt_where args = Some v →
          count args t = (t, inl (VError "InvalidCriteriaKind" message)))).
Proof.
  split; [apply isValidWhere_shapes|].
  intros Hinvalid. eexists. split.
  - intros args t Hw. unfold decrement, decrement_plan, arify_where.
    by rewrite Hw, Hinvalid.
  - intros args t Hw. unfold count, arify_where. by rewrite Hw, Hinvalid.
Qed.

(** ** Count *)

Lemma count_result_found (props : list (string * Value)) (v : Value) :
  get_prop "count" props = Some v → count_result (VObject props) = v.
Proof.
  intros Hv. unfold count_result. simpl.
  by rewrite Hv, bool_decide_true by eauto.
Qed.

Lemma count_result_default (res : Value) :
  (∀ props v, res = VObject props → get_prop "count" props ≠ Some v) →
  count_result res = VNumber 0.
Proof.
  intros Hno. unfold count_result. destruct res; try done. simpl.
  destruct (get_prop "count" props) as [v|] eqn:Hv.
  - by destruct (Hno props v).
  - rewrite bool_decide_false; [done|]. by intros [? ?].
Qed.

(** C7.  A count whose statement the engine answers resolves: to the
    [count] field of the answer when the answer is a plain object that has
    one, and to 0 (not null, not undefined) otherwise.  The count the engine
    reports being an integer, so is what [count] resolves to. *)
Theorem count_resolves_to_count_field_or_zero
    (args : CountArgs) (t : Trilogy DB FS) (criteria : Value)
    (d d' : DB) (res : Value) :
  arify_where (cnt_where args) = inr criteria →
  db t = Some d →
  sql_getAsObject d (count_query args criteria) = (d', inr res) →
  count args t = (set_db (Some d') t, inr (Resolved (count_result res))) ∧
  (∀ props v, res = VObject props → get_prop "count" props = Some v →
              count_result res = v) ∧
  ((∀ props v, res = VObject props → get_prop "count" props ≠ Some v) →
   count_result res = VNumber 0) ∧
  ((∀ props v, res = VObject props → get_prop "count" props = Some v →
               ∃ n, v = VNumber n) →
   ∃ n, count_result res = VNumber n).
Proof.
  intros Hwhere Hdb Hget. split_and!.
  - unfold count. by rewrite Hwhere, Hdb, Hget.
  - intros props v -> Hv. by apply count_result_found.
  - apply count_result_default.
  - intros Hint. destruct res; try (by exists 0).
    destruct (get_prop "count" props) as [v|] eqn:Hv.
    + destruct (Hint props v eq_refl Hv) as [n ->].
      exists n. by apply count_result_found.
    + exists 0. apply count_result_default. by intros ? ? [= <-]; rewrite Hv.
Qed.

(** ** Opening *)

(** C8.  Opening a database at a path: when the file exists, what is read
    from it is loaded into a new engine and nothing is written; when it
    does not, a new empty engine is created and exported at once, in one
    write of the file, after which the file exists and holds the exported
    image. *)
Theorem open_loads_the_file_or_creates_it {laws : FileSystemLaws FS}
    (name : string) (listener : bool) (fs : FS) :
  name ≠ "" →
  (jetpack_exists fs name = true →
     new_Trilogy name listener fs =
     inr (mkTrilogy name (Some (sql_open (jetpack_read fs name))) listener fs [])) ∧
  (jetpack_exists fs name = false →
     ∀ data fs',
       sql_export (sql_open None) = inr data →
       jetpack_file fs name data = (fs', None) →
       new_Trilogy name listener fs =
         inr (mkTrilogy name (Some (sql_open None)) listener fs' []) ∧
       jetpack_exists fs' name = true ∧
       jetpack_read fs' name = Some data).
Proof.
  intros Hname.
  assert (truthy (VString name) = true) as Htruthy.
  { simpl. destruct (String.eqb_spec name ""); [done|reflexivity]. }
  split.
  - intros Hexists. unfold new_Trilogy, _init. rewrite Htruthy. simpl.
    by rewrite Hexists.
  - intros Hmissing data fs' Hexp Hfile. split_and!.
    + unfold new_Trilogy, _init. rewrite Htruthy. simpl. rewrite Hmissing.
      by rewrite (write_succeeds _ (sql_open None) data fs').
    + by eapply written_exists.
    + by eapply written_read.
Qed.

End TrilogyFacts.

Import Bench.

Lemma bench_disk_laws : FileSystemLaws (gmap string bytes).
Proof.
  split; intros fs path data fs'; simpl; intros [= <-].
  - rewrite bool_decide_eq_true, lookup_insert_eq. eauto.
  - apply lookup_insert_eq.
Qed.

Lemma run_persists_exec_does_not_witness :
  let q := QueryText "insert into people values ('Bob', 17)" in
  let d' := ["create table people"; "insert into people values ('Bob', 17)"] in
  let fs' := <["storage.db" := Bench.image d']> (disk Bench.opened) in
  db Bench.opened = Some ["create table people"] ∧
  sql_run ["create table people"] (query_text q) = (d', None) ∧
  sql_export d' = inr (Bench.image d') ∧
  jetpack_file (disk Bench.opened) "storage.db" (Bench.image d') = (fs', None) ∧
  run q Bench.opened =
    (set_disk fs' (set_db (Some d') (observe (Verbose (query_text q)) Bench.opened)),
     Resolved tt) ∧
  jetpack_read (disk (run q Bench.opened).1) "storage.db" = Some (Bench.image d').
Proof.
  intros q d' fs'.
  assert (db Bench.opened = Some ["create table people"]) as H1 by reflexivity.
  assert (sql_run ["create table people"] (query_text q) = (d', None)) as H2
    by reflexivity.
  assert (sql_export d' = inr (Bench.image d')) as H3 by reflexivity.
  assert (jetpack_file (disk Bench.opened) (fileName Bench.opened)
            (Bench.image d') = (fs', None)) as H4 by reflexivity.
  destruct (run_persists_exec_does_not (laws := bench_disk_laws)
              q Bench.opened _ d' _ fs' H1 H2 H3 H4) as (Hrun & Hread & _).
  split_and!; assumption.
Defined.

(** When the disk refuses the write, [run] resolves all the same: the
    failure goes to the error listener and the file stays as it was. *)
Example run_resolves_when_the_write_fails :
  let q := QueryText "insert into people values ('Bob', 17)" in
  (run q Bench.opened_read_only).2 = Resolved tt ∧
  disk (run q Bench.opened_read_only).1 = disk Bench.opened_read_only ∧
  observed (run q Bench.opened_read_only).1 =
    [Verbose "insert into people values ('Bob', 17)";
     ErrorListener (VError "TrilogyError" "EROFS: read-only file system")].
Proof. split_and!; reflexivity. Qed.

Example contains_examples :
  contains "drop" "cannot drop table" = true ∧
  contains "drop" "near line 1: syntax error" = false.
Proof. split; reflexivity. Qed.

(** The statement [drop table people] fails on the bench engine; what
    [run] rejects with, and what [_errorHandler] makes of it, do not contain
    the statement. *)
Example failed_statement_on_the_bench :
  let q := "drop table people" in
  ∃ t',
    run (QueryText q) Bench.opened
      = (t', Rejected (VError "Error" "near line 1: syntax error")) ∧
    disk t' = disk Bench.opened ∧
    tagged_with q (VError "Error" "near line 1: syntax error") = false ∧
    (_errorHandler (VError "Error" "near line 1: syntax error") None t').2
      = inr (VError "TrilogyError" "near line 1: syntax error") ∧
    tagged_with q (VError "TrilogyError" "near line 1: syntax error") = false.
Proof. eexists. split_and!; reflexivity. Qed.

(** C3 as the specification words it does not hold: the rejection of a
    failed statement is not tagged with the statement text. *)
Lemma failed_statement_is_not_tagged : ¬ rejection_tagged_with_statement.
Proof.
  intros Htagged.
  destruct (Htagged Db (gmap string bytes) bench_engine bench_disk bench_knex
              (QueryText "drop table people") Bench.opened
              ["create table people"] ["create table people"]
              (VError "Error" "near line 1: syntax error") eq_refl eq_refl)
    as (t' & e' & Hrun & Htag).
  injection Hrun as <- <-. discriminate Htag.
Qed.

Lemma failed_statement_keeps_disk_and_rejects_with_engine_error_witness :
  let q := QueryText "drop table people" in
  let e := VError "Error" "near line 1: syntax error" in
  db Bench.opened = Some ["create table people"] ∧
  sql_run ["create table people"] (query_text q)
    = (["create table people"], Some e) ∧
  run q Bench.opened =
    (set_db (Some ["create table people"])
       (observe (Verbose (query_text q)) Bench.opened), Rejected e) ∧
  disk (run q Bench.opened).1 = disk Bench.opened.
Proof.
  intros q e.
  assert (db Bench.opened = Some ["create table people"]) as H1 by reflexivity.
  assert (sql_run ["create table people"] (query_text q)
          = (["create table people"], Some e)) as H2 by reflexivity.
  destruct (failed_statement_keeps_disk_and_rejects_with_engine_error
              q Bench.opened _ _ e H1 H2) as (Hrun & Hdisk & _).
  split_and!; assumption.
Defined.

Lemma decrement_clamps_at_zero_unless_allowed_witness :
  let args := mkDecrement "people.age" None (Some 100) (Some Demo.bob) None in
  arify_where (dec_where args) = inr Demo.bob ∧
  _parseTablePath (dec_table args) (dec_column args) None
    = Some ("people", Some "age", None) ∧
  sql_identifier "age" = true ∧
  isSafeInteger 100 = true ∧
  decrement_plan args =
    Planned (mkQuery "people" (Some (Update "age" "MAX(0, age - 100)"))
               [WhereObject Demo.bob]) ∧
  sql_parse "MAX(0, age - 100)"
    = Some (SqlMax (SqlInt 0) (SqlSub (SqlColumn "age") (SqlInt 100))) ∧
  (∀ row, ∃ v, sql_value row "MAX(0, age - 100)" = Some v ∧
               sql_negative v = false) ∧
  (∀ row x, row "age" = SqlInteger x → int64 x = true →
            int64 (x - 100) = true →
            sql_value row "MAX(0, age - 100)"
            = Some (SqlInteger (Z.max 0 (x - 100)))).
Proof.
  intros args.
  assert (arify_where (dec_where args) = inr Demo.bob) as H1 by reflexivity.
  assert (_parseTablePath (dec_table args) (dec_column args) None
          = Some ("people", Some "age", None)) as H2 by reflexivity.
  assert (sql_identifier "age" = true) as H3 by reflexivity.
  assert (isSafeInteger (default 1 (dec_amount args)) = true) as H4
    by reflexivity.
  destruct (decrement_clamps_at_zero_unless_allowed args Bench.opened
              Demo.bob "people" "age" None H1 H2 H3 H4)
    as (Hplan & _ & _ & Hclamp & _).
  destruct (Hclamp eq_refl) as (_ & Hparsed & Hlow & Hval).
  split_and!; [exact H1|exact H2|exact H3|exact H4|exact Hplan|exact Hparsed|
               exact Hlow|exact Hval].
Defined.

(** Bob is 18: a decrement by 100 leaves 0, and -82 when negative values
    are allowed.  On the smallest integer there is, the difference does not
    fit 64 bits and is a REAL, which the clamp turns into 0 all the same. *)
Example decrement_bob :
  let age := λ name : string,
    if String.eqb name "age" then SqlInteger 18 else SqlNull in
  let least := λ _ : string, SqlInteger (- 2 ^ 63) in
  decrement_rawStr false "age" 100 = "MAX(0, age - 100)" ∧
  sql_value age (decrement_rawStr false "age" 100) = Some (SqlInteger 0) ∧
  decrement_rawStr true "age" 100 = "age - 100" ∧
  sql_value age (decrement_rawStr true "age" 100) = Some (SqlInteger (-82)) ∧
  sql_value age (decrement_rawStr true "age" (-5)) = Some (SqlInteger 23) ∧
  sql_value least (decrement_rawStr false "age" 100) = Some (SqlInteger 0) ∧
  sql_negative <$> sql_value least (decrement_rawStr true "age" 100)
    = Some true ∧
  sql_parse "MAX(0, order - 100)" = None ∧
  sql_parse "MAX(0, age - 1e+21)" = None.
Proof. split_and!; reflexivity. Qed.

Lemma criteria_validation_accepts_four_shapes_witness :
  let v := VString "name = 'Bob'" in
  _isValidWhere v = false ∧
  ∃ message,
    decrement (mkDecrement "people.age" None None (Some v) None) Bench.opened
      = (Bench.opened, Rejected (VError "InvalidCriteriaKind" message)) ∧
    count (mkCount (Some "people") None (Some v) None) Bench.opened
      = (Bench.opened, inl (VError "InvalidCriteriaKind" message)).
Proof.
  intros v.
  assert (_isValidWhere v = false) as H1 by reflexivity.
  split; [exact H1|].
  destruct (proj2 (criteria_validation_accepts_four_shapes
                     (DB := Db) (FS := gmap string bytes) v) H1)
    as (message & Hdec & Hcount).
  exists message. split; [by apply Hdec|by apply Hcount].
Defined.

Lemma count_resolves_to_count_field_or_zero_witness :
  let args := mkCount (Some "people") None None None in
  let criteria := VArray [VString "1"; VString "="; VString "1"] in
  let res := VObject [("count", VNumber 1)] in
  arify_where (cnt_where args) = inr criteria ∧
  db Bench.opened = Some ["create table people"] ∧
  sql_getAsObject ["create table people"] (count_query args criteria)
    = (["create table people"], inr res) ∧
  count args Bench.opened =
    (set_db (Some ["create table people"]) Bench.opened,
     inr (Resolved (count_result res))) ∧
  count_result res = VNumber 1.
Proof.
  intros args criteria res.
  assert (arify_where (cnt_where args) = inr criteria) as H1 by reflexivity.
  assert (db Bench.opened = Some ["create table people"]) as H2 by reflexivity.
  assert (sql_getAsObject ["create table people"] (count_query args criteria)
          = (["create table people"], inr res)) as H3 by reflexivity.
  destruct (count_resolves_to_count_field_or_zero args Bench.opened criteria
              _ _ res H1 H2 H3) as (Hcount & Hfield & _).
  split_and!; [exact H1|exact H2|exact H3|exact Hcount|].
  exact (Hfield _ _ eq_refl eq_refl).
Defined.

(** Without a row object to read the count from, [count] resolves to 0. *)
Example count_defaults_to_zero :
  count_result VUndefined = VNumber 0 ∧
  count_result VNull = VNumber 0 ∧
  count_result (VObject [("total", VNumber 3)]) = VNumber 0 ∧
  count_result (VArray [VNumber 3]) = VNumber 0.
Proof. split_and!; reflexivity. Qed.

Lemma open_loads_the_file_or_creates_it_witness :
  let fresh : gmap string bytes := ∅ in
  "storage.db" ≠ "" ∧
  jetpack_exists fresh "storage.db" = false ∧
  sql_export (sql_open None : Db) = inr [] ∧
  jetpack_file fresh "storage.db" [] = (<["storage.db" := []]> fresh, None) ∧
  new_Trilogy "storage.db" false fresh =
    inr (mkTrilogy "storage.db" (Some (sql_open None : Db)) false
           (<["storage.db" := []]> fresh) []) ∧
  jetpack_exists (<["storage.db" := []]> fresh) "storage.db" = true.
Proof.
  intros fresh.
  assert ("storage.db" ≠ "") as H1 by discriminate.
  assert (jetpack_exists fresh "storage.db" = false) as H2 by reflexivity.
  assert (sql_export (sql_open None : Db) = inr []) as H3 by reflexivity.
  assert (jetpack_file fresh "storage.db" []
          = (<["storage.db" := []]> fresh, None)) as H4 by reflexivity.
  destruct (open_loads_the_file_or_creates_it
              (DB := Db) (laws := bench_disk_laws)
              "storage.db" false fresh H1) as [_ Hcreate].
  destruct (Hcreate H2 [] _ H3 H4) as (Hnew & Hexists & _).
  split_and!; [exact H1|exact H2|exact H3|exact H4|exact Hnew|exact Hexists].
Defined.

(** Opening the file that [Bench.opened] works on loads what is in it. *)
Example open_existing_file :
  new_Trilogy "storage.db" true (disk Bench.opened) =
  inr (mkTrilogy "storage.db" (Some ["create table people"]) true
         (disk Bench.opened) []).
Proof. reflexivity. Qed.

(** * Further properties *)

(** ** The hook registry in use *)

Import Registry.

Section FiringMore.

Context {Store : Type}.
Variable behaviour : FnId → list Value → World Store → Outcome * World Store.
Variable normalizeCriteria : Value → Value + Value.

(** A loop whose body throws at the member [g] and behaves at the members
    before it ends at [g]. *)
Lemma for_of_stops_at_throw (fns : Hooks → JSSet)
    (body : FnId → Firing Store → Firing Store * option Value)
    (s1 : JSSet) (g : FnId) (s2 : JSSet) :
  let s := s1 ++ Some g :: s2 in
  (∀ fn st, fn ∈ set_values s1 → fns (hooks (f_world st)) = s →
            (body fn st).2 = None ∧ fns (hooks (f_world (body fn st).1)) = s) →
  (∀ st, ∃ e, (body g st).2 = Some e) →
  ∀ fuel i st,
    fns (hooks (f_world st)) = s →
    (i ≤ length s1)%nat →
    (length s1 - i < fuel)%nat →
    for_of fuel fns body i st =
    Some (body g (foldl (λ st fn, (body fn st).1) st (set_values (drop i s1)))).
Proof.
  intros s Hbody Hthrow.
  induction fuel as [|fuel IH]; intros i st Hs Hi Hfuel; [lia|].
  simpl. rewrite Hs. unfold JSSet in *.
  destruct (decide (i = length s1)) as [->|Hne].
  - assert (s !! length s1 = Some (Some g)) as ->
      by (by apply list_lookup_middle).
    rewrite drop_all. simpl.
    destruct (Hthrow st) as [e He].
    destruct (body g st) as [st' o]. simpl in He. by subst o.
  - assert (i < length s1)%nat as Hlt by lia.
    assert (s !! i = s1 !! i) as -> by (by apply lookup_app_l).
    destruct (s1 !! i) as [[fn|]|] eqn:Hsi.
    + rewrite (drop_S _ _ _ Hsi). simpl.
      assert (fn ∈ set_values s1) as Hin.
      { apply list_elem_of_omap. exists (Some fn). split; [|done].
        by eapply list_elem_of_lookup_2. }
      destruct (Hbody fn st Hin Hs) as [Hnone Hkeep].
      destruct (body fn st) as [st' [e|]] eqn:Hb; simpl in *; [done|].
      apply IH; [done|lia|lia].
    + rewrite (drop_S _ _ _ Hsi). simpl. apply IH; [done|lia|lia].
    + apply lookup_ge_None in Hsi. lia.
Qed.

(** X1.  When a callback of the fired event throws (or its promise
    rejects) and the callbacks registered before it return, the firing
    rejects with what was thrown: the callbacks before it were called in
    order, the thrower was the last one called, and the callbacks after it
    were not called. *)
Theorem callHook_rejects_at_first_throw
    (c : HookCall) (w : World Store) (args : list Value)
    (s1 : JSSet) (g : FnId) (s2 : JSSet) (fuel : nat) :
  hook_args normalizeCriteria c = inr args →
  fns_of c (hooks w) = s1 ++ Some g :: s2 →
  (∀ fn, fn ∈ set_values s1 → well_behaved behaviour c args fn) →
  (∀ w', ∃ e, (behaviour g args w').1 = Threw e) →
  (length s1 < fuel)%nat →
  ∃ w' e calls,
    _callHook behaviour normalizeCriteria fuel c w = Some (w', inl e, calls) ∧
    cr_fn <$> calls = set_values s1 ++ [g] ∧
    cr_outcome <$> last calls = Some (Threw e).
Proof.
  intros Hargs Hset Hwell Hthrow Hfuel. rewrite callHook_loop.
  set (st0 := mkFiring w {| prevented := false |} []).
  rewrite (for_of_stops_at_throw (fns_of c) _ s1 g s2); [| | |done|lia|lia].
  - rewrite Nat.sub_0_r || idtac. rewrite drop_0.
    rewrite (foldl_pointwise _ (λ st fn, (call_and_check behaviour fn args st).1))
      by (intros; by rewrite (hook_body_args _ _ c args)).
    destruct (calls_of_well_behaved behaviour c args _ Hwell st0)
      as (calls & Hcalls & Hfns & _).
    set (st1 := foldl _ st0 (set_values s1)) in *.
    rewrite (hook_body_args _ _ c args) by done.
    unfold call_and_check. destruct (Hthrow (f_world st1)) as [e He].
    destruct (behaviour g args (f_world st1)) as [outcome w'] eqn:Hb.
    simpl in He. subst outcome. simpl.
    eexists _, _, _. split; [done|]. rewrite Hcalls. simpl.
    rewrite fmap_app, Hfns, last_snoc. done.
  - intros fn st Hin Hs. rewrite (hook_body_args _ _ c args) by done.
    destruct (call_and_check_well_behaved behaviour c args fn st (Hwell fn Hin)).
    split; congruence.
  - intros st. rewrite (hook_body_args _ _ c args) by done.
    unfold call_and_check. destruct (Hthrow (f_world st)) as [e He].
    destruct (behaviour g args (f_world st)) as [outcome w'].
    simpl in He. subst outcome. simpl. eauto.
Qed.

(** A loop whose body throws at once throws at the first member there is,
    and ends quietly when there is none. *)
Lemma for_of_body_throws (fns : Hooks → JSSet) (e : Value) (fuel i : nat)
    (st : Firing Store) :
  (length (fns (hooks (f_world st))) - i < fuel)%nat →
  for_of fuel fns (λ _ st, (st, Some e)) i st =
  Some (st, match set_values (drop i (fns (hooks (f_world st)))) with
            | [] => None
            | _ => Some e
            end).
Proof.
  revert i. induction fuel as [|fuel IH]; intros i Hfuel; [lia|].
  simpl. unfold JSSet in *.
  destruct (fns (hooks (f_world st)) !! i) as [[fn|]|] eqn:Hi.
  - by rewrite (drop_S _ _ _ Hi).
  - rewrite (drop_S _ _ _ Hi). simpl.
    apply lookup_lt_Some in Hi. apply IH. lia.
  - apply lookup_ge_None in Hi. by rewrite drop_ge.
Qed.

(** X2.  A before-update or before-remove firing whose criteria
    [normalizeCriteria] rejects: with a listener registered the firing
    rejects with that error before any callback is called; with none, the
    criteria are never looked at and the firing resolves, nothing
    prevented. *)
Theorem callHook_checks_criteria_only_for_listeners
    (c : HookCall) (w : World Store) (e : Value) (fuel : nat) :
  hook_args normalizeCriteria c = inl e →
  (length (fns_of c (hooks w)) < fuel)%nat →
  _callHook behaviour normalizeCriteria fuel c w =
  Some (w,
        match set_values (fns_of c (hooks w)) with
        | [] => inr {| prevented := false |}
        | _ => inl e
        end,
        []).
Proof.
  intros Hargs Hfuel. rewrite callHook_loop.
  assert (hook_body behaviour normalizeCriteria c = λ _ st, (st, Some e)) as ->.
  { destruct c; simpl in Hargs; try discriminate; unfold hook_body;
      destruct (normalizeCriteria criteria); simplify_eq; reflexivity. }
  rewrite for_of_body_throws by (simpl; lia).
  simpl. rewrite drop_0. by destruct (set_values (fns_of c (hooks w))).
Qed.

(** X3.  Once its removal capability has been invoked, a callback is not
    called by the firings its registration was for. *)
Theorem unregistered_callback_is_not_called
    (m : Method) (f : FnId) (h0 h : Hooks) (cap : Removal)
    (c : HookCall) (st : Store) (args : list Value) (fuel : nat) :
  (register m (VFunction f) h0).2 = inr cap →
  still_registered m f h →
  fires_for m c = true →
  hook_args normalizeCriteria c = inr args →
  (∀ fn, fn ∈ set_values (fns_of c (cap h).1) →
         well_behaved behaviour c args fn) →
  (length (fns_of c (cap h).1) < fuel)%nat →
  ∃ w' res calls,
    _callHook behaviour normalizeCriteria fuel c (mkWorld (cap h).1 st)
      = Some (w', inr res, calls) ∧
    f ∉ cr_fn <$> calls.
Proof.
  intros Hcap Hstill Hfires Hargs Hwell Hfuel.
  destruct (callHook_well_behaved behaviour normalizeCriteria c
              (mkWorld (cap h).1 st) args fuel Hargs Hwell Hfuel)
    as (w' & res & calls & Hrun & Hfns & _).
  exists w', res, calls. split; [done|]. rewrite Hfns. simpl.
  rewrite (removal_values m f h0 h cap c Hcap Hstill), Hfires.
  apply set_has_false, set_has_delete.
Qed.

End FiringMore.

Lemma register_non_function (m : Method) (fn : Value) (h : Hooks) :
  typeof fn ≠ "function" →
  register m fn h = (h, inl (TrilogyError hook_type_message)).
Proof.
  intros Hty. destruct m; unfold_registration;
    by rewrite (invariant_not_function fn Hty).
Qed.

(** X4.  Whatever registrations and removals a registry has been through,
    none of its listener sets holds a callback twice. *)
Theorem reachable_registry_has_no_duplicates (h : Hooks) (c : HookCall) :
  reachable h → set_wf (fns_of c h).
Proof.
  induction 1 as [|m fn h Hreach IH|m fn h0 h cap Hcap Hreach IH].
  - apply new_Hooks_wf.
  - destruct (decide (typeof fn = "function")) as [Hty|Hty].
    + apply typeof_function in Hty as [f ->]. by apply register_wf.
    + by rewrite register_non_function.
  - destruct (decide (typeof fn = "function")) as [Hty|Hty].
    + apply typeof_function in Hty as [f ->]. by eapply removal_wf.
    + by rewrite register_non_function in Hcap.
Qed.

Lemma demo_guarded_reachable : reachable Demo.guarded.
Proof.
  unfold Demo.guarded.
  apply (reach_register MBeforeRemove), (reach_register MBeforeRemove),
        (reach_register MBeforeRemove), reach_new.
Qed.

Lemma reachable_registry_has_no_duplicates_witness :
  reachable Demo.guarded ∧
  set_wf (fns_of (CallBeforeRemove Demo.bob None) Demo.guarded).
Proof.
  split; [exact demo_guarded_reachable|].
  exact (reachable_registry_has_no_duplicates Demo.guarded
           (CallBeforeRemove Demo.bob None) demo_guarded_reachable).
Defined.

Lemma callHook_rejects_at_first_throw_witness :
  let h := (beforeCreate (VFunction Demo.veto)
              (beforeCreate (VFunction Demo.faulty)
                 (beforeCreate (VFunction Demo.audit) new_Hooks).1).1).1 in
  let c := CallBeforeCreate Demo.bob None in
  let args := [Demo.bob; VObject []] in
  hook_args Demo.normalizeCriteria c = inr args ∧
  fns_of c h = [Some Demo.audit] ++ Some Demo.faulty :: [Some Demo.veto] ∧
  (∀ fn, fn ∈ set_values [Some Demo.audit] →
         well_behaved Demo.behaviour c args fn) ∧
  (∀ w', ∃ e, (Demo.behaviour Demo.faulty args w').1 = Threw e) ∧
  (length [Some Demo.audit] < 2)%nat ∧
  (∃ w' e calls,
     _callHook Demo.behaviour Demo.normalizeCriteria 2 c
       (mkWorld h ([] : Demo.Journal)) = Some (w', inl e, calls) ∧
     cr_fn <$> calls = set_values [Some Demo.audit] ++ [Demo.faulty] ∧
     cr_outcome <$> last calls = Some (Threw e)).
Proof.
  intros h c args.
  assert (hook_args Demo.normalizeCriteria c = inr args) as H1 by reflexivity.
  assert (fns_of c h = [Some Demo.audit] ++ Some Demo.faulty :: [Some Demo.veto])
    as H2 by reflexivity.
  assert (∀ fn, fn ∈ set_values [Some Demo.audit] →
                well_behaved Demo.behaviour c args fn) as H3.
  { intros fn Hin. apply demo_well_behaved.
    apply list_elem_of_singleton in Hin as ->. apply list_elem_of_here. }
  assert (∀ w', ∃ e, (Demo.behaviour Demo.faulty args w').1 = Threw e) as H4.
  { intros w'. eexists. reflexivity. }
  assert (length [Some Demo.audit] < 2)%nat as H5 by (simpl; lia).
  split_and!; try assumption.
  exact (callHook_rejects_at_first_throw Demo.behaviour Demo.normalizeCriteria
           c (mkWorld h []) args _ _ _ 2 H1 H2 H3 H4 H5).
Defined.

Lemma callHook_checks_criteria_only_for_listeners_witness :
  let c := CallBeforeRemove VNull None in
  let e := VError "InvalidCriteriaKind" "invalid criteria" in
  hook_args Demo.normalizeCriteria c = inl e ∧
  (length (fns_of c Demo.guarded) < 3)%nat ∧
  _callHook Demo.behaviour Demo.normalizeCriteria 3 c
    (mkWorld Demo.guarded ([] : Demo.Journal))
  = Some (mkWorld Demo.guarded [], inl e, []) ∧
  _callHook Demo.behaviour Demo.normalizeCriteria 3 c
    (mkWorld new_Hooks ([] : Demo.Journal))
  = Some (mkWorld new_Hooks [], inr {| prevented := false |}, []).
Proof.
  intros c e.
  assert (hook_args Demo.normalizeCriteria c = inl e) as H1 by reflexivity.
  assert (length (fns_of c Demo.guarded) < 3)%nat as H2 by (vm_compute; lia).
  assert (length (fns_of c new_Hooks) < 3)%nat as H3 by (vm_compute; lia).
  split_and!; [exact H1|exact H2| |].
  - exact (callHook_checks_criteria_only_for_listeners Demo.behaviour
             Demo.normalizeCriteria c (mkWorld Demo.guarded []) e 3 H1 H2).
  - exact (callHook_checks_criteria_only_for_listeners Demo.behaviour
             Demo.normalizeCriteria c (mkWorld new_Hooks []) e 3 H1 H3).
Defined.

Lemma unregistered_callback_is_not_called_witness :
  let c := CallBeforeRemove Demo.bob None in
  let args := [Demo.bob; VObject []] in
  ∃ cap,
    (register MBeforeRemove (VFunction Demo.veto) Demo.guarded).2 = inr cap ∧
    still_registered MBeforeRemove Demo.veto Demo.guarded ∧
    fires_for MBeforeRemove c = true ∧
    hook_args Demo.normalizeCriteria c = inr args ∧
    (length (fns_of c (cap Demo.guarded).1) < 3)%nat ∧
    ∃ w' res calls,
      _callHook Demo.behaviour Demo.normalizeCriteria 3 c
        (mkWorld (cap Demo.guarded).1 ([] : Demo.Journal))
        = Some (w', inr res, calls) ∧
      Demo.veto ∉ cr_fn <$> calls.
Proof.
  intros c args.
  exists (delete_from _beforeRemove with_beforeRemove Demo.veto).
  assert ((register MBeforeRemove (VFunction Demo.veto) Demo.guarded).2
          = inr (delete_from _beforeRemove with_beforeRemove Demo.veto)) as H1
    by reflexivity.
  assert (still_registered MBeforeRemove Demo.veto Demo.guarded) as H2.
  { intros c' Hc'. destruct c'; try discriminate Hc'.
    apply set_has_values. reflexivity. }
  assert (fires_for MBeforeRemove c = true) as H3 by reflexivity.
  assert (hook_args Demo.normalizeCriteria c = inr args) as H4 by reflexivity.
  assert (∀ fn, fn ∈ set_values (fns_of c
            (delete_from _beforeRemove with_beforeRemove Demo.veto Demo.guarded).1) →
                well_behaved Demo.behaviour c args fn) as H5.
  { intros fn Hin. apply demo_well_behaved.
    apply list_elem_of_singleton in Hin as ->. apply list_elem_of_here. }
  assert (length (fns_of c
            (delete_from _beforeRemove with_beforeRemove Demo.veto Demo.guarded).1)
          < 3)%nat as H6 by (vm_compute; lia).
  split_and!; try assumption.
  exact (unregistered_callback_is_not_called Demo.behaviour Demo.normalizeCriteria
           MBeforeRemove Demo.veto Demo.guarded Demo.guarded _ c [] args 3
           H1 H2 H3 H4 H5 H6).
Defined.

(** ** Table paths *)

Lemma find_char_app_none (c : ascii) (l1 l2 : list ascii) :
  find_char c l1 = None → find_char c (l1 ++ l2) = find_char c l2 ≫= λ k, Some (length l1 + k)%nat.
Proof.
  induction l1 as [|x l1 IH]; simpl.
  - intros _. by destruct (find_char c l2).
  - destruct (Ascii.eqb x c); [done|].
    destruct (find_char c l1) eqn:E; simpl; [done|]. intros _.
    rewrite IH by done. by destruct (find_char c l2).
Qed.

Lemma find_char_here (c : ascii) (l : list ascii) : find_char c (c :: l) = Some 0%nat.
Proof. simpl. by rewrite Ascii.eqb_refl. Qed.

Lemma find_char_skip (c x : ascii) (l : list ascii) :
  x ≠ c → find_char c (x :: l) = S <$> find_char c l.
Proof. intros Hne. simpl. by destruct (Ascii.eqb_spec x c). Qed.

Lemma js_includes_true (s : string) (c : ascii) (k : nat) :
  find_char c (chars s) = Some k → js_includes s c = true.
Proof.
  intros Hk. unfold js_includes. rewrite js_indexOf_0, Hk.
  apply negb_true_iff, Z.eqb_neq. lia.
Qed.

Lemma js_indexOf_from (s : string) (c : ascii) (k : nat) :
  (k ≤ length (chars s))%nat →
  js_indexOf s c (Z.of_nat k) =
  match find_char c (drop k (chars s)) with
  | Some j => Z.of_nat (k + j)
  | None => -1
  end.
Proof.
  intros Hk. unfold js_indexOf, js_length.
  replace (Z.min (Z.max (Z.of_nat k) 0) (Z.of_nat (length (chars s))))
    with (Z.of_nat k) by lia.
  rewrite Nat2Z.id. destruct (find_char c (drop k (chars s))); [f_equal; lia|done].
Qed.

Lemma js_slice_between (s : string) (a b : nat) :
  (a ≤ b)%nat → (b ≤ length (chars s))%nat →
  js_slice s (Z.of_nat a) (Some (Z.of_nat b)) =
  of_chars (take (b - a) (drop a (chars s))).
Proof.
  intros Hab Hb. unfold js_slice, relative_index, js_length.
  destruct (Z.ltb_spec (Z.of_nat a) 0); [lia|].
  destruct (Z.ltb_spec (Z.of_nat b) 0); [lia|].
  do 2 f_equal; [|f_equal]; lia.
Qed.

Lemma js_slice_from (s : string) (a : nat) :
  (a ≤ length (chars s))%nat →
  js_slice s (Z.of_nat a) None = of_chars (drop a (chars s)).
Proof.
  intros Ha. unfold js_slice, relative_index, js_length.
  destruct (Z.ltb_spec (Z.of_nat a) 0); [lia|].
  replace (Z.to_nat (Z.min (Z.of_nat a) (Z.of_nat (length (chars s))))) with a by lia.
  f_equal. apply take_ge. rewrite length_drop. lia.
Qed.

Lemma js_substr_take (s : string) (k : nat) :
  (k ≤ length (chars s))%nat →
  js_substr s 0 (Z.of_nat k) = of_chars (take k (chars s)).
Proof.
  intros Hk. rewrite <- (of_chars_chars (js_substr s 0 (Z.of_nat k))).
  by rewrite js_substr_prefix.
Qed.

Lemma split_chars_plain (c : ascii) (l : list ascii) :
  find_char c l = None → split_chars c l = (l, []).
Proof.
  induction l as [|x l IH]; simpl; [done|].
  destruct (Ascii.eqb x c); [done|].
  destruct (find_char c l); simpl; [done|]. intros _. by rewrite IH.
Qed.

Lemma split_chars_app (c : ascii) (l1 l2 : list ascii) :
  find_char c l1 = None →
  split_chars c (l1 ++ c :: l2) =
  (l1, (split_chars c l2).1 :: (split_chars c l2).2).
Proof.
  induction l1 as [|x l1 IH]; simpl.
  - intros _. rewrite Ascii.eqb_refl. by destruct (split_chars c l2).
  - destruct (Ascii.eqb x c); [done|].
    destruct (find_char c l1); simpl; [done|]. intros _. by rewrite IH.
Qed.

Lemma parseTablePath_no_dot_plain (fuel : nat) (table : string) column row :
  js_includes table "." = false →
  ∃ tbl col r,
    _parseTablePath_rec (S (S fuel)) table column row = Some (tbl, col, r) ∧
    js_includes tbl "." = false ∧ js_includes tbl "[" = false.
Proof.
  intros Hdot. destruct (js_includes table "[") eqn:Hbr.
  - rewrite parseTablePath_step, Hdot, Hbr. cbv zeta.
    set (_top := js_substr table 0 (js_indexOf table "[" 0)).
    assert (js_includes _top "." = false ∧ js_includes _top "[" = false)
      as [Hdot' Hbr'].
    { subst _top. rewrite !js_includes_false. rewrite js_includes_false in Hdot.
      unfold js_includes in Hbr. rewrite js_indexOf_0 in *.
      destruct (find_char "[" (chars table)) as [k|] eqn:Hk; [|done].
      pose proof (find_char_lt _ _ _ Hk) as Hlt.
      rewrite js_substr_prefix by lia.
      split; [by apply find_char_take_none|by apply find_char_take_before]. }
    rewrite parseTablePath_plain by done. eauto 10.
  - rewrite parseTablePath_plain by done. eauto 10.
Qed.

(** X5.  [_parseTablePath] returns for every path, after at most three
    calls of itself, and the table name it returns holds neither a dot nor
    an opening bracket. *)
Theorem parseTablePath_returns_a_plain_table (table : string)
    (column row : option string) :
  ∃ tbl col r,
    _parseTablePath table column row = Some (tbl, col, r) ∧
    js_includes tbl "." = false ∧ js_includes tbl "[" = false.
Proof.
  unfold _parseTablePath. destruct (js_includes table ".") eqn:Hdot.
  - rewrite parseTablePath_step, Hdot.
    unfold js_split.
    destruct (split_chars "." (chars table)) as [piece pieces] eqn:Hs.
    apply parseTablePath_no_dot_plain. apply js_includes_false.
    rewrite chars_of_chars.
    pose proof (split_chars_first "." (chars table)) as Hfirst.
    by rewrite Hs in Hfirst.
  - by apply parseTablePath_no_dot_plain.
Qed.

Lemma includes_dot_after (t rest : string) :
  js_includes t "." = false → js_includes (t +:+ "." +:+ rest) "." = true.
Proof.
  intros Ht. rewrite js_includes_false in Ht.
  apply (js_includes_true _ _ (length (chars t))).
  rewrite chars_app, find_char_app_none by done.
  change (chars ("." +:+ rest)) with ("."%char :: chars rest).
  rewrite find_char_here. simpl. f_equal. lia.
Qed.

Lemma parseTablePath_dot_pair (t c : string) (column row : option string) :
  js_includes t "." = false →
  js_includes t "[" = false →
  js_includes c "." = false →
  _parseTablePath (t +:+ "." +:+ c) column row = Some (t, Some c, None).
Proof.
  intros Ht Hbr Hc.
  pose proof Ht as Ht'. pose proof Hc as Hc'.
  rewrite js_includes_false in Ht', Hc'.
  unfold _parseTablePath. rewrite parseTablePath_step, includes_dot_after by done.
  unfold js_split. rewrite chars_app.
  change (chars ("." +:+ c)) with ("."%char :: chars c).
  rewrite split_chars_app, split_chars_plain by done.
  cbn -[_parseTablePath_rec of_chars chars].
  rewrite !of_chars_chars. by rewrite parseTablePath_plain.
Qed.

(** X6.  Dot notation.  A path [table.column] or [table.column.row], with
    a table name free of dots and brackets, parses into its parts, and the
    column and row given as arguments besides are dropped. *)
Theorem parseTablePath_dot_notation (t c : string) (column row : option string) :
  js_includes t "." = false →
  js_includes t "[" = false →
  js_includes c "." = false →
  _parseTablePath (t +:+ "." +:+ c) column row = Some (t, Some c, None) ∧
  (∀ r, js_includes r "." = false →
        _parseTablePath (t +:+ "." +:+ c +:+ "." +:+ r) column row
        = Some (t, Some c, Some r)).
Proof.
  intros Ht Hbr Hc.
  pose proof Ht as Ht'. pose proof Hc as Hc'.
  rewrite js_includes_false in Ht', Hc'.
  split; [by apply parseTablePath_dot_pair|].
  - intros r Hr. rewrite js_includes_false in Hr.
    unfold _parseTablePath. rewrite parseTablePath_step, includes_dot_after by done.
    unfold js_split. rewrite chars_app.
    change (chars ("." +:+ c +:+ "." +:+ r))
      with ("."%char :: chars (c +:+ "." +:+ r)).
    rewrite chars_app.
    change (chars ("." +:+ r)) with ("."%char :: chars r).
    rewrite split_chars_app by done.
    rewrite split_chars_app, split_chars_plain by done.
    cbn -[_parseTablePath_rec of_chars chars].
    rewrite !of_chars_chars. by rewrite parseTablePath_plain.
Qed.

Lemma parseTablePath_dot_notation_witness :
  js_includes "people" "." = false ∧
  js_includes "people" "[" = false ∧
  js_includes "age" "." = false ∧
  _parseTablePath "people.age" (Some "name") None
    = Some ("people", Some "age", None) ∧
  _parseTablePath "people.age.3" None None
    = Some ("people", Some "age", Some "3").
Proof.
  assert (js_includes "people" "." = false) as H1 by reflexivity.
  assert (js_includes "people" "[" = false) as H2 by reflexivity.
  assert (js_includes "age" "." = false) as H3 by reflexivity.
  destruct (parseTablePath_dot_notation "people" "age" (Some "name") None
              H1 H2 H3) as [Hpair _].
  destruct (parseTablePath_dot_notation "people" "age" None None
              H1 H2 H3) as [_ Htriple].
  split_and!; [exact H1|exact H2|exact H3|exact Hpair|].
  exact (Htriple "3" eq_refl).
Defined.

(** The pieces the bracket branch cuts a path [T[C]rest] into. *)
Lemma bracket_parts (table : string) (T C rest : list ascii) :
  chars table = T ++ "["%char :: C ++ "]"%char :: rest →
  find_char "." T = None → find_char "[" T = None →
  find_char "." C = None → find_char "]" C = None →
  find_char "." rest = None →
  js_includes table "." = false ∧
  js_includes table "[" = true ∧
  js_indexOf table "[" 0 = Z.of_nat (length T) ∧
  js_substr table 0 (Z.of_nat (length T)) = of_chars T ∧
  js_slice table (Z.of_nat (length T) + 1)
    (Some (js_indexOf table "]" (Z.of_nat (length T)))) = of_chars C.
Proof.
  intros Hchars HT HTb HC HCb Hrest.
  assert (length (chars table) = length T + 1 + length C + 1 + length rest)%nat
    as Hlen.
  { rewrite Hchars, length_app. simpl. rewrite length_app. simpl. lia. }
  assert (find_char "[" (chars table) = Some (length T)) as Hopen.
  { rewrite Hchars, find_char_app_none, find_char_here by done.
    simpl. f_equal. lia. }
  assert (js_indexOf table "]" (Z.of_nat (length T))
          = Z.of_nat (length T + 1 + length C)) as Hclose.
  { rewrite js_indexOf_from by lia. rewrite Hchars, drop_app_length.
    rewrite find_char_skip by done.
    rewrite find_char_app_none, find_char_here by done. simpl. f_equal. lia. }
  split_and!.
  - apply js_includes_false.
    rewrite Hchars, find_char_app_none by done.
    rewrite find_char_skip by done.
    rewrite find_char_app_none by done.
    rewrite find_char_skip by done. by rewrite Hrest.
  - by eapply js_includes_true.
  - by rewrite js_indexOf_0, Hopen.
  - rewrite js_substr_take by lia. by rewrite Hchars, take_app_length.
  - rewrite Hclose.
    replace (Z.of_nat (length T) + 1) with (Z.of_nat (S (length T))) by lia.
    rewrite js_slice_between by lia. f_equal.
    rewrite Hchars.
    replace (T ++ "["%char :: C ++ "]"%char :: rest)
      with ((T ++ ["["%char]) ++ C ++ "]"%char :: rest)
      by (by rewrite <- app_assoc).
    replace (S (length T)) with (length (T ++ ["["%char]))
      by (rewrite length_app; simpl; lia).
    rewrite drop_app_length.
    replace (length T + 1 + length C - length (T ++ ["["%char]))%nat
      with (length C) by (rewrite length_app; simpl; lia).
    by rewrite take_app_length.
Qed.

Lemma parseTablePath_bracket_pair (t c : string) (column row : option string) :
  js_includes t "." = false →
  js_includes t "[" = false →
  js_includes c "." = false →
  js_includes c "]" = false →
  _parseTablePath (t +:+ "[" +:+ c +:+ "]") column row = Some (t, Some c, None).
Proof.
  intros Ht Htb Hc Hcb.
  pose proof Ht as Ht'. pose proof Htb as Htb'.
  rewrite js_includes_false in Ht', Htb', Hc, Hcb.
  set (table := t +:+ "[" +:+ c +:+ "]").
  assert (chars table = chars t ++ "["%char :: chars c ++ "]"%char :: [])
    as Hchars.
  { subst table. rewrite chars_app.
    change (chars ("[" +:+ c +:+ "]")) with ("["%char :: chars (c +:+ "]")).
    by rewrite chars_app. }
  destruct (bracket_parts table _ _ [] Hchars Ht' Htb' Hc Hcb eq_refl)
    as (Hdot & Hbr & Hopen & Htop & Hinner).
  unfold _parseTablePath. rewrite parseTablePath_step, Hdot, Hbr. cbv zeta.
  rewrite Hopen, Htop, Hinner, !of_chars_chars.
  assert ((js_length t + js_length c + 2 <? js_length table) = false) as ->.
  { apply Z.ltb_ge. unfold js_length. rewrite Hchars, length_app. simpl.
    rewrite length_app. simpl. lia. }
  by rewrite parseTablePath_plain.
Qed.

(** X7.  Bracket notation.  A path [table[column]] or
    [table[column][row]], with a table name free of dots and brackets, parses
    into the same parts as the dot notation does, and the column and row
    given as arguments besides are dropped. *)
Theorem parseTablePath_bracket_notation (t c : string)
    (column row : option string) :
  js_includes t "." = false →
  js_includes t "[" = false →
  js_includes c "." = false →
  js_includes c "]" = false →
  _parseTablePath (t +:+ "[" +:+ c +:+ "]") column row
    = Some (t, Some c, None) ∧
  (∀ r, js_includes r "." = false → js_includes r "]" = false →
        _parseTablePath (t +:+ "[" +:+ c +:+ "][" +:+ r +:+ "]") column row
        = Some (t, Some c, Some r)).
Proof.
  intros Ht Htb Hc Hcb.
  split; [by apply parseTablePath_bracket_pair|].
  pose proof Ht as Ht'. pose proof Htb as Htb'.
  rewrite js_includes_false in Ht', Htb', Hc, Hcb.
  - intros r Hr Hrb. rewrite js_includes_false in Hr, Hrb.
    set (table := t +:+ "[" +:+ c +:+ "][" +:+ r +:+ "]").
    assert (chars table
            = chars t ++ "["%char :: chars c ++ "]"%char
                :: ("["%char :: chars r ++ ["]"%char])) as Hchars.
    { subst table. rewrite chars_app.
      change (chars ("[" +:+ c +:+ "][" +:+ r +:+ "]"))
        with ("["%char :: chars (c +:+ "][" +:+ r +:+ "]")).
      rewrite chars_app.
      change (chars ("][" +:+ r +:+ "]"))
        with ("]"%char :: "["%char :: chars (r +:+ "]")).
      by rewrite chars_app. }
    assert (find_char "." ("["%char :: chars r ++ ["]"%char]) = None) as Hrest.
    { rewrite find_char_skip by done. by rewrite find_char_app_none. }
    destruct (bracket_parts table _ _ _ Hchars Ht' Htb' Hc Hcb Hrest)
      as (Hdot & Hbr & Hopen & Htop & Hinner).
    unfold _parseTablePath. rewrite parseTablePath_step, Hdot, Hbr. cbv zeta.
    rewrite Hopen, Htop, Hinner, !of_chars_chars.
    assert (length (chars table)
            = length (chars t) + length (chars c) + 2 + (length (chars r) + 2))%nat
      as Hlen.
    { rewrite Hchars, length_app. simpl. rewrite length_app. simpl.
      rewrite length_app. simpl. lia. }
    assert ((js_length t + js_length c + 2 <? js_length table) = true) as ->.
    { apply Z.ltb_lt. unfold js_length. lia. }
    assert (js_slice table (js_length t + js_length c + 2 + 1) None
            = of_chars (chars r ++ ["]"%char])) as ->.
    { unfold js_length.
      replace (Z.of_nat (length (chars t)) + Z.of_nat (length (chars c)) + 2 + 1)
        with (Z.of_nat (length (chars t) + length (chars c) + 3)) by lia.
      rewrite js_slice_from by lia. f_equal. rewrite Hchars.
      replace (chars t ++ "["%char :: chars c ++ "]"%char
                 :: "["%char :: chars r ++ ["]"%char])
        with ((chars t ++ "["%char :: chars c ++ ["]"%char; "["%char])
                ++ chars r ++ ["]"%char]).
      2: { rewrite <- !app_assoc. simpl. by rewrite <- !app_assoc. }
      replace (length (chars t) + length (chars c) + 3)%nat
        with (length (chars t ++ "["%char :: chars c ++ ["]"%char; "["%char])).
      2: { rewrite length_app. simpl. rewrite length_app. simpl. lia. }
      by rewrite drop_app_length. }
    assert (js_indexOf (of_chars (chars r ++ ["]"%char])) "]" 0
            = Z.of_nat (length (chars r))) as ->.
    { rewrite js_indexOf_0, chars_of_chars.
      rewrite find_char_app_none, find_char_here by done. simpl. f_equal. lia. }
    rewrite js_substr_take
      by (rewrite chars_of_chars, length_app; simpl; lia).
    rewrite chars_of_chars, take_app_length, of_chars_chars.
    by rewrite parseTablePath_plain.
Qed.

Lemma parseTablePath_bracket_notation_witness :
  js_includes "people" "." = false ∧
  js_includes "people" "[" = false ∧
  js_includes "age" "." = false ∧
  js_includes "age" "]" = false ∧
  _parseTablePath "people[age]" (Some "name") None
    = Some ("people", Some "age", None) ∧
  _parseTablePath "people[age][3]" None None
    = Some ("people", Some "age", Some "3").
Proof.
  assert (js_includes "people" "." = false) as H1 by reflexivity.
  assert (js_includes "people" "[" = false) as H2 by reflexivity.
  assert (js_includes "age" "." = false) as H3 by reflexivity.
  assert (js_includes "age" "]" = false) as H4 by reflexivity.
  destruct (parseTablePath_bracket_notation "people" "age" (Some "name") None
              H1 H2 H3 H4) as [Hpair _].
  destruct (parseTablePath_bracket_notation "people" "age" None None
              H1 H2 H3 H4) as [_ Htriple].
  split_and!; [exact H1|exact H2|exact H3|exact H4|exact Hpair|].
  exact (Htriple "3" eq_refl eq_refl).
Defined.

(** ** More on the class *)

Import Operations.

Section TrilogyMore.

Context {DB FS : Type} `{Engine DB} `{FileSystem FS} `{Knex}
        `{KnexInsert} `{RowsModified DB}.

(** [_errorHandler] tells the listener, and touches nothing else. *)
Lemma errorHandler_fields (err : Value) (msg : option string) (t : Trilogy DB FS) :
  let t' := (_errorHandler err msg t).1 in
  fileName t' = fileName t ∧ errorListener t' = errorListener t ∧
  db t' = db t ∧ disk t' = disk t ∧
  ∃ errors, observed t' = observed t ++ (ErrorListener <$> errors).
Proof.
  unfold _errorHandler.
  destruct err; try (split_and!; try done; exists []; simpl; by rewrite app_nil_r);
    destruct msg; simpl; destruct (errorListener t) eqn:Hl; simpl;
    split_and!; try done;
    first [by eexists [_] | exists []; simpl; by rewrite app_nil_r].
Qed.

Lemma rejected_by_fst {A} (r : Trilogy DB FS * (Value + Value)) :
  (rejected_by (A := A) r).1 = r.1.
Proof. by destruct r as [t [e|e]]. Qed.

Lemma write_fields (t : Trilogy DB FS) :
  let t' := (_write t).1 in
  fileName t' = fileName t ∧ errorListener t' = errorListener t ∧
  db t' = db t ∧
  ∃ errors, observed t' = observed t ++ (ErrorListener <$> errors).
Proof.
  assert (∀ e (t0 : Trilogy DB FS),
            (match _errorHandler e None t0 with
             | (t'', inl thrown) => (t'', Some thrown)
             | (t'', inr _) => (t'', None)
             end).1 = (_errorHandler e None t0).1) as Hcaught.
  { intros e t0. by destruct (_errorHandler e None t0) as [t'' [x|x]]. }
  unfold _write. cbv zeta.
  set (t1 := match db t with Some _ => t | None => _ end).
  assert (fileName t1 = fileName t ∧ errorListener t1 = errorListener t ∧
          db t1 = db t ∧
          ∃ errors, observed t1 = observed t ++ (ErrorListener <$> errors))
    as (Hn & Hl & Hd & [errs Ho]).
  { subst t1. destruct (db t) eqn:E; rewrite <- E.
    - split_and!; try done. exists []. simpl. by rewrite app_nil_r.
    - pose proof (errorHandler_fields (VString constants_ERR_NO_DATABASE) None t)
        as (? & ? & ? & _ & ?). done. }
  clearbody t1. rewrite <- Hn, <- Hl, <- Hd.
  assert (∀ e (t0 : Trilogy DB FS),
            fileName t0 = fileName t1 → errorListener t0 = errorListener t1 →
            db t0 = db t1 → observed t0 = observed t1 →
            fileName (_errorHandler e None t0).1 = fileName t1 ∧
            errorListener (_errorHandler e None t0).1 = errorListener t1 ∧
            db (_errorHandler e None t0).1 = db t1 ∧
            ∃ errors, observed (_errorHandler e None t0).1
                      = observed t ++ (ErrorListener <$> errors)) as Hhandled.
  { intros e t0 Hn0 Hl0 Hd0 Ho0.
    pose proof (errorHandler_fields e None t0) as (Hn' & Hl' & Hd' & _ & [errs' Ho']).
    simpl in Hn', Hl', Hd', Ho'.
    split_and!; try congruence.
    exists (errs ++ errs'). by rewrite Ho', Ho0, Ho, fmap_app, app_assoc. }
  destruct (db t1) as [d|] eqn:Hdb.
  - destruct (sql_export d) as [e|data].
    + rewrite Hcaught. by apply Hhandled.
    + destruct (jetpack_file (disk t1) (fileName t1) data) as [fs [e|]].
      * rewrite Hcaught. by apply Hhandled.
      * simpl. split_and!; try done. by exists errs.
  - rewrite Hcaught. by apply Hhandled.
Qed.

(** What [run] does to the fields of an instance with a database. *)
Lemma run_fields (query : Query) (t : Trilogy DB FS) (d : DB) :
  db t = Some d →
  let t' := (run query t).1 in
  fileName t' = fileName t ∧ errorListener t' = errorListener t ∧
  db t' = Some (sql_run d (query_text query)).1 ∧
  ∃ errors, observed t' =
    observed t ++ Verbose (query_text query) :: (ErrorListener <$> errors).
Proof.
  intros Hdb. unfold run. rewrite Hdb.
  destruct (sql_run d (query_text query)) as [d' [e|]] eqn:Hrun.
  - simpl. split_and!; try done. by exists [].
  - set (t1 := set_db (Some d') (observe (Verbose (query_text query)) t)).
    pose proof (write_fields t1) as (Hn & Hl & Hd & [errs Ho]).
    simpl in Hn, Hl, Hd, Ho.
    destruct (_write t1) as [t' [e|]] eqn:Hw; simpl in *;
      (split_and!; try done; exists errs; by rewrite Ho, <- app_assoc).
Qed.

(** X8.  A statement that ran is not always a statement that was saved:
    when the export of the database or the write of the file fails with an
    [Error] after the statement went through, [run] resolves all the same.
    The change is in the database in memory, the failure goes to the error
    listener, if there is one, and to nobody else, and the file is left as
    the failed write left it (untouched, when it was the export that
    failed). *)
Theorem run_hides_a_failed_write (query : Query) (t : Trilogy DB FS)
    (d d' : DB) (name message : string) :
  db t = Some d →
  sql_run d (query_text query) = (d', None) →
  (sql_export d' = inl (VError name message) ∨
   ∃ data, sql_export d' = inr data ∧
           (jetpack_file (disk t) (fileName t) data).2
           = Some (VError name message)) →
  (run query t).2 = Resolved tt ∧
  db (run query t).1 = Some d' ∧
  observed (run query t).1 =
    observed t ++ Verbose (query_text query) ::
      (if errorListener t
       then [ErrorListener (VError "TrilogyError" message)] else []) ∧
  disk (run query t).1 =
    match sql_export d' with
    | inl _ => disk t
    | inr data => (jetpack_file (disk t) (fileName t) data).1
    end.
Proof.
  intros Hdb Hrun Hfail. unfold run. rewrite Hdb, Hrun. unfold _write. simpl.
  destruct Hfail as [Hexp|(data & Hexp & Hfile)]; rewrite Hexp.
  - simpl. destruct (errorListener t); simpl; split_and!; try done;
      by rewrite <- app_assoc.
  - destruct (jetpack_file (disk t) (fileName t) data) as [fs' r].
    simpl in Hfile. subst r. simpl.
    destruct (errorListener t); simpl; split_and!; try done;
      by rewrite <- app_assoc.
Qed.

Lemma errorHandler_keeps (err : Value) (msg : option string)
    (t0 t : Trilogy DB FS) :
  fileName t0 = fileName t ∧ errorListener t0 = errorListener t ∧
  (is_Some (db t) → is_Some (db t0)) →
  fileName (_errorHandler err msg t0).1 = fileName t ∧
  errorListener (_errorHandler err msg t0).1 = errorListener t ∧
  (is_Some (db t) → is_Some (db (_errorHandler err msg t0).1)).
Proof.
  intros (Hn & Hl & Hd).
  pose proof (errorHandler_fields err msg t0) as (Hn' & Hl' & Hd' & _).
  cbv zeta in Hn', Hl', Hd'. rewrite Hn', Hl', Hd'. done.
Qed.

(** What a call leaves of the instance it is made on. *)
Lemma after_fields (c : Call) (t : Trilogy DB FS) :
  fileName (after c t) = fileName t ∧
  errorListener (after c t) = errorListener t ∧
  (is_Some (db t) → is_Some (db (after c t))).
Proof.
  assert (fileName t = fileName t ∧ errorListener t = errorListener t ∧
          (is_Some (db t) → is_Some (db t))) as Hsame by done.
  assert (∀ (query : Query),
    fileName (run query t).1 = fileName t ∧
    errorListener (run query t).1 = errorListener t ∧
    (is_Some (db t) → is_Some (db (run query t).1))) as Hrun.
  { intros query. destruct (db t) as [d|] eqn:Hdb.
    - pose proof (run_fields query t d Hdb) as (? & ? & Hd & _).
      split_and!; [done|done|]. intros _. cbv zeta in Hd. rewrite Hd. eauto.
    - unfold run. rewrite Hdb, rejected_by_fst. rewrite <- Hdb.
      by apply errorHandler_keeps. }
  assert (∀ (query : Query),
    fileName (exec query t).1 = fileName t ∧
    errorListener (exec query t).1 = errorListener t ∧
    (is_Some (db t) → is_Some (db (exec query t).1))) as Hexec.
  { intros query. unfold exec. destruct (db t) as [d|] eqn:Hdb.
    - destruct (sql_exec d (query_text query)) as [d' [e|val]]; simpl; eauto.
    - rewrite rejected_by_fst. rewrite <- Hdb. by apply errorHandler_keeps. }
  destruct c as [query|query|query ret|tableName values conflict|args|args];
    simpl.
  - apply Hrun.
  - apply Hexec.
  - unfold raw. destruct (truthy ret).
    + specialize (Hexec query).
      destruct (exec query t) as [t' [val|e]]; [done|].
      rewrite rejected_by_fst. by apply errorHandler_keeps.
    + specialize (Hrun query).
      destruct (run query t) as [t' [[]|e]]; [done|].
      rewrite rejected_by_fst. by apply errorHandler_keeps.
  - unfold insert.
    destruct (negb (truthy tableName) || negb (isString tableName)).
    { rewrite rejected_by_fst. by apply errorHandler_keeps. }
    destruct (insert_query _ values conflict) as [e|sql]; [done|].
    specialize (Hrun (QueryText sql)).
    destruct (run (QueryText sql) t) as [t' [[]|e]].
    + destruct (db t') as [d'|] eqn:Hdb'; [exact Hrun|].
      rewrite rejected_by_fst. apply errorHandler_keeps. exact Hrun.
    + rewrite rejected_by_fst. by apply errorHandler_keeps.
  - unfold decrement. destruct (decrement_plan args) as [e| | |query];
      try done.
    + rewrite rejected_by_fst. by apply errorHandler_keeps.
    + specialize (Hrun (QueryChain query)).
      destruct (run (QueryChain query) t) as [t' [[]|e]]; [done|].
      rewrite rejected_by_fst. by apply errorHandler_keeps.
  - unfold count. destruct (arify_where (cnt_where args)) as [e|criteria];
      [done|].
    assert (∀ e (t0 : Trilogy DB FS),
      fileName t0 = fileName t ∧ errorListener t0 = errorListener t ∧
      (is_Some (db t) → is_Some (db t0)) →
      fileName (match _errorHandler e None t0 with
                | (t'', inl thrown) => (t'', inl thrown)
                | (t'', inr e') => (t'', inr (Rejected (A := Value) e'))
                end).1 = fileName t ∧
      errorListener (match _errorHandler e None t0 with
                | (t'', inl thrown) => (t'', inl thrown)
                | (t'', inr e') => (t'', inr (Rejected (A := Value) e'))
                end).1 = errorListener t ∧
      (is_Some (db t) →
       is_Some (db (match _errorHandler e None t0 with
                | (t'', inl thrown) => (t'', inl thrown)
                | (t'', inr e') => (t'', inr (Rejected (A := Value) e'))
                end).1))) as Hhandled.
    { intros e t0 Ht0. pose proof (errorHandler_keeps e None t0 t Ht0) as Hk.
      by destruct (_errorHandler e None t0) as [t'' [x|x]]. }
    destruct (db t) as [d|] eqn:Hdb.
    + destruct (sql_getAsObject d (count_query args criteria)) as [d' [e|res]].
      * apply Hhandled. simpl. eauto.
      * simpl. eauto.
    + apply Hhandled. by rewrite Hdb.
Qed.


Lemma after_all_fields (calls : list Call) (t : Trilogy DB FS) :
  fileName (after_all calls t) = fileName t ∧
  errorListener (after_all calls t) = errorListener t ∧
  (is_Some (db t) → is_Some (db (after_all calls t))).
Proof.
  revert t. induction calls as [|c calls IH]; intros t; [done|].
  unfold after_all in *. simpl.
  destruct (IH (after c t)) as (Hn & Hl & Hd).
  destruct (after_fields c t) as (Hn' & Hl' & Hd').
  rewrite Hn, Hl, Hn', Hl'. auto.
Qed.

Lemma truthy_string (s : string) : s ≠ "" → truthy (VString s) = true.
Proof. intros Hs. simpl. by destruct (String.eqb_spec s ""). Qed.

(** X9.  An instance the constructor returned has a database, and keeps
    it, its file name and its error listener through every sequence of
    calls of [run], [exec], [raw], [insert], [decrement] and [count]: the
    test for a missing database in [run], [exec] and [_write] never fires
    on it, and what it saves it saves to the file it was opened at. *)
Theorem constructed_instance_keeps_its_database (name : string)
    (listener : bool) (fs : FS) (t : Trilogy DB FS) (calls : list Call) :
  new_Trilogy name listener fs = inr t →
  is_Some (db (after_all calls t)) ∧
  fileName (after_all calls t) = name ∧
  errorListener (after_all calls t) = listener.
Proof.
  intros Hnew.
  assert (is_Some (db t) ∧ fileName t = name ∧ errorListener t = listener)
    as (Hd & Hn & Hl).
  { unfold new_Trilogy in Hnew.
    destruct (negb (truthy (VString name))); [done|].
    unfold _init in Hnew. cbn [disk fileName] in Hnew.
    destruct (jetpack_exists fs name).
    - simplify_eq. simpl. eauto.
    - set (t0 := set_db (Some (sql_open None)) (mkTrilogy name None listener fs []))
        in Hnew.
      pose proof (write_fields t0) as (Hn & Hl & Hd & _). cbv zeta in Hn, Hl, Hd.
      destruct (_write t0) as [t' [e|]]; simplify_eq.
      simpl in Hn, Hl, Hd. rewrite Hd. eauto. }
  destruct (after_all_fields calls t) as (Hn' & Hl' & Hd').
  rewrite Hn', Hl', Hn, Hl. auto.
Qed.

(** X10.  What [run] saved is what the next opening loads: after a
    statement that went through and was written, a new instance on the same
    file starts from the image exported after the statement, and writes
    nothing. *)
Theorem reopening_loads_what_run_saved {laws : FileSystemLaws FS}
    (query : Query) (t : Trilogy DB FS) (d d' : DB) (data : bytes) (fs' : FS)
    (listener : bool) :
  fileName t ≠ "" →
  db t = Some d →
  sql_run d (query_text query) = (d', None) →
  sql_export d' = inr data →
  jetpack_file (disk t) (fileName t) data = (fs', None) →
  disk (run query t).1 = fs' ∧
  new_Trilogy (fileName t) listener (disk (run query t).1) =
    inr (mkTrilogy (fileName t) (Some (sql_open (Some data))) listener fs' []).
Proof.
  intros Hname Hdb Hrun Hexp Hfile.
  assert (disk (run query t).1 = fs') as ->.
  { unfold run. rewrite Hdb, Hrun.
    by rewrite (write_succeeds _ d' data fs'). }
  split; [done|].
  unfold new_Trilogy, _init. rewrite truthy_string by done. simpl.
  by rewrite (written_exists _ _ _ _ Hfile), (written_read _ _ _ _ Hfile).
Qed.

(** ** Decrement and count, again *)

Lemma arify_where_valid (criteria : option Value) :
  (∀ v, criteria = Some v → _isValidWhere v = true) →
  ∃ w, arify_where criteria = inr w.
Proof.
  intros Hvalid. destruct criteria as [v|]; simpl; [|eauto].
  rewrite (Hvalid v eq_refl). eauto.
Qed.

(** X11.  A decrement that names no column, neither as an argument nor in
    the path, is rejected before anything is run: the instance is left as it
    was, but for the error listener having been told. *)
Theorem decrement_without_column_runs_nothing (args : DecrementArgs)
    (t : Trilogy DB FS) :
  js_includes (dec_table args) "." = false →
  js_includes (dec_table args) "[" = false →
  dec_column args = None ∨ dec_column args = Some "" →
  (∀ v, dec_where args = Some v → _isValidWhere v = true) →
  let e := VError "TrilogyError" ("Trilogy :: " +:+ constants_ERR_COL_MISSING) in
  decrement args t =
    (if errorListener t then observe (ErrorListener e) t else t, Rejected e).
Proof.
  intros Hdot Hbr Hcol Hvalid e.
  destruct (arify_where_valid _ Hvalid) as [w Hw].
  assert (decrement_plan args = MissingColumn) as Hplan.
  { unfold decrement_plan, _parseTablePath. rewrite Hw.
    rewrite parseTablePath_plain by done.
    by destruct Hcol as [-> | ->]. }
  unfold decrement. by rewrite Hplan.
Qed.

(** X12.  The column may come with the table: a decrement on the path
    [table.column] or [table[column]] is the decrement on that table and
    that column, whatever is passed as the column besides. *)
Theorem decrement_reads_the_column_from_the_path (tbl col : string)
    (column : option string) (amount : option Z) (criteria : option Value)
    (allowNegative : option bool) (t : Trilogy DB FS) :
  js_includes tbl "." = false →
  js_includes tbl "[" = false →
  js_includes col "." = false →
  js_includes col "]" = false →
  decrement (mkDecrement (tbl +:+ "." +:+ col) column amount criteria
               allowNegative) t
  = decrement (mkDecrement tbl (Some col) amount criteria allowNegative) t ∧
  decrement (mkDecrement (tbl +:+ "[" +:+ col +:+ "]") column amount criteria
               allowNegative) t
  = decrement (mkDecrement tbl (Some col) amount criteria allowNegative) t.
Proof.
  intros Hdot Hbr Hcdot Hcbr.
  assert (_parseTablePath tbl (Some col) None = Some (tbl, Some col, None))
    as Hplain by (unfold _parseTablePath; by rewrite parseTablePath_plain).
  split; unfold decrement, decrement_plan; cbn [dec_table dec_column dec_where
    dec_amount dec_allowNegative].
  - by rewrite parseTablePath_dot_pair, Hplain.
  - by rewrite parseTablePath_bracket_pair, Hplain.
Qed.

(** X13.  [count] goes past [run] and [exec]: whatever its arguments and
    however it ends, the statement it prepares is not handed to [verbose],
    and the file is not written; all an observer can get to see is an
    error. *)
Theorem count_bypasses_verbose_and_the_file (args : CountArgs)
    (t : Trilogy DB FS) :
  disk (count args t).1 = disk t ∧
  ∃ errors, observed (count args t).1 = observed t ++ (ErrorListener <$> errors).
Proof.
  assert (disk t = disk t ∧
          ∃ errors, observed t = observed t ++ (ErrorListener <$> errors))
    as Hsame by (split; [done|exists []; simpl; by rewrite app_nil_r]).
  assert (∀ e (t0 : Trilogy DB FS),
    disk t0 = disk t → observed t0 = observed t →
    let r := match _errorHandler e None t0 with
             | (t'', inl thrown) => (t'', inl thrown)
             | (t'', inr e') => (t'', inr (Rejected (A := Value) e'))
             end in
    disk r.1 = disk t ∧
    ∃ errors, observed r.1 = observed t ++ (ErrorListener <$> errors))
    as Hhandled.
  { intros e t0 Hd Ho.
    pose proof (errorHandler_fields e None t0) as (_ & _ & _ & Hd' & Ho').
    cbv zeta in *. rewrite Hd, Ho in *.
    by destruct (_errorHandler e None t0) as [t'' [x|x]]. }
  unfold count. destruct (arify_where (cnt_where args)) as [e|criteria];
    [done|].
  destruct (db t) as [d|].
  - destruct (sql_getAsObject d (count_query args criteria)) as [d' [e|res]].
    + by apply Hhandled.
    + done.
  - by apply Hhandled.
Qed.


(** ** raw and insert *)

(** X14.  [raw] with a true second argument goes through [exec]: the
    statement is executed and its result is handed back, but the file is not
    written, also when the statement changed the database. *)
Theorem raw_returning_results_never_writes (query : Query) (ret : Value)
    (t : Trilogy DB FS) :
  truthy ret = true →
  disk (raw query ret t).1 = disk t ∧
  ∀ d d' val, db t = Some d →
    sql_exec d (query_text query) = (d', inr val) →
    raw query ret t =
      (set_db (Some d') (observe (Verbose (query_text query)) t), Resolved val).
Proof.
  intros Hret. unfold raw. rewrite Hret. split.
  - destruct (exec_disk query t) as [Hdisk _].
    destruct (exec query t) as [t' [val|e]]; [done|].
    rewrite rejected_by_fst.
    pose proof (errorHandler_fields e None t') as (_ & _ & _ & Hd & _).
    cbv zeta in Hd. by rewrite Hd.
  - intros d d' val Hdb Hexec. unfold exec. by rewrite Hdb, Hexec.
Qed.

(** X15.  [insert] on a table name that is not a string, or is the empty
    one, is rejected with a [TrilogyError] that says so, and nothing is run:
    the instance is left as it was, but for the error listener having been
    told. *)
Theorem insert_rejects_a_bad_table_name (tableName values conflict : Value)
    (t : Trilogy DB FS) :
  isString tableName = false ∨ tableName = VString "" →
  let e := VError "TrilogyError"
             "Trilogy#insert :: 'tableName' must be a string" in
  insert tableName values conflict t =
    (if errorListener t then observe (ErrorListener e) t else t, Rejected e).
Proof.
  intros Hbad e. unfold insert.
  assert (negb (truthy tableName) || negb (isString tableName) = true) as ->.
  { destruct Hbad as [-> | ->]; [apply orb_true_r|done]. }
  done.
Qed.

Lemma strip_prefix_app (p rest : list ascii) :
  strip_prefix p (p ++ rest) = Some rest.
Proof.
  induction p as [|x p IH]; simpl; [by destruct rest|].
  by rewrite Ascii.eqb_refl.
Qed.

Lemma js_replace_prefix (pattern replacement rest : string) :
  js_replace (pattern +:+ rest) pattern replacement = replacement +:+ rest.
Proof.
  unfold js_replace. rewrite chars_app.
  assert (∀ p r l, replace_first p r (p ++ l) = r ++ l) as ->.
  { intros p r l. destruct (p ++ l) eqn:E; simpl; rewrite <- E;
      by rewrite strip_prefix_app. }
  by rewrite <- chars_app, of_chars_chars.
Qed.

(** The clause for a conflict word, in any mix of capital and small
    letters; none for any other word. *)
Lemma getConflictString_words (conflict : string) :
  _getConflictString conflict =
  if bool_decide (js_toLowerCase conflict ∈
                    ["fail"; "abort"; "ignore"; "replace"; "rollback"])
  then " or " +:+ js_toLowerCase conflict +:+ " " else " ".
Proof.
  unfold _getConflictString. cbv zeta.
  destruct (String.eqb_spec (js_toLowerCase conflict) "fail") as [->|Hw1];
    [done|].
  destruct (String.eqb_spec (js_toLowerCase conflict) "abort") as [->|Hw2];
    [done|].
  destruct (String.eqb_spec (js_toLowerCase conflict) "ignore") as [->|Hw3];
    [done|].
  destruct (String.eqb_spec (js_toLowerCase conflict) "replace") as [->|Hw4];
    [done|].
  destruct (String.eqb_spec (js_toLowerCase conflict) "rollback") as [->|Hw5];
    [done|].
  rewrite bool_decide_eq_false_2; [done|].
  rewrite !elem_of_cons, elem_of_nil. tauto.
Qed.

(** The statement of an [insert] is run as it is built. *)
Lemma insert_runs (name : string) (values conflict : Value) (sql : string)
    (t : Trilogy DB FS) (d : DB) :
  name ≠ "" →
  insert_query name values conflict = inr sql →
  db t = Some d →
  db (insert (VString name) values conflict t).1 = Some (sql_run d sql).1 ∧
  ∃ errors, observed (insert (VString name) values conflict t).1 =
    observed t ++ Verbose sql :: (ErrorListener <$> errors).
Proof.
  intros Hname Hquery Hdb. unfold insert.
  rewrite truthy_string by done. cbn [isString negb orb].
  rewrite Hquery.
  pose proof (run_fields (QueryText sql) t d Hdb) as (_ & _ & Hd & [errs Ho]).
  cbv zeta in Hd, Ho. cbn [query_text] in Hd, Ho.
  assert (∀ e (t' : Trilogy DB FS),
    db t' = Some (sql_run d sql).1 →
    observed t' = observed t ++ Verbose sql :: (ErrorListener <$> errs) →
    db (rejected_by (A := Value) (_errorHandler e None t')).1
      = Some (sql_run d sql).1 ∧
    ∃ errors, observed (rejected_by (A := Value) (_errorHandler e None t')).1 =
      observed t ++ Verbose sql :: (ErrorListener <$> errors)) as Hhandled.
  { intros e t' Hd' Ho'. rewrite rejected_by_fst.
    pose proof (errorHandler_fields e None t') as (_ & _ & Hd'' & _ & [errs' Ho'']).
    cbv zeta in Hd'', Ho''. rewrite Hd'', Hd', Ho'', Ho'. split; [done|].
    exists (errs ++ errs'). by rewrite fmap_app, <- app_assoc. }
  destruct (run (QueryText sql) t) as [t' [[]|e]]; simpl in Hd, Ho.
  - destruct (db t') as [d'|] eqn:Hdb'.
    + simpl. rewrite Hdb'. eauto.
    + by apply Hhandled.
  - by apply Hhandled.
Qed.

(** X16.  The conflict clause of an [insert].  When knex renders the
    statement as [insert into ...], a conflict option that is one of the
    words fail, abort, ignore, replace and rollback, in any mix of capital
    and small letters, makes it [insert or <word> into ...], the word in
    small letters; any other word leaves the statement as it is.  That
    statement is what [verbose] is told and what the engine runs. *)
Theorem insert_splices_the_conflict_clause (name : string) (values : Value)
    (conflict rest : string) (t : Trilogy DB FS) (d : DB) :
  name ≠ "" →
  conflict ≠ "" →
  knex_insert_toString name values = "insert into" +:+ rest →
  db t = Some d →
  let word := js_toLowerCase conflict in
  let sql :=
    if bool_decide (word ∈ ["fail"; "abort"; "ignore"; "replace"; "rollback"])
    then "insert or " +:+ word +:+ " into" +:+ rest
    else "insert into" +:+ rest in
  insert_query name values (VString conflict) = inr sql ∧
  db (insert (VString name) values (VString conflict) t).1
    = Some (sql_run d sql).1 ∧
  observed (insert (VString name) values (VString conflict) t).1
    !! length (observed t) = Some (Verbose sql).
Proof.
  intros Hname Hconflict Hknex Hdb word sql.
  assert (insert_query name values (VString conflict) = inr sql) as Hquery.
  { unfold insert_query. rewrite truthy_string by done. rewrite Hknex.
    rewrite js_replace_prefix, getConflictString_words. f_equal.
    subst sql word. case_bool_decide; [|done].
    change ("insert" +:+ (" or " +:+ js_toLowerCase conflict +:+ " ") +:+ "into")
      with ("insert or " +:+ ((js_toLowerCase conflict +:+ " ") +:+ "into")).
    rewrite !append_assoc. done. }
  destruct (insert_runs name values (VString conflict) sql t d Hname Hquery Hdb)
    as [Hd [errs Ho]].
  split_and!; [done|done|].
  rewrite Ho. by apply list_lookup_middle.
Qed.

End TrilogyMore.


Import Fixtures.

Lemma run_hides_a_failed_write_witness :
  let q := QueryText "insert into people values ('Bob', 17)" in
  let d' := ["create table people"; "insert into people values ('Bob', 17)"] in
  let t := Bench.opened_read_only in
  db t = Some ["create table people"] ∧
  sql_run ["create table people"] (query_text q) = (d', None) ∧
  (jetpack_file (disk t) (fileName t) (Bench.image d')).2
    = Some (VError "Error" "EROFS: read-only file system") ∧
  (run q t).2 = Resolved tt ∧
  db (run q t).1 = Some d' ∧
  observed (run q t).1 =
    [Verbose "insert into people values ('Bob', 17)";
     ErrorListener (VError "TrilogyError" "EROFS: read-only file system")] ∧
  disk (run q t).1 = disk t.
Proof.
  intros q d' t.
  assert (db t = Some ["create table people"]) as H1 by reflexivity.
  assert (sql_run ["create table people"] (query_text q) = (d', None)) as H2
    by reflexivity.
  assert ((jetpack_file (disk t) (fileName t) (Bench.image d')).2
          = Some (VError "Error" "EROFS: read-only file system")) as H3
    by reflexivity.
  destruct (run_hides_a_failed_write q t _ d' "Error"
              "EROFS: read-only file system" H1 H2
              (or_intror (ex_intro _ (Bench.image d') (conj eq_refl H3))))
    as (Hres & Hdb & Hobs & Hdisk).
  split_and!; [exact H1|exact H2|exact H3|exact Hres|exact Hdb|exact Hobs|
               exact Hdisk].
Defined.

Lemma constructed_instance_keeps_its_database_witness :
  let calls :=
    [CallInsert (VString "people") Demo.bob VUndefined;
     CallRaw (QueryText "select * from people") (VBool true);
     CallRun (QueryText "drop table people");
     CallCount (mkCount None None None None)] in
  new_Trilogy "storage.db" true (∅ : gmap string bytes) = inr created ∧
  is_Some (db (after_all calls created)) ∧
  fileName (after_all calls created) = "storage.db" ∧
  errorListener (after_all calls created) = true.
Proof.
  intros calls.
  assert (new_Trilogy "storage.db" true (∅ : gmap string bytes) = inr created)
    as H1 by reflexivity.
  split; [exact H1|].
  exact (constructed_instance_keeps_its_database "storage.db" true ∅ created
           calls H1).
Defined.

Lemma reopening_loads_what_run_saved_witness :
  let q := QueryText "insert into people values ('Bob', 17)" in
  let d' := ["create table people"; "insert into people values ('Bob', 17)"] in
  let fs' := <["storage.db" := Bench.image d']> (disk Bench.opened) in
  fileName Bench.opened ≠ "" ∧
  db Bench.opened = Some ["create table people"] ∧
  sql_run ["create table people"] (query_text q) = (d', None) ∧
  sql_export d' = inr (Bench.image d') ∧
  jetpack_file (disk Bench.opened) "storage.db" (Bench.image d') = (fs', None) ∧
  disk (run q Bench.opened).1 = fs' ∧
  new_Trilogy "storage.db" false (disk (run q Bench.opened).1) =
    inr (mkTrilogy "storage.db"
           (Some (sql_open (Some (Bench.image d')) : Bench.Db)) false fs' []).
Proof.
  intros q d' fs'.
  assert (fileName Bench.opened ≠ "") as H0 by discriminate.
  assert (db Bench.opened = Some ["create table people"]) as H1 by reflexivity.
  assert (sql_run ["create table people"] (query_text q) = (d', None)) as H2
    by reflexivity.
  assert (sql_export d' = inr (Bench.image d')) as H3 by reflexivity.
  assert (jetpack_file (disk Bench.opened) (fileName Bench.opened)
            (Bench.image d') = (fs', None)) as H4 by reflexivity.
  destruct (reopening_loads_what_run_saved (laws := bench_disk_laws)
              q Bench.opened _ d' _ fs' false H0 H1 H2 H3 H4) as (Hdisk & Hnew).
  split_and!; [exact H0|exact H1|exact H2|exact H3|exact H4|exact Hdisk|
               exact Hnew].
Defined.

Lemma decrement_without_column_runs_nothing_witness :
  let args := mkDecrement "people" None (Some 2) (Some Demo.bob) None in
  let e := VError "TrilogyError" ("Trilogy :: " +:+ constants_ERR_COL_MISSING) in
  js_includes "people" "." = false ∧
  js_includes "people" "[" = false ∧
  _isValidWhere Demo.bob = true ∧
  decrement args Bench.opened =
    (observe (ErrorListener e) Bench.opened, Rejected e).
Proof.
  intros args e.
  assert (js_includes (dec_table args) "." = false) as H1 by reflexivity.
  assert (js_includes (dec_table args) "[" = false) as H2 by reflexivity.
  assert (_isValidWhere Demo.bob = true) as H3 by reflexivity.
  assert (∀ v, dec_where args = Some v → _isValidWhere v = true) as H4.
  { intros v [= <-]. exact H3. }
  split_and!; [exact H1|exact H2|exact H3|].
  exact (decrement_without_column_runs_nothing args Bench.opened H1 H2
           (or_introl eq_refl) H4).
Defined.

Lemma decrement_reads_the_column_from_the_path_witness :
  js_includes "people" "." = false ∧
  js_includes "people" "[" = false ∧
  js_includes "age" "." = false ∧
  js_includes "age" "]" = false ∧
  decrement (mkDecrement "people.age" None None (Some Demo.bob) None)
    Bench.opened
  = decrement (mkDecrement "people" (Some "age") None (Some Demo.bob) None)
      Bench.opened ∧
  decrement (mkDecrement "people[age]" (Some "name") None (Some Demo.bob) None)
    Bench.opened
  = decrement (mkDecrement "people" (Some "age") None (Some Demo.bob) None)
      Bench.opened.
Proof.
  assert (js_includes "people" "." = false) as H1 by reflexivity.
  assert (js_includes "people" "[" = false) as H2 by reflexivity.
  assert (js_includes "age" "." = false) as H3 by reflexivity.
  assert (js_includes "age" "]" = false) as H4 by reflexivity.
  destruct (decrement_reads_the_column_from_the_path "people" "age" None None
              (Some Demo.bob) None Bench.opened H1 H2 H3 H4) as [Hdot _].
  destruct (decrement_reads_the_column_from_the_path "people" "age"
              (Some "name") None (Some Demo.bob) None Bench.opened H1 H2 H3 H4)
    as [_ Hbracket].
  split_and!; [exact H1|exact H2|exact H3|exact H4|exact Hdot|exact Hbracket].
Defined.

Lemma raw_returning_results_never_writes_witness :
  let q := QueryText "insert into people values ('Bob', 17)" in
  truthy (VBool true) = true ∧
  disk (raw q (VBool true) Bench.opened).1 = disk Bench.opened ∧
  raw q (VBool true) Bench.opened =
    (set_db (Some ["create table people"])
       (observe (Verbose (query_text q)) Bench.opened),
     Resolved (VArray [])).
Proof.
  intros q.
  destruct (raw_returning_results_never_writes q (VBool true) Bench.opened
              eq_refl) as [Hdisk Hres].
  split_and!; [reflexivity|exact Hdisk|].
  exact (Hres ["create table people"] ["create table people"] (VArray [])
           eq_refl eq_refl).
Defined.

Lemma insert_rejects_a_bad_table_name_witness :
  let e := VError "TrilogyError"
             "Trilogy#insert :: 'tableName' must be a string" in
  isString (VNumber 5) = false ∧
  insert (VNumber 5) Demo.bob VUndefined Bench.opened =
    (observe (ErrorListener e) Bench.opened, Rejected e) ∧
  insert (VString "") Demo.bob VUndefined Bench.opened =
    (observe (ErrorListener e) Bench.opened, Rejected e).
Proof.
  intros e.
  split_and!; [reflexivity| |].
  - exact (insert_rejects_a_bad_table_name (VNumber 5) Demo.bob VUndefined
             Bench.opened (or_introl eq_refl)).
  - exact (insert_rejects_a_bad_table_name (VString "") Demo.bob VUndefined
             Bench.opened (or_intror eq_refl)).
Defined.

Lemma insert_splices_the_conflict_clause_witness :
  let sql := "insert or replace into people default values" in
  "people" ≠ "" ∧ "REPLACE" ≠ "" ∧
  knex_insert_toString "people" Demo.bob
    = "insert into" +:+ " people default values" ∧
  db Bench.opened = Some ["create table people"] ∧
  insert_query "people" Demo.bob (VString "REPLACE") = inr sql ∧
  db (insert (VString "people") Demo.bob (VString "REPLACE") Bench.opened).1
    = Some ["create table people"; sql] ∧
  observed (insert (VString "people") Demo.bob (VString "REPLACE")
              Bench.opened).1 !! 0%nat = Some (Verbose sql).
Proof.
  intros sql.
  assert ("people" ≠ "") as H1 by discriminate.
  assert ("REPLACE" ≠ "") as H2 by discriminate.
  assert (knex_insert_toString "people" Demo.bob
          = "insert into" +:+ " people default values") as H3 by reflexivity.
  assert (db Bench.opened = Some ["create table people"]) as H4 by reflexivity.
  destruct (insert_splices_the_conflict_clause "people" Demo.bob "REPLACE"
              " people default values" Bench.opened _ H1 H2 H3 H4)
    as (Hquery & Hdb & Hobs).
  split_and!; [exact H1|exact H2|exact H3|exact H4|exact Hquery|exact Hdb|
               exact Hobs].
Defined.


(** ** Reading a result *)

Lemma get_prop_set_prop (k : string) (v : Value) (props : list (string * Value)) :
  k ≠ "__proto__" → get_prop k (set_prop k v props) = Some v.
Proof.
  intros Hk. unfold set_prop. destruct (String.eqb_spec k "__proto__"); [done|].
  induction props as [|[k' v'] props IH]; simpl.
  - by rewrite String.eqb_refl.
  - destruct (String.eqb_spec k k') as [->|Hk']; simpl.
    + by rewrite String.eqb_refl.
    + by destruct (String.eqb_spec k k').
Qed.

Lemma get_prop_set_prop_ne (k k' : string) (v : Value)
    (props : list (string * Value)) :
  k ≠ k' → get_prop k (set_prop k' v props) = get_prop k props.
Proof.
  intros Hk. unfold set_prop. destruct (String.eqb k' "__proto__"); [done|].
  induction props as [|[k0 v0] props IH]; simpl.
  - by destruct (String.eqb_spec k k').
  - destruct (String.eqb_spec k' k0) as [->|Hk0]; simpl.
    + by destruct (String.eqb_spec k k0).
    + destruct (String.eqb_spec k k0); [done|apply IH].
Qed.

Lemma fill_line_absent (cols : list string) (j : nat) (row : list Value)
    (line : list (string * Value)) (c : string) :
  c ∉ cols → get_prop c (fill_line cols j row line) = get_prop c line.
Proof.
  revert j line. induction cols as [|c0 cols IH]; intros j line Hc; [done|].
  simpl. rewrite IH by set_solver.
  apply get_prop_set_prop_ne. set_solver.
Qed.

Lemma fill_line_last (cols : list string) (j0 : nat) (row : list Value)
    (line : list (string * Value)) (c : string) (j : nat) :
  c ≠ "__proto__" →
  cols !! j = Some c →
  (∀ j', (j < j')%nat → cols !! j' ≠ Some c) →
  get_prop c (fill_line cols j0 row line)
  = Some (default VUndefined (row !! (j0 + j)%nat)).
Proof.
  intros Hc.
  revert j0 line j. induction cols as [|c0 cols IH]; intros j0 line j; [done|].
  destruct j as [|j]; simpl.
  - intros [= ->] Hlast.
    rewrite fill_line_absent.
    + rewrite get_prop_set_prop by done. by rewrite Nat.add_0_r.
    + intros [j' Hj']%list_elem_of_lookup_1.
      apply (Hlast (S j')); [lia|done].
  - intros Hj Hlast.
    rewrite (IH (S j0) _ j Hj).
    + do 3 f_equal. lia.
    + intros j' Hlt. apply (Hlast (S j')). lia.
Qed.

(** X17.  [_parseResponse] turns the first result of a statement into one
    object for each of its rows, in their order; the results of further
    statements are dropped.  A row's object has the columns for keys and
    nothing else, and holds under a column (other than [__proto__], which
    makes no key) the value the row has at the last position of that name:
    of two columns of one name the later one wins. *)
Theorem parseResponse_reads_the_first_result (first : ResultSet)
    (others : list ResultSet) (i j : nat) (row : list Value) (c : string) :
  c ≠ "__proto__" →
  values first !! i = Some row →
  columns first !! j = Some c →
  (∀ j', (j < j')%nat → columns first !! j' ≠ Some c) →
  length (_parseResponse (first :: others)) = length (values first) ∧
  ∃ line,
    _parseResponse (first :: others) !! i = Some (VObject line) ∧
    get_prop c line = Some (default VUndefined (row !! j)) ∧
    ∀ k, k ∉ columns first → get_prop k line = None.
Proof.
  intros Hc Hrow Hcol Hlast. simpl. split; [by rewrite length_fmap|].
  exists (fill_line (columns first) 0 row []). split_and!.
  - by rewrite list_lookup_fmap, Hrow.
  - by rewrite (fill_line_last _ _ _ _ c j).
  - intros k Hk. by rewrite fill_line_absent.
Qed.

Lemma parseResponse_reads_the_first_result_witness :
  let first :=
    mkResultSet ["name"; "age"; "name"]
      [[VString "Bob"; VNumber 17; VString "Robert"]; [VString "Ann"]] in
  let others := [mkResultSet ["count"] [[VNumber 2]]] in
  values first !! 1%nat = Some [VString "Ann"] ∧
  columns first !! 2%nat = Some "name" ∧
  length (_parseResponse (first :: others)) = 2%nat ∧
  ∃ line,
    _parseResponse (first :: others) !! 1%nat = Some (VObject line) ∧
    get_prop "name" line = Some VUndefined.
Proof.
  intros first others.
  assert (values first !! 1%nat = Some [VString "Ann"]) as H1 by reflexivity.
  assert (columns first !! 2%nat = Some "name") as H2 by reflexivity.
  assert (∀ j', (2 < j')%nat → columns first !! j' ≠ Some "name") as H3.
  { intros j' Hlt. do 3 (destruct j' as [|j']; [lia|]). discriminate. }
  destruct (parseResponse_reads_the_first_result first others 1 2
              [VString "Ann"] "name" ltac:(discriminate) H1 H2 H3)
    as (Hlen & line & Hline & Hget & _).
  split_and!; [exact H1|exact H2|exact Hlen|].
  exists line. split; [exact Hline|exact Hget].
Defined.


(** ** Walking an object *)

Import Util.

Lemma get_prop_entry (l : list (string * Value)) (k : string) (v : Value) :
  NoDup l.*1 → (k, v) ∈ l → get_prop k l = Some v.
Proof.
  induction l as [|[k0 v0] l IH]; simpl; intros Hnd Hin;
    [by apply elem_of_nil in Hin|].
  apply NoDup_cons in Hnd as [Hk0 Hnd].
  apply elem_of_cons in Hin as [[= -> ->]|Hin].
  - by rewrite String.eqb_refl.
  - destruct (String.eqb_spec k k0) as [->|]; [|by apply IH].
    exfalso. apply Hk0. apply list_elem_of_fmap. by exists (k0, v).
Qed.

Lemma is_false_spec (r : Value) : is_false r = true ↔ r = VBool false.
Proof. destruct r as [| |[]| | | | | | | |]; simpl; split; congruence. Qed.

Lemma set_prop_new (k : string) (v : Value) (l : list (string * Value)) :
  k ≠ "__proto__" → k ∉ l.*1 → set_prop k v l = l ++ [(k, v)].
Proof.
  intros Hproto. unfold set_prop.
  destruct (String.eqb_spec k "__proto__"); [done|].
  induction l as [|[k0 v0] l IH]; simpl; intros Hk; [done|].
  apply not_elem_of_cons in Hk as [Hne Hk].
  destruct (String.eqb_spec k k0) as [->|]; [done|]. by rewrite IH.
Qed.

Section WalkFacts.

Context {S : Type}.

Lemma each_key_stops (fn : Callback (S := S))
    (collection before : list (string * Value)) (key : string) (value : Value)
    (after : list (string * Value)) (s : S) :
  (∀ k v, (k, v) ∈ before → get_prop k collection = Some v) →
  get_prop key collection = Some value →
  (∀ v k c s', (fn v k c s').2.1 = c) →
  (∀ k v s', (k, v) ∈ before → (fn v k collection s').1 ≠ VBool false) →
  (∀ s', (fn value key collection s').1 = VBool false) →
  each_key fn (before ++ (key, value) :: after).*1 collection s =
    (collection,
     (fn value key collection
        (foldl (λ s' kv, (fn kv.2 kv.1 collection s').2.2) s before)).2.2).
Proof.
  intros Hbefore Hkey Hpure Hgoes Hstops. revert s.
  induction before as [|[k0 v0] before IH]; intros s; simpl.
  - rewrite Hkey. simpl.
    pose proof (Hstops s) as Hr. pose proof (Hpure value key collection s) as Hc.
    destruct (fn value key collection s) as [r [c' s']]. simpl in *. subst.
    done.
  - rewrite (Hbefore k0 v0) by set_solver. simpl.
    pose proof (Hgoes k0 v0 s) as Hr. pose proof (Hpure v0 k0 collection s) as Hc.
    destruct (fn v0 k0 collection s) as [r [c' s']]. simpl in *. subst c'.
    destruct (is_false r) eqn:Hf.
    + apply is_false_spec in Hf. exfalso. apply Hr; [set_solver|done].
    + apply IH.
      * intros k v Hin. apply Hbefore. set_solver.
      * intros k v s0 Hin. apply Hgoes. set_solver.
Qed.

(** X18.  [eachObj] walks the keys in their order and stops at the first
    one for which the callback returns [false]: for a callback that leaves
    the collection alone, the callback is run on every entry up to that one,
    each on the state the one before left, and on none after it. *)
Theorem eachObj_stops_at_the_first_false (fn : Callback (S := S))
    (before : list (string * Value)) (key : string) (value : Value)
    (after : list (string * Value)) (s : S) :
  let collection := before ++ (key, value) :: after in
  NoDup (Object_keys collection) →
  (∀ v k c s', (fn v k c s').2.1 = c) →
  (∀ k v s', (k, v) ∈ before → (fn v k collection s').1 ≠ VBool false) →
  (∀ s', (fn value key collection s').1 = VBool false) →
  eachObj fn collection s =
    (collection,
     (fn value key collection
        (foldl (λ s' kv, (fn kv.2 kv.1 collection s').2.2) s before)).2.2).
Proof.
  intros collection Hnd Hpure Hgoes Hstops. unfold eachObj, Object_keys.
  apply each_key_stops; try done.
  - intros k v Hin. apply get_prop_entry; [done|]. subst collection. set_solver.
  - apply get_prop_entry; [done|]. subst collection. set_solver.
Qed.

End WalkFacts.

Lemma each_key_maps (f : Value → string → list (string * Value) → Value)
    (collection entries acc : list (string * Value)) :
  (∀ k v, (k, v) ∈ entries → get_prop k collection = Some v) →
  NoDup (acc.*1 ++ entries.*1) →
  "__proto__" ∉ entries.*1 →
  each_key (S := list (string * Value) * unit)
    (λ value key collection '(result, s),
       let '(r, (collection', s')) := stateless f value key collection s in
       (VUndefined, (collection', (set_prop key r result, s'))))
    entries.*1 collection (acc, tt)
  = (collection,
     (acc ++ ((λ kv, (kv.1, f kv.2 kv.1 collection)) <$> entries), tt)).
Proof.
  revert acc.
  induction entries as [|[k0 v0] entries IH]; intros acc Hget Hnd Hproto.
  - simpl. by rewrite app_nil_r.
  - simpl. rewrite (Hget k0 v0) by set_solver. simpl.
    apply NoDup_app in Hnd as (Hacc & Hdisj & Hent).
    simpl in Hproto. apply not_elem_of_cons in Hproto as [Hk0 Hproto].
    rewrite set_prop_new;
      [|done|intros Hin; apply (Hdisj k0 Hin); constructor].
    rewrite IH.
    + by rewrite <- app_assoc.
    + intros k v Hin. apply Hget. set_solver.
    + rewrite fmap_app. simpl. rewrite <- app_assoc. simpl.
      apply NoDup_app. split_and!; [done| |done].
      intros k Hin. apply (Hdisj k Hin).
    + done.
Qed.

(** X19.  [mapObj] maps every key.  It is built on [eachObj], which stops
    when its callback returns [false], but the callback [mapObj] hands to it
    returns nothing: whatever a mapping function without effects returns,
    [false] included, the result has the keys of the collection, in their
    order, each with what the function made of its value.  (A key
    [__proto__] would be lost: writing it makes no key.) *)
Theorem mapObj_maps_every_key
    (f : Value → string → list (string * Value) → Value)
    (collection : list (string * Value)) :
  NoDup (Object_keys collection) →
  "__proto__" ∉ Object_keys collection →
  (mapObj (stateless f) collection tt).1
    = (λ kv, (kv.1, f kv.2 kv.1 collection)) <$> collection ∧
  Object_keys (mapObj (stateless f) collection tt).1 = Object_keys collection.
Proof.
  intros Hnd Hproto.
  assert ((mapObj (stateless f) collection tt).1
          = (λ kv, (kv.1, f kv.2 kv.1 collection)) <$> collection) as Hmap.
  { unfold mapObj, eachObj, Object_keys.
    rewrite (each_key_maps f collection collection []); [done| |done|done].
    intros k v Hin. by apply get_prop_entry. }
  split; [done|]. rewrite Hmap. unfold Object_keys.
  rewrite <- list_fmap_compose. by apply list_fmap_ext.
Qed.


Lemma eachObj_stops_at_the_first_false_witness :
  let fn : Callback (S := list string) :=
    λ value key collection seen,
      (if String.eqb key "b" then VBool false else VUndefined,
       (collection, seen ++ [key])) in
  let collection :=
    [("a", VNumber 1); ("b", VNumber 2); ("c", VNumber 3)] in
  NoDup (Object_keys collection) ∧
  eachObj fn collection [] = (collection, ["a"; "b"]).
Proof.
  intros fn collection.
  assert (NoDup (Object_keys collection)) as H1 by compute_done.
  split; [exact H1|].
  refine (eachObj_stops_at_the_first_false fn [("a", VNumber 1)] "b"
            (VNumber 2) [("c", VNumber 3)] [] H1 _ _ _).
  - reflexivity.
  - intros k v s' Hin. apply list_elem_of_singleton in Hin as [= -> ->].
    discriminate.
  - reflexivity.
Defined.

Lemma mapObj_maps_every_key_witness :
  let collection := [("a", VNumber 1); ("b", VNumber 2)] in
  NoDup (Object_keys collection) ∧
  ("__proto__" ∉ Object_keys collection) ∧
  (mapObj (stateless (λ _ _ _, VBool false)) collection tt).1
    = [("a", VBool false); ("b", VBool false)] ∧
  Object_keys (mapObj (stateless (λ _ _ _, VBool false)) collection tt).1
    = ["a"; "b"].
Proof.
  intros collection.
  assert (NoDup (Object_keys collection)) as H1 by compute_done.
  assert ("__proto__" ∉ Object_keys collection) as H2 by compute_done.
  split_and!; [exact H1|exact H2| |];
    apply (mapObj_maps_every_key (λ _ _ _, VBool false) collection H1 H2).
Defined.


(** ** Models *)

Section ModelFacts.

Context {B : Type} `{Models.Runner B}.

Lemma get_prop_filter_ne (name other : string) (defs : list (string * Value)) :
  other ≠ name →
  get_prop other (filter (λ kv, kv.1 ≠ name) defs) = get_prop other defs.
Proof.
  intros Hother. induction defs as [|[k v] defs IH]; [done|].
  rewrite filter_cons. simpl. destruct (decide (k ≠ name)) as [Hk|Hk]; simpl.
  - by rewrite IH.
  - apply dec_stable in Hk. subst k.
    by destruct (String.eqb_spec other name).
Qed.

Lemma get_prop_filter_eq (name : string) (defs : list (string * Value)) :
  get_prop name (filter (λ kv, kv.1 ≠ name) defs) = None.
Proof.
  induction defs as [|[k v] defs IH]; [done|].
  rewrite filter_cons. simpl. destruct (decide (k ≠ name)) as [Hk|Hk]; simpl.
  - by destruct (String.eqb_spec name k).
  - done.
Qed.

Lemma filter_names (name : string) (defs : list (string * Value)) :
  (filter (λ kv, kv.1 ≠ name) defs).*1 = filter (λ k, k ≠ name) defs.*1.
Proof.
  induction defs as [|[k m] defs IH]; [done|].
  rewrite fmap_cons, !filter_cons. cbn [fst].
  destruct (decide (k ≠ name)); [|done].
  rewrite fmap_cons. cbn [fst]. by rewrite IH.
Qed.

Lemma getModel_undefined (name : string) (t : Models.Trilogy B) :
  get_prop name (Models._definitions t) = None →
  Models.getModel name t
  = inl (TrilogyError ("no model defined by the name '" +:+ name +:+ "'")).
Proof. intros Hnone. unfold Models.getModel. by rewrite Hnone. Qed.

Lemma getModel_defined (name : string) (model : Value) (t : Models.Trilogy B) :
  get_prop name (Models._definitions t) = Some model →
  truthy model = true →
  Models.getModel name t = inr model.
Proof.
  intros Hsome Hmodel. unfold Models.getModel, invariant.
  rewrite Hsome. simpl. by rewrite Hmodel.
Qed.

(** X20.  [dropModel] forgets a model once its table is dropped, and not
    before.  When the query goes through, it resolves [true]; after that
    [getModel] throws for the name, the name is gone from [models], and the
    other models are where they were.  When the query fails, [dropModel]
    rejects with its error and the definition stays. *)
Theorem dropModel_forgets_a_dropped_model (name : string) (model : Value)
    (t : Models.Trilogy B) :
  get_prop name (Models._definitions t) = Some model →
  (∀ b v,
     Models.runQuery (Models.connection t) (Models.DropTableIfExists name) true
       = (b, Resolved v) →
     let t' := (Models.dropModel name t).1 in
     (Models.dropModel name t).2 = Resolved (VBool true) ∧
     Models.connection t' = b ∧
     Models.getModel name t'
       = inl (TrilogyError ("no model defined by the name '" +:+ name +:+ "'")) ∧
     Models.models t' = filter (λ k, k ≠ name) (Models.models t) ∧
     ∀ other, other ≠ name → Models.getModel other t' = Models.getModel other t) ∧
  (∀ b e,
     Models.runQuery (Models.connection t) (Models.DropTableIfExists name) true
       = (b, Rejected e) →
     (Models.dropModel name t).2 = Rejected e ∧
     Models._definitions (Models.dropModel name t).1 = Models._definitions t).
Proof.
  intros Hdefined.
  assert (Models.has name t = true) as Hhas.
  { unfold Models.has. rewrite Hdefined. by apply bool_decide_eq_true. }
  split.
  - intros b v Hrun t'. subst t'. unfold Models.dropModel.
    rewrite Hhas, Hrun. simpl. split_and!; [done|done| | |].
    + apply getModel_undefined. simpl. apply get_prop_filter_eq.
    + unfold Models.models. simpl. apply filter_names.
    + intros other Hother. unfold Models.getModel. simpl.
      by rewrite get_prop_filter_ne.
  - intros b e Hrun. unfold Models.dropModel. by rewrite Hhas, Hrun.
Qed.

(** X21.  A name without a dot for which no model is defined: [getModel]
    throws a [TrilogyError] that names it, [hasModel] and [dropModel]
    resolve [false] without a query being run, and [find] on the name, or on
    a location that starts with the name and a dot, throws the same error,
    which names the table and not the whole location. *)
Theorem unknown_model_is_refused_by_name (name rest : string)
    (criteria options : Value) (t : Models.Trilogy B) :
  js_includes name "." = false →
  get_prop name (Models._definitions t) = None →
  let e := TrilogyError ("no model defined by the name '" +:+ name +:+ "'") in
  Models.getModel name t = inl e ∧
  Models.hasModel name t = (t, Resolved (VBool false)) ∧
  Models.dropModel name t = (t, Resolved (VBool false)) ∧
  Models.find name criteria options t = inl e ∧
  Models.find (name +:+ "." +:+ rest) criteria options t = inl e.
Proof.
  intros Hdot Hnone e.
  assert (Models.has name t = false) as Hhas.
  { unfold Models.has. rewrite Hnone. apply bool_decide_eq_false.
    by intros [? ?]. }
  pose proof Hdot as Hdot'. rewrite js_includes_false in Hdot'.
  split_and!.
  - by apply getModel_undefined.
  - unfold Models.hasModel. by rewrite Hhas.
  - unfold Models.dropModel. by rewrite Hhas.
  - unfold Models.find, Models.split_location, js_split.
    rewrite split_chars_plain by done. simpl.
    by rewrite of_chars_chars, getModel_undefined.
  - unfold Models.find, Models.split_location, js_split.
    rewrite chars_app.
    change (chars ("." +:+ rest)) with ("."%char :: chars rest).
    rewrite split_chars_app by done. simpl.
    by rewrite of_chars_chars, getModel_undefined.
Qed.

(** X22.  A location names its table before the first dot and its column
    between the first dot and the second; what comes after a second dot is
    dropped.  [find] hands the call to the model of the table, with the
    column, or [undefined] when the location has no dot.  [remove] takes the
    whole location for the name of the model. *)
Theorem find_reads_table_and_column (tbl col rest : string) (model : Value)
    (criteria options : Value) (t : Models.Trilogy B) :
  js_includes tbl "." = false →
  js_includes col "." = false →
  get_prop tbl (Models._definitions t) = Some model →
  truthy model = true →
  Models.find tbl criteria options t
    = inr (Models.mkDelegated model "find" [VUndefined; criteria; options]) ∧
  Models.find (tbl +:+ "." +:+ col) criteria options t
    = inr (Models.mkDelegated model "find" [VString col; criteria; options]) ∧
  Models.find (tbl +:+ "." +:+ col +:+ "." +:+ rest) criteria options t
    = inr (Models.mkDelegated model "find" [VString col; criteria; options]) ∧
  (get_prop (tbl +:+ "." +:+ col) (Models._definitions t) = None →
   Models.remove (tbl +:+ "." +:+ col) criteria t
   = inl (TrilogyError ("no model defined by the name '"
                          +:+ (tbl +:+ "." +:+ col) +:+ "'"))).
Proof.
  intros Htbl Hcol Hdefined Hmodel.
  rewrite js_includes_false in Htbl, Hcol.
  split_and!.
  - unfold Models.find, Models.split_location, js_split.
    rewrite split_chars_plain by done. simpl.
    by rewrite of_chars_chars, (getModel_defined tbl model).
  - unfold Models.find, Models.split_location, js_split.
    rewrite chars_app.
    change (chars ("." +:+ col)) with ("."%char :: chars col).
    rewrite split_chars_app, split_chars_plain by done. simpl.
    by rewrite !of_chars_chars, (getModel_defined tbl model).
  - unfold Models.find, Models.split_location, js_split.
    rewrite chars_app.
    change (chars ("." +:+ col +:+ "." +:+ rest))
      with ("."%char :: chars (col +:+ "." +:+ rest)).
    rewrite chars_app.
    change (chars ("." +:+ rest)) with ("."%char :: chars rest).
    rewrite split_chars_app by done.
    rewrite split_chars_app by done. simpl.
    by rewrite !of_chars_chars, (getModel_defined tbl model).
  - intros Hnone. unfold Models.remove. by rewrite getModel_undefined.
Qed.

End ModelFacts.

Import ModelBench.

Lemma dropModel_forgets_a_dropped_model_witness :
  let t' := (Models.dropModel "people" ModelBench.defined).1 in
  get_prop "people" (Models._definitions ModelBench.defined) = Some ModelBench.people ∧
  Models.runQuery (Models.connection ModelBench.defined)
    (Models.DropTableIfExists "people") true
    = ([Models.DropTableIfExists "people"], Resolved (VBool true)) ∧
  (Models.dropModel "people" ModelBench.defined).2 = Resolved (VBool true) ∧
  Models.getModel "people" t'
    = inl (TrilogyError "no model defined by the name 'people'") ∧
  Models.models t' = ["ledger"] ∧
  Models.getModel "ledger" t' = inr ModelBench.ledger ∧
  (Models.dropModel "ledger" ModelBench.defined).2
    = Rejected (VError "Error" "database is locked") ∧
  Models.models (Models.dropModel "ledger" ModelBench.defined).1
    = ["people"; "ledger"].
Proof.
  intros t'.
  assert (get_prop "people" (Models._definitions ModelBench.defined)
          = Some ModelBench.people) as H1 by reflexivity.
  assert (Models.runQuery (Models.connection ModelBench.defined)
            (Models.DropTableIfExists "people") true
          = ([Models.DropTableIfExists "people"], Resolved (VBool true))) as H2
    by reflexivity.
  destruct (dropModel_forgets_a_dropped_model "people" ModelBench.people
              ModelBench.defined H1) as [Hdropped _].
  destruct (Hdropped _ _ H2) as (Hres & _ & Hget & Hmodels & Hothers).
  destruct (dropModel_forgets_a_dropped_model "ledger" ModelBench.ledger
              ModelBench.defined eq_refl) as [_ Hkept].
  destruct (Hkept [Models.DropTableIfExists "ledger"]
              (VError "Error" "database is locked") eq_refl) as [Hrej Hdefs].
  split_and!; [exact H1|exact H2|exact Hres|exact Hget|exact Hmodels| |
               exact Hrej|].
  - unfold t'. rewrite (Hothers "ledger"); [reflexivity|discriminate].
  - unfold Models.models. rewrite Hdefs. reflexivity.
Defined.

Lemma unknown_model_is_refused_by_name_witness :
  let e := TrilogyError "no model defined by the name 'pets'" in
  js_includes "pets" "." = false ∧
  get_prop "pets" (Models._definitions ModelBench.defined) = None ∧
  Models.getModel "pets" ModelBench.defined = inl e ∧
  Models.hasModel "pets" ModelBench.defined
    = (ModelBench.defined, Resolved (VBool false)) ∧
  Models.dropModel "pets" ModelBench.defined
    = (ModelBench.defined, Resolved (VBool false)) ∧
  Models.find "pets.name" Demo.bob VUndefined ModelBench.defined = inl e.
Proof.
  intros e.
  assert (js_includes "pets" "." = false) as H1 by reflexivity.
  assert (get_prop "pets" (Models._definitions ModelBench.defined) = None) as H2
    by reflexivity.
  destruct (unknown_model_is_refused_by_name "pets" "name" Demo.bob VUndefined
              ModelBench.defined H1 H2) as (Hget & Hhas & Hdrop & _ & Hfind).
  split_and!; [exact H1|exact H2|exact Hget|exact Hhas|exact Hdrop|exact Hfind].
Defined.

Lemma find_reads_table_and_column_witness :
  js_includes "people" "." = false ∧
  js_includes "name" "." = false ∧
  get_prop "people" (Models._definitions ModelBench.defined) = Some ModelBench.people ∧
  truthy ModelBench.people = true ∧
  Models.find "people.name.first" Demo.bob VUndefined ModelBench.defined
    = inr (Models.mkDelegated ModelBench.people "find"
             [VString "name"; Demo.bob; VUndefined]) ∧
  Models.remove "people.name" Demo.bob ModelBench.defined
    = inl (TrilogyError "no model defined by the name 'people.name'").
Proof.
  assert (js_includes "people" "." = false) as H1 by reflexivity.
  assert (js_includes "name" "." = false) as H2 by reflexivity.
  assert (get_prop "people" (Models._definitions ModelBench.defined)
          = Some ModelBench.people) as H3 by reflexivity.
  assert (truthy ModelBench.people = true) as H4 by reflexivity.
  destruct (find_reads_table_and_column "people" "name" "first" ModelBench.people
              Demo.bob VUndefined ModelBench.defined H1 H2 H3 H4)
    as (_ & _ & Hfind & Hremove).
  split_and!; [exact H1|exact H2|exact H3|exact H4|exact Hfind|].
  exact (Hremove eq_refl).
Defined.


(** ** hasTable *)

Section HasTable.

Context {DB FS : Type} `{Engine DB} `{FileSystem FS} `{Knex} `{Relational}.

(** X23.  [hasTable] counts the rows of [sqlite_master] that bear the
    name, and resolves whether the count is above zero.  When the statement
    fails with an [Error], [hasTable] rejects with it, renamed
    [TrilogyError], and the error listener is told of the one failure
    twice: once by [count], which catches the error, and once more by
    [hasTable], which catches the rejection of [count]. *)
Theorem hasTable_reports_a_failure_twice (tableName : Value)
    (t : Trilogy DB FS) (d : DB) :
  db t = Some d →
  let criteria := VObject [("name", tableName)] in
  let query :=
    count_query (mkCount (Some "sqlite_master") (Some "name") (Some criteria) None)
      criteria in
  (∀ d' n,
     sql_getAsObject d query = (d', inr (VObject [("count", VNumber n)])) →
     js_gt (VNumber n) (VNumber 0) = inr (0 <? n) →
     hasTable tableName t = (set_db (Some d') t, Resolved (VBool (0 <? n)))) ∧
  (∀ d' name message,
     sql_getAsObject d query = (d', inl (VError name message)) →
     let e := VError "TrilogyError" message in
     (hasTable tableName t).2 = Rejected e ∧
     observed (hasTable tableName t).1 =
       observed t ++
       (if errorListener t then [ErrorListener e; ErrorListener e] else [])).
Proof.
  intros Hdb criteria query. split.
  - intros d' n Hget Hgt. unfold hasTable, count. cbn [cnt_where arify_where].
    change (_isValidWhere (VObject [("name", tableName)])) with true.
    cbv iota. fold criteria. fold query. rewrite Hdb, Hget.
    rewrite (count_result_found [("count", VNumber n)] (VNumber n) eq_refl).
    by rewrite Hgt.
  - intros d' name message Hget e. unfold hasTable, count.
    cbn [cnt_where arify_where].
    change (_isValidWhere (VObject [("name", tableName)])) with true.
    cbv iota. fold criteria. fold query. rewrite Hdb, Hget.
    rewrite errorHandler_error.
    destruct (errorListener t) eqn:Hl.
    + rewrite errorHandler_error. simpl. rewrite !Hl. simpl. rewrite ?Hl.
      simpl. split; [done|]. by rewrite <- app_assoc.
    + rewrite errorHandler_error. simpl. rewrite !Hl. simpl. rewrite ?Hl.
      split; [done|]. by rewrite app_nil_r.
Qed.

End HasTable.

Lemma hasTable_reports_a_failure_twice_witness :
  let e := VError "TrilogyError" "database is locked" in
  db Bench.opened = Some ["create table people"] ∧
  hasTable (VString "people") Bench.opened = (Bench.opened, Resolved (VBool true)) ∧
  db opened_locked = Some (mkLocked ["create table people"]) ∧
  (hasTable (VString "people") opened_locked).2 = Rejected e ∧
  observed (hasTable (VString "people") opened_locked).1
    = [ErrorListener e; ErrorListener e].
Proof.
  intros e.
  assert (db Bench.opened = Some ["create table people"]) as H1 by reflexivity.
  assert (db opened_locked = Some (mkLocked ["create table people"])) as H2
    by reflexivity.
  destruct (hasTable_reports_a_failure_twice (VString "people") Bench.opened
              _ H1) as [Hfound _].
  destruct (hasTable_reports_a_failure_twice (VString "people") opened_locked
              _ H2) as [_ Hfailed].
  destruct (Hfailed (mkLocked ["create table people"]) "Error"
              "database is locked" eq_refl) as [Hrej Hobs].
  split_and!; [exact H1| |exact H2|exact Hrej|exact Hobs].
  exact (Hfound ["create table people"] 1 eq_refl eq_refl).
Defined.
